(** * PII detector: pattern registry, structural validators, confidence
      policy and overlap resolution

    Shallow embedding of [src/utils/pii-patterns.ts] and
    [src/utils/pii-detector.ts].

    - A JavaScript string is its sequence of UTF-16 code units; [.length]
      counts code units.
    - The host runtime (the RegExp constructor, [String.prototype.matchAll]
      and [String.prototype.toLowerCase]) is a parameter of the detector
      section, so that the general statements hold for every runtime.  A
      concrete backtracking matcher for the regular-expression fragment used
      by the shipped patterns is supplied to run the detector on concrete
      inputs.
    - A thrown exception is the [Throw] result of an error monad.
    - Calls of [console.log] are left out: they read the values and change
      none. *)

From Stdlib Require Import String Ascii.
From Stdlib Require Import List ZArith NArith Bool Lia Permutation.
Import ListNotations.

Local Open Scope Z_scope.

(* ================================================================== *)
(** ** JavaScript strings *)

(** A string value: its UTF-16 code units. *)
Definition jsstring := list N.

Definition jslength (s : jsstring) : Z := Z.of_nat (length s).

Fixpoint jseqb (a b : jsstring) : bool :=
  match a, b with
  | [], [] => true
  | x :: a', y :: b' => N.eqb x y && jseqb a' b'
  | _, _ => false
  end.

(** Source literals are written in UTF-8; [utf16] yields the code units of
    the string value the literal denotes (a surrogate pair for a scalar
    beyond the basic plane). *)
Fixpoint utf8_to_utf16 (bs : list N) : jsstring :=
  match bs with
  | [] => []
  | b0 :: r0 =>
    if (b0 <? 128)%N then b0 :: utf8_to_utf16 r0
    else if (b0 <? 224)%N then
      match r0 with
      | b1 :: r1 =>
        ((b0 mod 32) * 64 + b1 mod 64)%N :: utf8_to_utf16 r1
      | [] => []
      end
    else if (b0 <? 240)%N then
      match r0 with
      | b1 :: b2 :: r2 =>
        ((b0 mod 16) * 4096 + (b1 mod 64) * 64 + b2 mod 64)%N
          :: utf8_to_utf16 r2
      | _ => []
      end
    else
      match r0 with
      | b1 :: b2 :: b3 :: r3 =>
        let cp := ((b0 mod 8) * 262144 + (b1 mod 64) * 4096
                   + (b2 mod 64) * 64 + b3 mod 64)%N in
        let v := (cp - 65536)%N in
        (55296 + v / 1024)%N :: (56320 + v mod 1024)%N :: utf8_to_utf16 r3
      | _ => []
      end
  end.

Fixpoint bytes_of_string (s : string) : list N :=
  match s with
  | EmptyString => []
  | String a s' => N_of_ascii a :: bytes_of_string s'
  end.

Definition utf16 (s : string) : jsstring := utf8_to_utf16 (bytes_of_string s).

(** [s.startsWith(pre)] *)
Fixpoint startsWith (s pre : jsstring) : bool :=
  match pre, s with
  | [], _ => true
  | p :: pre', c :: s' => N.eqb c p && startsWith s' pre'
  | _ :: _, [] => false
  end.

(** [s.includes(sub)] *)
Fixpoint includes (s sub : jsstring) : bool :=
  startsWith s sub ||
  match s with
  | [] => false
  | _ :: s' => includes s' sub
  end.

(** [s.split(sep)] for a one-code-unit separator. *)
Fixpoint split (sep : N) (s : jsstring) : list jsstring :=
  match s with
  | [] => [[]]
  | c :: s' =>
    if N.eqb c sep then [] :: split sep s'
    else match split sep s' with
         | [] => [[c]]
         | p :: ps => (c :: p) :: ps
         end
  end.

(** WhiteSpace and LineTerminator code units: the class [\s], also what
    [trim] strips. *)
Definition isWhiteSpace (c : N) : bool :=
  ((9 <=? c) && (c <=? 13) || (c =? 32) || (c =? 160) || (c =? 5760)
   || (8192 <=? c) && (c <=? 8202) || (c =? 8232) || (c =? 8233)
   || (c =? 8239) || (c =? 8287) || (c =? 12288) || (c =? 65279))%N.

Definition isLineTerminator (c : N) : bool :=
  ((c =? 10) || (c =? 13) || (c =? 8232) || (c =? 8233))%N.

Definition isDigit (c : N) : bool := ((48 <=? c) && (c <=? 57))%N.

(** Word characters of [\w] and [\b]: [A-Za-z0-9_]. *)
Definition isWordChar (c : N) : bool :=
  ((97 <=? c) && (c <=? 122) || (65 <=? c) && (c <=? 90)
   || isDigit c || (c =? 95))%N.

(** [s.trim()] removes leading and trailing white space. *)
Fixpoint trimStart (s : jsstring) : jsstring :=
  match s with
  | c :: s' => if isWhiteSpace c then trimStart s' else s
  | [] => []
  end.

Definition trim (s : jsstring) : jsstring :=
  rev (trimStart (rev (trimStart s))).

(* ================================================================== *)
(** ** Regular expressions of the host runtime (fragment)

    Abstract syntax and backtracking semantics of the ECMAScript pattern
    fragment the shipped pattern sources are written in: disjunction,
    sequence, greedy and lazy bounded repetition, groups, character classes
    with ranges and class escapes, [.], [^], [$], [\b], [\B] and look-ahead.
    No flag other than [g] is involved, so matching is per code unit and
    case sensitive.  Capture contents are not tracked: no shipped source has
    a back-reference, and only [match[0]] and [match.index] are read. *)

Inductive class_item : Type :=
| CChar (c : N)
| CRange (lo hi : N)
| CDigit (neg : bool)
| CSpace (neg : bool)
| CWord (neg : bool).

Inductive regex : Type :=
| REmpty
| RChar (c : N)
| RAny
| RClass (neg : bool) (items : list class_item)
| RSeq (r1 r2 : regex)
| RAlt (r1 r2 : regex)
| RRepeat (min : nat) (max : option nat) (greedy : bool) (r : regex)
| RGroup (r : regex)
| RLook (neg : bool) (r : regex)
| RWordB (neg : bool)
| RBol
| REol.

Definition class_item_matches (it : class_item) (c : N) : bool :=
  match it with
  | CChar d => N.eqb c d
  | CRange lo hi => ((lo <=? c) && (c <=? hi))%N
  | CDigit neg => xorb neg (isDigit c)
  | CSpace neg => xorb neg (isWhiteSpace c)
  | CWord neg => xorb neg (isWordChar c)
  end.

Definition class_matches (neg : bool) (items : list class_item) (c : N)
  : bool :=
  xorb neg (existsb (fun it => class_item_matches it c) items).

(** Matcher state: end index, the code unit before it, the input after. *)
Record mstate : Type := MState {
  m_idx : nat;
  m_prev : option N;
  m_rest : list N
}.

Definition m_start (s : jsstring) : mstate := MState 0 None s.

Definition m_advance (x : mstate) : option mstate :=
  match m_rest x with
  | [] => None
  | c :: r => Some (MState (S (m_idx x)) (Some c) r)
  end.

Definition m_char (p : N -> bool) (x : mstate)
           (k : mstate -> option mstate) : option mstate :=
  match m_rest x with
  | c :: r => if p c then k (MState (S (m_idx x)) (Some c) r) else None
  | [] => None
  end.

Definition opt_word (o : option N) : bool :=
  match o with Some c => isWordChar c | None => false end.

Definition at_word_boundary (x : mstate) : bool :=
  xorb (opt_word (m_prev x)) (opt_word (hd_error (m_rest x))).

(** RepeatMatcher: at most [max] iterations, at least [min]; once [min] is
    reached an iteration that consumes nothing fails.  [fuel] bounds the
    number of iterations and is taken as [min + (remaining input) + 1]. *)
Fixpoint repeat_matcher
         (m : mstate -> (mstate -> option mstate) -> option mstate)
         (fuel : nat) (min : nat) (max : option nat) (greedy : bool)
         (x : mstate) (k : mstate -> option mstate) : option mstate :=
  match fuel with
  | O => None
  | S fuel' =>
    match max with
    | Some O => k x
    | _ =>
      let d := fun y : mstate =>
        if Nat.eqb min 0 && Nat.eqb (m_idx y) (m_idx x) then None
        else repeat_matcher m fuel' (Nat.pred min)
                            (option_map Nat.pred max) greedy y k in
      if negb (Nat.eqb min 0) then m x d
      else if greedy then
        match m x d with
        | Some z => Some z
        | None => k x
        end
      else
        match k x with
        | Some z => Some z
        | None => m x d
        end
    end
  end.

Fixpoint matcher (r : regex) (x : mstate) (k : mstate -> option mstate)
  : option mstate :=
  match r with
  | REmpty => k x
  | RChar c => m_char (N.eqb c) x k
  | RAny => m_char (fun c => negb (isLineTerminator c)) x k
  | RClass neg items => m_char (class_matches neg items) x k
  | RSeq r1 r2 => matcher r1 x (fun y => matcher r2 y k)
  | RAlt r1 r2 =>
    match matcher r1 x k with
    | Some z => Some z
    | None => matcher r2 x k
    end
  | RRepeat min max greedy r' =>
    repeat_matcher (matcher r') (min + length (m_rest x) + 1)
                   min max greedy x k
  | RGroup r' => matcher r' x k
  | RLook neg r' =>
    match matcher r' x (fun y => Some y) with
    | Some _ => if neg then None else k x
    | None => if neg then k x else None
    end
  | RWordB neg => if xorb neg (at_word_boundary x) then k x else None
  | RBol => match m_prev x with None => k x | Some _ => None end
  | REol => match m_rest x with [] => k x | _ :: _ => None end
  end.

(** One raw occurrence: [match.index] and [match[0]]. *)
Record RegExpMatch : Type := mkRegExpMatch {
  rm_index : Z;
  rm_text : jsstring
}.

(** The iterator behind [matchAll] on a global expression: search forward
    from [lastIndex]; after an occurrence continue at its end, one further
    when the occurrence is empty. *)
Fixpoint matchAll_from (fuel : nat) (r : regex) (x : mstate)
  : list RegExpMatch :=
  match fuel with
  | O => []
  | S fuel' =>
    match matcher r x (fun y => Some y) with
    | Some e =>
      let occ := mkRegExpMatch (Z.of_nat (m_idx x))
                    (firstn (m_idx e - m_idx x) (m_rest x)) in
      if Nat.eqb (m_idx e) (m_idx x) then
        match m_advance x with
        | Some x' => occ :: matchAll_from fuel' r x'
        | None => [occ]
        end
      else occ :: matchAll_from fuel' r e
    | None =>
      match m_advance x with
      | Some x' => matchAll_from fuel' r x'
      | None => []
      end
    end
  end.

Definition regex_matchAll (r : regex) (s : jsstring) : list RegExpMatch :=
  matchAll_from (length s + 1) r (m_start s).

(** *** Pattern sources

    Recursive-descent reading of a pattern source, following the grammar
    Disjunction / Alternative / Term / Atom of the language definition with
    its web-compatibility extensions (a brace that opens no quantifier and a
    closing bracket are literal).  [None] is the [SyntaxError] of the RegExp
    constructor.  Control escapes [\c], named references [\k], decimal
    back-references and look-behind lie outside the fragment and are also
    answered with [None]; no statement below evaluates the parser on such a
    source. *)

Fixpoint parse_digits (acc : option nat) (s : list N)
  : option nat * list N :=
  match s with
  | c :: s' =>
    if isDigit c then
      parse_digits
        (Some (match acc with Some a => a | None => O end * 10
               + N.to_nat (c - 48))%nat) s'
    else (acc, s)
  | [] => (acc, s)
  end.

Inductive quantifier_result : Type :=
| QNone
| QError
| QSome (min : nat) (max : option nat) (greedy : bool) (rest : list N).

Definition lazy_suffix (min : nat) (max : option nat) (s : list N)
  : quantifier_result :=
  match s with
  | 63%N :: s' => QSome min max false s'
  | _ => QSome min max true s
  end.

(** [{n}], [{n,}], [{n,m}] after the opening brace. *)
Definition parse_braces (s : list N) : quantifier_result :=
  match parse_digits None s with
  | (Some lo, 125%N :: s1) => lazy_suffix lo (Some lo) s1
  | (Some lo, 44%N :: s1) =>
    match parse_digits None s1 with
    | (None, 125%N :: s2) => lazy_suffix lo None s2
    | (Some hi, 125%N :: s2) =>
      if (hi <? lo)%nat then QError else lazy_suffix lo (Some hi) s2
    | _ => QNone
    end
  | _ => QNone
  end.

Definition parse_quantifier (s : list N) : quantifier_result :=
  match s with
  | 42%N :: s' => lazy_suffix 0 None s'
  | 43%N :: s' => lazy_suffix 1 None s'
  | 63%N :: s' => lazy_suffix 0 (Some 1%nat) s'
  | 123%N :: s' => parse_braces s'
  | _ => QNone
  end.

Definition hexval (c : N) : option N :=
  if isDigit c then Some (c - 48)%N
  else if ((97 <=? c) && (c <=? 102))%N then Some (c - 87)%N
  else if ((65 <=? c) && (c <=? 70))%N then Some (c - 55)%N
  else None.

(** CharacterEscape after the backslash: the code unit denoted. *)
Definition parse_char_escape (c : N) (s : list N) : option (N * list N) :=
  if (c =? 116)%N then Some (9%N, s)
  else if (c =? 110)%N then Some (10%N, s)
  else if (c =? 118)%N then Some (11%N, s)
  else if (c =? 102)%N then Some (12%N, s)
  else if (c =? 114)%N then Some (13%N, s)
  else if (c =? 48)%N then
    match s with
    | d :: _ => if isDigit d then None else Some (0%N, s)
    | [] => Some (0%N, s)
    end
  else if isDigit c then None
  else if ((c =? 99) || (c =? 107))%N then None
  else if (c =? 120)%N then
    match s with
    | h1 :: h2 :: s' =>
      match hexval h1, hexval h2 with
      | Some a, Some b => Some ((a * 16 + b)%N, s')
      | _, _ => Some (c, s)
      end
    | _ => Some (c, s)
    end
  else if (c =? 117)%N then
    match s with
    | h1 :: h2 :: h3 :: h4 :: s' =>
      match hexval h1, hexval h2, hexval h3, hexval h4 with
      | Some a, Some b, Some c', Some d =>
        Some ((a * 4096 + b * 256 + c' * 16 + d)%N, s')
      | _, _, _, _ => Some (c, s)
      end
    | _ => Some (c, s)
    end
  else Some (c, s).

Definition class_escape (c : N) : option class_item :=
  if (c =? 100)%N then Some (CDigit false)
  else if (c =? 68)%N then Some (CDigit true)
  else if (c =? 115)%N then Some (CSpace false)
  else if (c =? 83)%N then Some (CSpace true)
  else if (c =? 119)%N then Some (CWord false)
  else if (c =? 87)%N then Some (CWord true)
  else None.

(** ClassAtom: a class escape, or one code unit. *)
Definition parse_class_atom (s : list N) : option (class_item * list N) :=
  match s with
  | 92%N :: c :: s' =>
    match class_escape c with
    | Some it => Some (it, s')
    | None =>
      if (c =? 98)%N then Some (CChar 8, s')
      else match parse_char_escape c s' with
           | Some (v, s'') => Some (CChar v, s'')
           | None => None
           end
    end
  | 92%N :: [] => None
  | c :: s' => Some (CChar c, s')
  | [] => None
  end.

(** ClassRanges up to the closing bracket. *)
Fixpoint parse_class_items (fuel : nat) (s : list N)
  : option (list class_item * list N) :=
  match fuel with
  | O => None
  | S fuel' =>
    match s with
    | [] => None
    | 93%N :: s' => Some ([], s')
    | _ =>
      match parse_class_atom s with
      | None => None
      | Some (a, s1) =>
        match s1 with
        | 45%N :: 93%N :: s2 => Some ([a; CChar 45], s2)
        | 45%N :: s2 =>
          match parse_class_atom s2 with
          | None => None
          | Some (b, s3) =>
            match a, b with
            | CChar lo, CChar hi =>
              if (hi <? lo)%N then None
              else
                match parse_class_items fuel' s3 with
                | Some (its, s4) => Some (CRange lo hi :: its, s4)
                | None => None
                end
            | _, _ =>
              match parse_class_items fuel' s3 with
              | Some (its, s4) => Some (a :: CChar 45 :: b :: its, s4)
              | None => None
              end
            end
          end
        | _ =>
          match parse_class_items fuel' s1 with
          | Some (its, s4) => Some (a :: its, s4)
          | None => None
          end
        end
      end
    end
  end.

Definition parse_class (s : list N) : option (regex * list N) :=
  match s with
  | 94%N :: s' =>
    match parse_class_items (length s') s' with
    | Some (its, r) => Some (RClass true its, r)
    | None => None
    end
  | _ =>
    match parse_class_items (length s) s with
    | Some (its, r) => Some (RClass false its, r)
    | None => None
    end
  end.

Definition mk_seq (r1 r2 : regex) : regex :=
  match r2 with
  | REmpty => r1
  | _ => RSeq r1 r2
  end.

(** An atom followed by its optional quantifier. *)
Definition quantified (a : regex) (s : list N) : option (regex * list N) :=
  match parse_quantifier s with
  | QNone => Some (a, s)
  | QError => None
  | QSome min max greedy s' => Some (RRepeat min max greedy a, s')
  end.

Definition expect_close (p : option (regex * list N))
  : option (regex * list N) :=
  match p with
  | Some (r, 41%N :: s') => Some (r, s')
  | _ => None
  end.

Fixpoint parse_disjunction (fuel : nat) (s : list N)
  : option (regex * list N) :=
  match fuel with
  | O => None
  | S fuel' =>
    match parse_alternative fuel' s with
    | Some (r1, 124%N :: s1) =>
      match parse_disjunction fuel' s1 with
      | Some (r2, s2) => Some (RAlt r1 r2, s2)
      | None => None
      end
    | other => other
    end
  end

with parse_alternative (fuel : nat) (s : list N)
  : option (regex * list N) :=
  match fuel with
  | O => None
  | S fuel' =>
    match s with
    | [] => Some (REmpty, s)
    | 124%N :: _ => Some (REmpty, s)
    | 41%N :: _ => Some (REmpty, s)
    | _ =>
      match parse_term fuel' s with
      | Some (t, s1) =>
        match parse_alternative fuel' s1 with
        | Some (r, s2) => Some (mk_seq t r, s2)
        | None => None
        end
      | None => None
      end
    end
  end

with parse_term (fuel : nat) (s : list N) : option (regex * list N) :=
  match fuel with
  | O => None
  | S fuel' =>
    match s with
    | [] => None
    | 94%N :: s' => Some (RBol, s')
    | 36%N :: s' => Some (REol, s')
    | 46%N :: s' => quantified RAny s'
    | 42%N :: _ => None
    | 43%N :: _ => None
    | 63%N :: _ => None
    | 123%N :: s' =>
      match parse_braces s' with
      | QNone => quantified (RChar 123) s'
      | _ => None
      end
    | 40%N :: 63%N :: 58%N :: s' =>
      match expect_close (parse_disjunction fuel' s') with
      | Some (r, s1) => quantified (RGroup r) s1
      | None => None
      end
    | 40%N :: 63%N :: 61%N :: s' =>
      match expect_close (parse_disjunction fuel' s') with
      | Some (r, s1) => quantified (RLook false r) s1
      | None => None
      end
    | 40%N :: 63%N :: 33%N :: s' =>
      match expect_close (parse_disjunction fuel' s') with
      | Some (r, s1) => quantified (RLook true r) s1
      | None => None
      end
    | 40%N :: 63%N :: _ => None
    | 40%N :: s' =>
      match expect_close (parse_disjunction fuel' s') with
      | Some (r, s1) => quantified (RGroup r) s1
      | None => None
      end
    | 91%N :: s' =>
      match parse_class s' with
      | Some (r, s1) => quantified r s1
      | None => None
      end
    | 92%N :: [] => None
    | 92%N :: c :: s' =>
      if (c =? 98)%N then Some (RWordB false, s')
      else if (c =? 66)%N then Some (RWordB true, s')
      else
        match class_escape c with
        | Some it => quantified (RClass false [it]) s'
        | None =>
          match parse_char_escape c s' with
          | Some (v, s1) => quantified (RChar v) s1
          | None => None
          end
        end
    | c :: s' => quantified (RChar c) s'
    end
  end.

(** [new RegExp(source, 'g')] *)
Definition regex_parse (source : jsstring) : option regex :=
  match parse_disjunction (3 * length source + 4) source with
  | Some (r, []) => Some r
  | _ => None
  end.

(** The concrete runtime pieces handed to the detector for evaluation:
    [ascii_toLowerCase] is [toLowerCase] on Basic Latin text. *)
Definition ascii_toLowerCase (s : jsstring) : jsstring :=
  map (fun c => if ((65 <=? c) && (c <=? 90))%N then (c + 32)%N else c) s.

(* ================================================================== *)
(** ** Data model ([src/types/index.ts], [DetectionContext]) *)

Inductive MaskingType : Type := MOSAIC | BLUR | BLACKOUT | PIXELATE.

Record PIIPattern : Type := mkPIIPattern {
  name : jsstring;
  pattern : jsstring;
  patternMaskingType : MaskingType;
  enabled : bool
}.

Inductive Sensitivity : Type := low | medium | high.

(** [maskingTypes] is a [Record<string, MaskingType>]: its own properties
    in insertion order. *)
Record ExtensionSettings : Type := mkSettings {
  settingsEnabled : bool;
  maskingTypes : list (jsstring * MaskingType);
  patterns : list PIIPattern;
  realTimeProcessing : bool;
  sensitivity : Sensitivity
}.

(** The form an element sits in: the texts of its labels and, for each
    input or textarea, the [name] and [placeholder] attributes (the empty
    string for a missing one). *)
Record HTMLFormElement : Type := mkForm {
  formLabels : list jsstring;
  formInputs : list (jsstring * jsstring)
}.

(** What the detector reads of an element.  [elementId] stands for the
    identity of the object ([===] on elements compares it);
    [parentChildren] holds the [textContent] of each child of the parent
    element, the element itself at [indexInParent]. *)
Record HTMLElement : Type := mkElement {
  elementId : nat;
  tagName : jsstring;
  closestForm : option HTMLFormElement;
  parentChildren : option (list jsstring);
  indexInParent : nat
}.

(** A [Text] node. *)
Record Text : Type := mkText {
  parentElement : option HTMLElement;
  nodeTextContent : jsstring
}.

Record DetectionContext : Type := mkContext {
  ctxElement : HTMLElement;
  textContent : jsstring;
  elementType : jsstring;
  formContext : jsstring;
  nearbyText : jsstring
}.

Record PIIMatch : Type := mkPIIMatch {
  text : jsstring;
  startIndex : Z;
  endIndex : Z;
  type : jsstring;
  element : HTMLElement;
  maskingType : MaskingType
}.

Definition same_element (a b : HTMLElement) : bool :=
  Nat.eqb (elementId a) (elementId b).

(** The empty string is the only falsy string. *)
Definition truthy (s : jsstring) : bool :=
  match s with [] => false | _ :: _ => true end.

(** [a || b] on strings *)
Definition or_else (a b : jsstring) : jsstring :=
  if truthy a then a else b.

(** [parts.join(sep)] *)
Fixpoint join (sep : jsstring) (parts : list jsstring) : jsstring :=
  match parts with
  | [] => []
  | [p] => p
  | p :: ps => p ++ sep ++ join sep ps
  end.

(** [arr.slice(from, to)] for in-range bounds *)
Definition slice {A : Type} (l : list A) (from to : nat) : list A :=
  firstn (to - from) (skipn from l).

(** [obj[key]] on a plain object, given by its own entries: the value of
    the entry, [None] for [undefined].  This is the read for every key but
    those a plain object inherits from [Object.prototype]; for one of
    those, without an entry of the object's own, the read finds the
    inherited function or object, which is no value of [V]. *)
Fixpoint lookup {V : Type} (key : jsstring) (obj : list (jsstring * V))
  : option V :=
  match obj with
  | [] => None
  | (k, v) :: obj' => if jseqb k key then Some v else lookup key obj'
  end.

(** The keys a plain object inherits from [Object.prototype]. *)
Definition inheritedKeys : list jsstring :=
  map utf16 ["constructor"; "__defineGetter__"; "__defineSetter__";
             "hasOwnProperty"; "__lookupGetter__"; "__lookupSetter__";
             "isPrototypeOf"; "propertyIsEnumerable"; "toString";
             "valueOf"; "__proto__"; "toLocaleString"]%string.

Definition inheritedKey (key : jsstring) : bool :=
  existsb (jseqb key) inheritedKeys.

(** [arr.indexOf(key)] on an array of strings: [-1] when absent. *)
Fixpoint indexOf_from (i : Z) (arr : list jsstring) (key : jsstring) : Z :=
  match arr with
  | [] => -1
  | x :: arr' => if jseqb x key then i else indexOf_from (i + 1) arr' key
  end.

Definition indexOf (arr : list jsstring) (key : jsstring) : Z :=
  indexOf_from 0 arr key.

(** [arr.findIndex(p)] as an option; [find] and the [indexOf] of the object
    found agree with it, an object occurring once in the array. *)
Fixpoint findIndex {A : Type} (p : A -> bool) (l : list A) : option nat :=
  match l with
  | [] => None
  | x :: l' =>
    if p x then Some O else option_map S (findIndex p l')
  end.

(** [arr[i] = v] for [i] in range *)
Fixpoint assign {A : Type} (l : list A) (i : nat) (v : A) : list A :=
  match l, i with
  | [], _ => []
  | _ :: l', O => v :: l'
  | x :: l', S i' => x :: assign l' i' v
  end.

(** [arr.sort(cmp)]: stable insertion sort, each element moved left past
    the elements that compare greater.  This is the order the language
    definition prescribes when [cmp] is a consistent comparator.  For any
    other comparator the order is left to the implementation, and the
    host's may differ from this one on arrays whose neighbours are not in
    order; what is proved of such arrays below is only that the sort
    permutes them. *)
Fixpoint sort_insert {A : Type} (cmp : A -> A -> Z) (x : A)
         (sorted_rev : list A) : list A :=
  match sorted_rev with
  | [] => [x]
  | y :: ys =>
    if 0 <? cmp y x then y :: sort_insert cmp x ys
    else x :: y :: ys
  end.

Definition Array_sort {A : Type} (cmp : A -> A -> Z) (l : list A) : list A :=
  rev (fold_left (fun acc x => sort_insert cmp x acc) l []).

(** No element compares greater than its right neighbour. *)
Fixpoint ascendingRun {A : Type} (cmp : A -> A -> Z) (l : list A) : Prop :=
  match l with
  | x :: (y :: _) as l' => cmp x y <= 0 /\ ascendingRun cmp l'
  | _ => True
  end.

(** *** Exceptions *)

Inductive exn : Type :=
| SyntaxError (source : jsstring).

Inductive result (A : Type) : Type :=
| Ok (a : A)
| Throw (e : exn).

Arguments Ok {A} a.
Arguments Throw {A} e.

Definition bind {A B : Type} (r : result A) (f : A -> result B)
  : result B :=
  match r with
  | Ok a => f a
  | Throw e => Throw e
  end.

Notation "x <- c ;; k" := (bind c (fun x => k))
  (at level 61, c at next level, right associativity).

(** [arr.forEach(body)] where [body] updates the enclosing array [acc] and
    may throw: the exception leaves the loop at once. *)
Fixpoint forEach {A S : Type} (body : S -> A -> result S) (arr : list A)
         (acc : S) : result S :=
  match arr with
  | [] => Ok acc
  | x :: arr' => acc' <- body acc x ;; forEach body arr' acc'
  end.

(* ================================================================== *)
(** ** PIIPatterns ([src/utils/pii-patterns.ts]) *)

Module PIIPatterns.

Definition JAPANESE_NAME : PIIPattern :=
  mkPIIPattern (utf16 "japaneseName")
    (utf16 "[一-龯々〇]{1,4}\s*[一-龯々〇]{1,4}(?=[さん|様|氏|君|ちゃん|くん]|$|\s)")
    BLUR true.

Definition EMAIL : PIIPattern :=
  mkPIIPattern (utf16 "email")
    (utf16 "[a-zA-Z0-9._%+-]+@[a-zA-Z0-9.-]+\.[a-zA-Z]{2,}")
    BLUR true.

Definition PHONE_JP : PIIPattern :=
  mkPIIPattern (utf16 "phone")
    (utf16 "(?:(?:\+81|0)\s?(?:\d{1,4}[-\s]?)?\d{1,4}[-\s]?\d{4}|\d{3,4}[-\s]?\d{1,4}[-\s]?\d{4})")
    MOSAIC true.

Definition CREDIT_CARD : PIIPattern :=
  mkPIIPattern (utf16 "creditCard")
    (utf16 "\b(?:4\d{3}|5[1-5]\d{2}|3[47]\d{2}|6011)[\s-]?\d{4}[\s-]?\d{4}[\s-]?\d{4}\b")
    PIXELATE true.

Definition POSTAL_CODE_JP : PIIPattern :=
  mkPIIPattern (utf16 "postalCode")
    (utf16 "\b\d{3}[-\s]?\d{4}\b")
    BLACKOUT true.

Definition IP_ADDRESS : PIIPattern :=
  mkPIIPattern (utf16 "ipAddress")
    (utf16 "\b(?:(?:25[0-5]|2[0-4][0-9]|[01]?[0-9][0-9]?)\.){3}(?:25[0-5]|2[0-4][0-9]|[01]?[0-9][0-9]?)\b")
    BLUR false.

Definition ADDRESS_JP : PIIPattern :=
  mkPIIPattern (utf16 "address")
    (utf16 "[都道府県].*?[市区町村郡][一-龯0-9一二三四五六七八九十百千]+(?:丁目|番地|号)?")
    BLACKOUT true.

Definition MY_NUMBER : PIIPattern :=
  mkPIIPattern (utf16 "myNumber")
    (utf16 "\b\d{4}[\s-]?\d{4}[\s-]?\d{4}\b")
    BLACKOUT true.

Definition BANK_ACCOUNT : PIIPattern :=
  mkPIIPattern (utf16 "bankAccount")
    (utf16 "\b\d{7}\b")
    PIXELATE false.

Definition BIRTH_DATE : PIIPattern :=
  mkPIIPattern (utf16 "birthDate")
    (utf16 "(?:19|20)\d{2}[年/-](?:0?[1-9]|1[0-2])[月/-](?:0?[1-9]|[12]\d|3[01])[日]?")
    BLUR true.

Definition getAllPatterns : list PIIPattern :=
  [EMAIL; PHONE_JP; CREDIT_CARD; POSTAL_CODE_JP; JAPANESE_NAME; ADDRESS_JP;
   MY_NUMBER; BIRTH_DATE; IP_ADDRESS; BANK_ACCOUNT].

Definition getEnabledPatterns : list PIIPattern :=
  filter enabled getAllPatterns.

Definition getPatternByName (n : jsstring) : option PIIPattern :=
  find (fun p => jseqb (name p) n) getAllPatterns.

Definition formKeywords : list jsstring :=
  map utf16 ["名前"; "name"; "email"; "phone"; "電話"; "住所"; "address";
             "birthday"]%string.

Definition piiKeywords : list jsstring :=
  map utf16 ["個人情報"; "氏名"; "連絡先"; "生年月日"; "プロフィール"]%string.

(** [match.replace(/[-\s]/g, '')] *)
Definition cleaned (s : jsstring) : jsstring :=
  filter (fun c => negb ((c =? 45)%N || isWhiteSpace c)) s.

Definition filterFalsePositives (matches : list jsstring) (ty : jsstring)
  : list jsstring :=
  if jseqb ty (utf16 "phone") then
    filter (fun m =>
              let cleaned := cleaned m in
              (10 <=? jslength cleaned)
              && negb (startsWith cleaned (utf16 "000")))
           matches
  else if jseqb ty (utf16 "creditCard") then
    filter (fun m =>
              let cleaned := cleaned m in
              (jslength cleaned =? 16)
              && negb (startsWith cleaned (utf16 "0000")))
           matches
  else if jseqb ty (utf16 "japaneseName") then
    filter (fun m => (2 <=? jslength m) && (jslength m <=? 8)) matches
  else matches.

Section Runtime.

Variable toLowerCase : jsstring -> jsstring.

Definition isLikelyPII (text context : jsstring) : bool :=
  let lowerContext := toLowerCase context in
  let lowerText := toLowerCase text in
  let hasFormContext :=
    existsb (fun keyword => includes lowerContext keyword) formKeywords in
  let hasPIIContext :=
    existsb (fun keyword => includes lowerContext keyword) piiKeywords in
  hasFormContext || hasPIIContext.

End Runtime.

End PIIPatterns.

(* ================================================================== *)
(** ** PIIDetector ([src/utils/pii-detector.ts]) *)

(** The object state: the two private fields. *)
Record PIIDetector : Type := mkDetector {
  settings : ExtensionSettings;
  this_patterns : list PIIPattern
}.

(** [this.settings.patterns] when it has an element, else the defaults *)
Definition initializePatterns (s : ExtensionSettings) : list PIIPattern :=
  let defaultPatterns := PIIPatterns.getAllPatterns in
  match patterns s with
  | _ :: _ => patterns s
  | [] => defaultPatterns
  end.

Definition constructor (s : ExtensionSettings) : PIIDetector :=
  mkDetector s (initializePatterns s).

Definition updateSettings (this : PIIDetector) (s : ExtensionSettings)
  : PIIDetector :=
  mkDetector s (initializePatterns s).

Definition isValidEmail (email : jsstring) : bool :=
  match split 64 email with
  | [local; domain] =>
    (0 <? jslength local) && (0 <? jslength domain)
    && includes domain (utf16 ".")
  | _ => false
  end.

Definition isValidPhone (phone : jsstring) : bool :=
  let cleaned := PIIPatterns.cleaned phone in
  if (jslength cleaned <? 10) || (11 <? jslength cleaned) then false
  else if startsWith cleaned (utf16 "0000")
          || jseqb cleaned (utf16 "0000000000") then false
  else true.

(** [parseInt(cardNumber[i])] on one code unit; [None] is [NaN]. *)
Definition parseInt1 (c : N) : option Z :=
  if isDigit c then Some (Z.of_N c - 48) else None.

(** The loop of [luhnCheck], [n] iterations left: [i = n - 1] down to 0. *)
Fixpoint luhnLoop (cardNumber : jsstring) (n : nat) (sum : option Z)
         (isEven : bool) : option Z :=
  match n with
  | O => sum
  | S i =>
    let digit := option_map
                   (fun d => if isEven
                             then (if 9 <? d * 2 then d * 2 - 9 else d * 2)
                             else d)
                   (match nth_error cardNumber i with
                    | Some c => parseInt1 c
                    | None => None
                    end) in
    let sum' := match sum, digit with
                | Some s, Some d => Some (s + d)
                | _, _ => None
                end in
    luhnLoop cardNumber i sum' (negb isEven)
  end.

Definition luhnCheck (cardNumber : jsstring) : bool :=
  match luhnLoop cardNumber (length cardNumber) (Some 0) false with
  | Some sum => sum mod 10 =? 0
  | None => false
  end.

(** [/^(\d)\1+$/.test(s)]: a digit, then the same digit once or more. *)
Definition repeatedDigit (s : jsstring) : bool :=
  match s with
  | d :: (_ :: _) as rest => isDigit d && forallb (N.eqb d) rest
  | _ => false
  end.

Definition isValidCreditCard (cardNumber : jsstring) : bool :=
  let cleaned := PIIPatterns.cleaned cardNumber in
  if (jslength cleaned <? 13) || (19 <? jslength cleaned) then false
  else if repeatedDigit cleaned then false
  else luhnCheck cleaned.

(** The class of [namePattern]:
    [一-龯々〇ひらがなカタカナぁ-ゖァ-ヺ]. *)
Definition nameClass (c : N) : bool :=
  ((19968 <=? c) && (c <=? 40879) || (c =? 12293) || (c =? 12295)
   || existsb (N.eqb c) (utf16 "ひらがなカタカナ")
   || (12353 <=? c) && (c <=? 12438) || (12449 <=? c) && (c <=? 12538))%N.

Definition isValidJapaneseName (n : jsstring) : bool :=
  if (jslength n <? 2) || (8 <? jslength n) then false
  else truthy n && forallb nameClass n.

Definition isValidMatch (text type : jsstring) : bool :=
  if jseqb type (utf16 "email") then isValidEmail text
  else if jseqb type (utf16 "phone") then isValidPhone text
  else if jseqb type (utf16 "creditCard") then isValidCreditCard text
  else if jseqb type (utf16 "japaneseName") then isValidJapaneseName text
  else true.

Definition isOverlapping (match1 match2 : PIIMatch) : bool :=
  negb ((endIndex match1 <=? startIndex match2)
        || (endIndex match2 <=? startIndex match1)).

Definition priorityOrder : list jsstring :=
  map utf16 ["creditCard"; "myNumber"; "email"; "phone"; "address";
             "japaneseName"]%string.

Definition shouldReplaceMatch (existing newMatch : PIIMatch) : bool :=
  if jslength (text existing) <? jslength (text newMatch) then true
  else
    let existingPriority := indexOf priorityOrder (type existing) in
    let newPriority := indexOf priorityOrder (type newMatch) in
    newPriority <? existingPriority.

(** One round of the [forEach] in [removeDuplicateMatches]. *)
Definition removeDuplicateStep (result : list PIIMatch) (m : PIIMatch)
  : list PIIMatch :=
  let overlaps := fun existing =>
    same_element (element existing) (element m)
    && isOverlapping existing m in
  match find overlaps result with
  | None => result ++ [m]
  | Some overlapping =>
    if shouldReplaceMatch overlapping m then
      match findIndex overlaps result with
      | Some index => assign result index m
      | None => result
      end
    else result
  end.

Definition removeDuplicateMatches (matches : list PIIMatch)
  : list PIIMatch :=
  fold_left removeDuplicateStep matches [].

(** The comparator handed to [sort]. *)
Definition compareMatches (a b : PIIMatch) : Z :=
  if negb (same_element (element a) (element b)) then 0
  else startIndex a - startIndex b.

Definition postProcessMatches (matches : list PIIMatch) : list PIIMatch :=
  let filtered := removeDuplicateMatches matches in
  Array_sort compareMatches filtered.

Definition getFormContext (toLowerCase : jsstring -> jsstring)
           (element : HTMLElement) : jsstring :=
  match closestForm element with
  | None => []
  | Some form =>
    let labels := formLabels form in
    let inputs := map (fun i => join (utf16 " ") [fst i; snd i])
                      (formInputs form) in
    toLowerCase (join (utf16 " ") (labels ++ inputs))
  end.

Definition getNearbyText (toLowerCase : jsstring -> jsstring)
           (element : HTMLElement) : jsstring :=
  match parentChildren element with
  | None => []
  | Some siblings =>
    let currentIndex := indexInParent element in
    let nearbyElements :=
      slice siblings (Nat.max 0 (currentIndex - 2))
            (Nat.min (length siblings) (currentIndex + 3)) in
    toLowerCase (join (utf16 " ") nearbyElements)
  end.

Section Detector.

(** The host runtime. *)
Variable toLowerCase : jsstring -> jsstring.
Variable RegExp : Type.
(** [new RegExp(source, 'g')]; [None] when it throws. *)
Variable RegExp_new : jsstring -> option RegExp.
(** [Array.from(text.matchAll(re))] *)
Variable matchAll : RegExp -> jsstring -> list RegExpMatch.

Variable this : PIIDetector.

Definition buildDetectionContext (element : HTMLElement) (text : jsstring)
  : DetectionContext :=
  mkContext element text (toLowerCase (tagName element))
            (getFormContext toLowerCase element)
            (getNearbyText toLowerCase element).

Definition highConfidenceElements : list jsstring :=
  map utf16 ["input"; "textarea"; "span"; "div"]%string.

Definition isMediumConfidenceMatch (text : jsstring) (pattern : PIIPattern)
           (context : DetectionContext) : bool :=
  if truthy (formContext context)
     && PIIPatterns.isLikelyPII toLowerCase text (formContext context)
  then true
  else if existsb (jseqb (elementType context)) highConfidenceElements
  then true
  else false.

Definition shouldIncludeMatch (matchText : jsstring) (pattern : PIIPattern)
           (context : DetectionContext) : bool :=
  let sensitivity := sensitivity (settings this) in
  if negb (isValidMatch matchText (name pattern)) then false
  else
    match sensitivity with
    | high => true
    | low =>
      PIIPatterns.isLikelyPII toLowerCase matchText
        (or_else (formContext context) (or_else (nearbyText context) []))
    | medium => isMediumConfidenceMatch matchText pattern context
    end.

Definition getMaskingType (type : jsstring) : MaskingType :=
  match lookup type (maskingTypes (settings this)) with
  | Some t => t
  | None => BLUR
  end.

(** The body of [regexMatches.forEach]; [match.index] is never undefined
    for an occurrence produced by [matchAll]. *)
Definition pushMatch (pattern : PIIPattern) (context : DetectionContext)
           (matches : list PIIMatch) (m : RegExpMatch) : list PIIMatch :=
  let matchText := rm_text m in
  if shouldIncludeMatch matchText pattern context then
    matches ++ [mkPIIMatch matchText (rm_index m)
                           (rm_index m + jslength matchText)
                           (name pattern) (ctxElement context)
                           (getMaskingType (name pattern))]
  else matches.

(** The body of [this.patterns.forEach]. *)
Definition detectPattern (context : DetectionContext)
           (matches : list PIIMatch) (pat : PIIPattern)
  : result (list PIIMatch) :=
  if negb (enabled pat) then Ok matches
  else
    match RegExp_new (pattern pat) with
    | None => Throw (SyntaxError (pattern pat))
    | Some globalPattern =>
      let regexMatches := matchAll globalPattern (textContent context) in
      Ok (fold_left (pushMatch pat context) regexMatches matches)
    end.

Definition detectInText (context : DetectionContext)
  : result (list PIIMatch) :=
  forEach (detectPattern context) (this_patterns this) [].

(** The body of [textNodes.forEach]. *)
Definition detectNode (matches : list PIIMatch) (textNode : Text)
  : result (list PIIMatch) :=
  match parentElement textNode with
  | None => Ok matches
  | Some element =>
    let text := nodeTextContent textNode in
    if jslength (trim text) =? 0 then Ok matches
    else
      let context := buildDetectionContext element text in
      nodeMatches <- detectInText context ;;
      Ok (matches ++ nodeMatches)
  end.

Definition detectPII (textNodes : list Text) : result (list PIIMatch) :=
  matches <- forEach detectNode textNodes [] ;;
  Ok (postProcessMatches matches).

End Detector.

Arguments detectPattern toLowerCase {RegExp} RegExp_new matchAll this
  context matches pat.
Arguments detectInText toLowerCase {RegExp} RegExp_new matchAll this context.
Arguments detectNode toLowerCase {RegExp} RegExp_new matchAll this
  matches textNode.
Arguments detectPII toLowerCase {RegExp} RegExp_new matchAll this textNodes.

(** *** The methods as they act on the object

    Above, a method takes the object as an argument it reads.  Here the
    methods are written as they run: every one receives the two fields as
    the call before left them, reads a field where the source says
    [this.settings] or [this.patterns], assigns one where the source
    assigns, and hands the fields on to what runs next.  An exception
    leaves the fields as they stood when it was thrown.  The arrays
    [matches] and [result] and the [RegExp] objects are created inside the
    call that uses them and stored in no field, so they are values here. *)

Definition method (A : Type) : Type :=
  PIIDetector -> PIIDetector * result A.

Module Method.

Definition ret {A : Type} (a : A) : method A :=
  fun this => (this, Ok a).

Definition throw {A : Type} (e : exn) : method A :=
  fun this => (this, Throw e).

Definition bind {A B : Type} (m : method A) (f : A -> method B)
  : method B :=
  fun this =>
    match m this with
    | (this', Ok a) => f a this'
    | (this', Throw e) => (this', Throw e)
    end.

Notation "x <~ c ;; k" := (bind c (fun x => k))
  (at level 61, c at next level, right associativity).

(** [this.settings] and [this.patterns], read *)
Definition get_settings : method ExtensionSettings :=
  fun this => (this, Ok (settings this)).

Definition get_patterns : method (list PIIPattern) :=
  fun this => (this, Ok (this_patterns this)).

(** [this.settings = s] and [this.patterns = ps] *)
Definition set_settings (s : ExtensionSettings) : method unit :=
  fun this => (mkDetector s (this_patterns this), Ok tt).

Definition set_patterns (ps : list PIIPattern) : method unit :=
  fun this => (mkDetector (settings this) ps, Ok tt).

(** [arr.forEach(body)], the body running on the object *)
Fixpoint forEach {A S : Type} (body : S -> A -> method S) (arr : list A)
         (acc : S) : method S :=
  match arr with
  | [] => ret acc
  | x :: arr' => acc' <~ body acc x ;; forEach body arr' acc'
  end.

Definition initializePatterns : method (list PIIPattern) :=
  let defaultPatterns := PIIPatterns.getAllPatterns in
  s <~ get_settings ;;
  match patterns s with
  | _ :: _ => s' <~ get_settings ;; ret (patterns s')
  | [] => ret defaultPatterns
  end.

Definition updateSettings (s : ExtensionSettings) : method unit :=
  _ <~ set_settings s ;;
  ps <~ initializePatterns ;;
  set_patterns ps.

Section Runtime.

Variable toLowerCase : jsstring -> jsstring.
Variable RegExp : Type.
Variable RegExp_new : jsstring -> option RegExp.
Variable matchAll : RegExp -> jsstring -> list RegExpMatch.

Definition shouldIncludeMatch (matchText : jsstring) (pattern : PIIPattern)
           (context : DetectionContext) : method bool :=
  s <~ get_settings ;;
  let sensitivity := sensitivity s in
  if negb (isValidMatch matchText (name pattern)) then ret false
  else
    match sensitivity with
    | high => ret true
    | low =>
      ret (PIIPatterns.isLikelyPII toLowerCase matchText
             (or_else (formContext context)
                      (or_else (nearbyText context) [])))
    | medium =>
      ret (isMediumConfidenceMatch toLowerCase matchText pattern context)
    end.

Definition getMaskingType (type : jsstring) : method MaskingType :=
  s <~ get_settings ;;
  match lookup type (maskingTypes s) with
  | Some t => ret t
  | None => ret BLUR
  end.

(** The body of [regexMatches.forEach]. *)
Definition pushMatch (pattern : PIIPattern) (context : DetectionContext)
           (matches : list PIIMatch) (m : RegExpMatch)
  : method (list PIIMatch) :=
  let matchText := rm_text m in
  included <~ shouldIncludeMatch matchText pattern context ;;
  if included then
    mt <~ getMaskingType (name pattern) ;;
    ret (matches ++ [mkPIIMatch matchText (rm_index m)
                                (rm_index m + jslength matchText)
                                (name pattern) (ctxElement context) mt])
  else ret matches.

(** The body of [this.patterns.forEach]. *)
Definition detectPattern (context : DetectionContext)
           (matches : list PIIMatch) (pat : PIIPattern)
  : method (list PIIMatch) :=
  if negb (enabled pat) then ret matches
  else
    match RegExp_new (pattern pat) with
    | None => throw (SyntaxError (pattern pat))
    | Some globalPattern =>
      let regexMatches := matchAll globalPattern (textContent context) in
      forEach (pushMatch pat context) regexMatches matches
    end.

Definition detectInText (context : DetectionContext)
  : method (list PIIMatch) :=
  ps <~ get_patterns ;;
  forEach (detectPattern context) ps [].

(** The body of [textNodes.forEach]. *)
Definition detectNode (matches : list PIIMatch) (textNode : Text)
  : method (list PIIMatch) :=
  match parentElement textNode with
  | None => ret matches
  | Some element =>
    let text := nodeTextContent textNode in
    if jslength (trim text) =? 0 then ret matches
    else
      let context := buildDetectionContext toLowerCase element text in
      nodeMatches <~ detectInText context ;;
      ret (matches ++ nodeMatches)
  end.

Definition detectPII (textNodes : list Text) : method (list PIIMatch) :=
  matches <~ forEach detectNode textNodes [] ;;
  ret (postProcessMatches matches).

End Runtime.

Arguments detectPattern toLowerCase {RegExp} RegExp_new matchAll
  context matches pat.
Arguments detectInText toLowerCase {RegExp} RegExp_new matchAll context.
Arguments detectNode toLowerCase {RegExp} RegExp_new matchAll
  matches textNode.
Arguments detectPII toLowerCase {RegExp} RegExp_new matchAll textNodes.

End Method.

(** *** The detector as an object over time

    A caller holds one detector and invokes its two public methods. *)

Inductive call : Type :=
| CallDetectPII (textNodes : list Text)
| CallUpdateSettings (s : ExtensionSettings).

Definition isDetectCall (c : call) : bool :=
  match c with
  | CallDetectPII _ => true
  | CallUpdateSettings _ => false
  end.

Section Calls.

Variable toLowerCase : jsstring -> jsstring.
Variable RegExp : Type.
Variable RegExp_new : jsstring -> option RegExp.
Variable matchAll : RegExp -> jsstring -> list RegExpMatch.

(** The object as the call leaves it, and what [detectPII] returned or
    threw. *)
Definition invoke (this : PIIDetector) (c : call)
  : PIIDetector * option (result (list PIIMatch)) :=
  match c with
  | CallDetectPII textNodes =>
    let (this', r) :=
      Method.detectPII toLowerCase RegExp_new matchAll textNodes this in
    (this', Some r)
  | CallUpdateSettings s =>
    let (this', _) := Method.updateSettings s this in
    (this', None)
  end.

Fixpoint invokeAll (this : PIIDetector) (calls : list call)
  : PIIDetector * list (option (result (list PIIMatch))) :=
  match calls with
  | [] => (this, [])
  | c :: calls' =>
    let (this', r) := invoke this c in
    let (this'', rs) := invokeAll this' calls' in
    (this'', r :: rs)
  end.

End Calls.

Arguments invoke toLowerCase {RegExp} RegExp_new matchAll this c.
Arguments invokeAll toLowerCase {RegExp} RegExp_new matchAll this calls.

(* ================================================================== *)
(** ** Properties named by the specification *)

(** A node the detector scans: it has a parent element and its text is not
    blank. *)
Definition scanned (textNode : Text) : bool :=
  match parentElement textNode with
  | None => false
  | Some _ => negb (jslength (trim (nodeTextContent textNode)) =? 0)
  end.

(** Structural validity of a reported match. *)
Definition structurallyValid (m : PIIMatch) : Prop :=
  isValidMatch (text m) (type m) = true.

(** An enabled pattern of the detector whose source does not compile. *)
Definition failsToCompile {RegExp : Type}
           (RegExp_new : jsstring -> option RegExp) (this : PIIDetector)
           (p : PIIPattern) : Prop :=
  In p (this_patterns this) /\ enabled p = true
  /\ RegExp_new (pattern p) = None.

(** Luhn checksum as the specification words it: from the rightmost digit,
    every second digit is doubled, 9 subtracted when the doubled digit
    exceeds 9; valid when the total is a multiple of 10. *)
Definition luhnTerm (doubled : bool) (d : Z) : Z :=
  if doubled then (if 9 <? 2 * d then 2 * d - 9 else 2 * d) else d.

Fixpoint luhnTotal (fromRight : list Z) (doubled : bool) : Z :=
  match fromRight with
  | [] => 0
  | d :: ds => luhnTerm doubled d + luhnTotal ds (negb doubled)
  end.

Definition digitValues (s : jsstring) : list Z :=
  map (fun c => Z.of_N c - 48) s.

Definition luhnValid (digits : list Z) : bool :=
  luhnTotal (rev digits) false mod 10 =? 0.

(** No two matches of one element with intersecting intervals. *)
Fixpoint nonOverlapping (ms : list PIIMatch) : bool :=
  match ms with
  | [] => true
  | m :: ms' =>
    forallb (fun m' => negb (same_element (element m) (element m')
                             && isOverlapping m m')) ms'
    && nonOverlapping ms'
  end.

(** Matches of one element stand next to each other. *)
Fixpoint groupedByElement (ms : list PIIMatch) : bool :=
  match ms with
  | [] => true
  | m :: ms' =>
    match ms' with
    | [] => true
    | m' :: _ =>
      (same_element (element m) (element m')
       || negb (existsb (fun x => same_element (element m) (element x)) ms'))
      && groupedByElement ms'
    end
  end.

(** Matches of one element appear in ascending [startIndex]. *)
Fixpoint ascendingWithinElement (ms : list PIIMatch) : bool :=
  match ms with
  | [] => true
  | m :: ms' =>
    forallb (fun m' => negb (same_element (element m) (element m'))
                       || (startIndex m <=? startIndex m')) ms'
    && ascendingWithinElement ms'
  end.

(** The keyword test of [isLikelyPII] on an already lowered context. *)
Definition hasContextKeyword (lowerContext : jsstring) : bool :=
  existsb (includes lowerContext)
          (PIIPatterns.formKeywords ++ PIIPatterns.piiKeywords).

(** Contextual corroboration as the specification words it for the Low
    policy: a keyword in the form-context string or, if that is absent, in
    the nearby-sibling-text string. *)
Definition contextualCorroboration (toLowerCase : jsstring -> jsstring)
           (context : DetectionContext) : bool :=
  hasContextKeyword
    (toLowerCase (or_else (formContext context) (nearbyText context))).

(** The Medium policy as the specification words it. *)
Definition mediumPolicyAsSpecified (toLowerCase : jsstring -> jsstring)
           (context : DetectionContext) : bool :=
  contextualCorroboration toLowerCase context
  || existsb (jseqb (elementType context)) highConfidenceElements.

(** The phone rule as the specification words it. *)
Definition phoneRuleAsSpecified (candidate : jsstring) : bool :=
  let digits := PIIPatterns.cleaned candidate in
  (10 <=? jslength digits) && (jslength digits <=? 11)
  && negb (startsWith digits (utf16 "0000")).

(** Code points of a string: a lead surrogate followed by a trail
    surrogate is one code point. *)
Fixpoint codePoints (s : jsstring) : list N :=
  match s with
  | [] => []
  | hi :: s' =>
    match s' with
    | lo :: s'' =>
      if ((55296 <=? hi) && (hi <=? 56319)
          && (56320 <=? lo) && (lo <=? 57343))%N
      then ((hi - 55296) * 1024 + (lo - 56320) + 65536)%N :: codePoints s''
      else hi :: codePoints s'
    | [] => [hi]
    end
  end.

(** CJK unified ideographs (with extensions A and B), hiragana,
    katakana. *)
Definition inNameRanges (cp : N) : bool :=
  ((19968 <=? cp) && (cp <=? 40959) || (13312 <=? cp) && (cp <=? 19903)
   || (131072 <=? cp) && (cp <=? 173791)
   || (12352 <=? cp) && (cp <=? 12447)
   || (12448 <=? cp) && (cp <=? 12543))%N.

(** The japaneseName rule as the specification words it. *)
Definition nameRuleAsSpecified (candidate : jsstring) : bool :=
  let cps := codePoints candidate in
  (2 <=? Z.of_nat (length cps)) && (Z.of_nat (length cps) <=? 8)
  && forallb inNameRanges cps.

(* ================================================================== *)
(** ** Running the detector on the modelled runtime *)

Module Host.

Definition detectPII (this : PIIDetector) (textNodes : list Text)
  : result (list PIIMatch) :=
  detectPII ascii_toLowerCase regex_parse regex_matchAll this textNodes.

Definition detectInText (this : PIIDetector) (context : DetectionContext)
  : result (list PIIMatch) :=
  detectInText ascii_toLowerCase regex_parse regex_matchAll this context.

Definition shouldIncludeMatch (this : PIIDetector) (matchText : jsstring)
           (pat : PIIPattern) (context : DetectionContext) : bool :=
  shouldIncludeMatch ascii_toLowerCase this matchText pat context.

End Host.

(** Settings with no pattern list of their own, so that the registry's
    patterns are used, and the masking types of the shipped defaults. *)
Definition shippedMaskingTypes : list (jsstring * MaskingType) :=
  [(utf16 "email", BLUR); (utf16 "phone", MOSAIC);
   (utf16 "address", BLACKOUT); (utf16 "creditCard", PIXELATE);
   (utf16 "name", BLUR)].

Definition registrySettings (level : Sensitivity) : ExtensionSettings :=
  mkSettings true shippedMaskingTypes [] true level.

(** [defaultSettings] of [src/background/background.ts]: settings with a
    pattern list of their own. *)
Definition defaultSettings : ExtensionSettings :=
  mkSettings true shippedMaskingTypes
    [mkPIIPattern (utf16 "email")
       (utf16 "[a-zA-Z0-9._%+-]+@[a-zA-Z0-9.-]+\.[a-zA-Z]{2,}") BLUR true;
     mkPIIPattern (utf16 "phone")
       (utf16 "(\+?\d{1,4}[\s-]?)?(\(?\d{2,4}\)?[\s-]?)?[\d\s-]{6,}")
       MOSAIC true;
     mkPIIPattern (utf16 "creditCard")
       (utf16 "\b(?:\d{4}[\s-]?){3}\d{4}\b") PIXELATE true]
    true high.

(** An element outside any form, its parent not consulted. *)
Definition plainElement (id : nat) (tag : string) : HTMLElement :=
  mkElement id (utf16 tag) None None 0.

Definition textIn (e : HTMLElement) (s : string) : Text :=
  mkText (Some e) (utf16 s).

Definition contextOf (e : HTMLElement) (s : string) : DetectionContext :=
  buildDetectionContext ascii_toLowerCase e (utf16 s).

(** What a match is, for display: element, interval, type. *)
Definition summary (m : PIIMatch) : nat * Z * Z * jsstring :=
  (elementId (element m), startIndex m, endIndex m, type m).

(** A match as the detector builds it: the occurrence [s] found at
    [start] in a node of element [e]. *)
Definition found (e : HTMLElement) (s : string) (start : Z) (ty : string)
           (mt : MaskingType) : PIIMatch :=
  mkPIIMatch (utf16 s) start (start + jslength (utf16 s)) (utf16 ty) e mt.

(** *** Inputs the statements below are evaluated on *)

(** The detector over the registry's patterns. *)
Definition registryDetector (level : Sensitivity) : PIIDetector :=
  constructor (registrySettings level).

Definition paragraph : HTMLElement := plainElement 1 "P".
Definition bold : HTMLElement := plainElement 2 "B".

(** The email example of the specification. *)
Definition contactNode : Text := textIn paragraph "Contact: test@example.com".

Definition contactMatchAsSpecified (m : PIIMatch) : Prop :=
  type m = utf16 "email" /\ text m = utf16 "test@example.com"
  /\ startIndex m = 9 /\ endIndex m = 26.

(** A phone number, whose first eight characters also read as a postal
    code. *)
Definition phoneNode : Text := textIn paragraph "090-1234-5678".
Definition phoneCandidate : PIIMatch :=
  found paragraph "090-1234-5678" 0 "phone" MOSAIC.
Definition postalCandidate : PIIMatch :=
  found paragraph "090-1234" 0 "postalCode" BLUR.

(** A date running into an address of the same length. *)
Definition dateNode : Text := textIn paragraph "2001/01/01@b.co.jp".
Definition dateEmailCandidate : PIIMatch :=
  found paragraph "01@b.co.jp" 8 "email" BLUR.
Definition dateCandidate : PIIMatch :=
  found paragraph "2001/01/01" 0 "birthDate" BLUR.

(** Two addresses inside what reads as a postal address. *)
Definition addressNode : Text := textIn paragraph "都a@b.co c@d.io市1".
Definition addressCandidate : PIIMatch :=
  found paragraph "都a@b.co c@d.io市1" 0 "address" BLACKOUT.
Definition firstEmailCandidate : PIIMatch :=
  found paragraph "a@b.co" 1 "email" BLUR.
Definition secondEmailCandidate : PIIMatch :=
  found paragraph "c@d.io" 8 "email" BLUR.

(** The text nodes of [<p>mail: a@b.co<b>x@y.jp</b>c@d.io</p>] in document
    order: the first and the third have the paragraph as parent. *)
Definition interleavedNodes : list Text :=
  [textIn paragraph "mail: a@b.co"; textIn bold "x@y.jp";
   textIn paragraph "c@d.io"].
Definition interleavedOutput : list PIIMatch :=
  [found paragraph "a@b.co" 6 "email" BLUR;
   found bold "x@y.jp" 0 "email" BLUR;
   found paragraph "c@d.io" 0 "email" BLUR].

(** Settings whose own pattern list holds a source with an unclosed
    group. *)
Definition unclosedGroup : PIIPattern :=
  mkPIIPattern (utf16 "custom") (utf16 "(") BLUR true.
Definition brokenSettings : ExtensionSettings :=
  mkSettings true shippedMaskingTypes [PIIPatterns.EMAIL; unclosedGroup]
             true high.

(** A card number whose last digit breaks the checksum. *)
Definition cardNode : Text := textIn paragraph "card 4111 1111 1111 1112 ok".
Definition badCardCandidate : PIIMatch :=
  found paragraph "4111 1111 1111 1112" 5 "creditCard" PIXELATE.

(** A paragraph outside any form, after a sibling that reads "Email:". *)
Definition labelledParagraph : HTMLElement :=
  mkElement 3 (utf16 "P") None (Some [utf16 "Email:"; utf16 "a@b.co"]) 1.
Definition labelledContext : DetectionContext :=
  contextOf labelledParagraph "a@b.co".

(** An input of a form whose label reads "Email". *)
Definition formInput : HTMLElement :=
  mkElement 4 (utf16 "LI")
            (Some (mkForm [utf16 "Email"] [(utf16 "mail", [])])) None 0.
Definition formContextExample : DetectionContext :=
  contextOf formInput "a@b.co".

(* ================================================================== *)
(** ** The content script ([ContentScriptManager]) *)











(** The [Map] of [applyMasking], keyed by element identity, entries in
    insertion order. *)
Fixpoint mapGet (e : HTMLElement)
         (m : list (HTMLElement * list PIIMatch)) : option (list PIIMatch) :=
  match m with
  | [] => None
  | (k, v) :: m' => if same_element k e then Some v else mapGet e m'
  end.

Fixpoint mapSet (e : HTMLElement) (v : list PIIMatch)
         (m : list (HTMLElement * list PIIMatch))
  : list (HTMLElement * list PIIMatch) :=
  match m with
  | [] => [(e, v)]
  | (k, w) :: m' =>
    if same_element k e then (k, v) :: m' else (k, w) :: mapSet e v m'
  end.

(** The grouping loop of [applyMasking]. *)
Definition groupStep (elementMatches : list (HTMLElement * list PIIMatch))
           (m : PIIMatch) : list (HTMLElement * list PIIMatch) :=
  let existing := match mapGet (element m) elementMatches with
                  | Some l => l
                  | None => []
                  end in
  mapSet (element m) (existing ++ [m]) elementMatches.

Definition groupByElement (matches : list PIIMatch)
  : list (HTMLElement * list PIIMatch) :=
  fold_left groupStep matches [].

(** The nodes [getTextNodes] walks: a text node, or a node with child
    nodes, which for the walk from [document.body] is an element. *)
#[warnings="-register-all"]
Inductive DomNode : Type :=
| DomText (data : jsstring)
| DomElement (e : HTMLElement) (childNodes : list DomNode).

(** [traverse]: text nodes with non-blank content, in document order. *)
Fixpoint traverse (parent : option HTMLElement) (node : DomNode)
  : list Text :=
  match node with
  | DomText data =>
    if truthy data && (0 <? jslength (trim data))
    then [mkText parent data] else []
  | DomElement e childNodes => flat_map (traverse (Some e)) childNodes
  end.

(** [getTextNodes(element)] for an element whose own parent is [parent]. *)
Definition getTextNodes (parent : option HTMLElement) (root : DomNode)
  : list Text :=
  traverse parent root.

(** [handleMaskingTypeChange] of the popup, up to its first [await]: the
    assignment [maskingTypes[type] = maskingType] and the update of the
    pattern of that name. *)
Fixpoint setProperty {V : Type} (key : jsstring) (v : V)
         (obj : list (jsstring * V)) : list (jsstring * V) :=
  match obj with
  | [] =>
    (* no entry of its own: the assignment creates one, but for
       ["__proto__"], where it reaches the inherited setter, which
       ignores a value that is no object *)
    if jseqb key (utf16 "__proto__") then [] else [(key, v)]
  | (k, w) :: obj' =>
    if jseqb k key then (k, v) :: obj' else (k, w) :: setProperty key v obj'
  end.

Fixpoint setFirstPattern (ty : jsstring) (mt : MaskingType)
         (ps : list PIIPattern) : list PIIPattern :=
  match ps with
  | [] => []
  | p :: ps' =>
    if jseqb (name p) ty
    then mkPIIPattern (name p) (pattern p) mt (enabled p) :: ps'
    else p :: setFirstPattern ty mt ps'
  end.

Definition handleMaskingTypeChange (s : ExtensionSettings) (ty : jsstring)
           (mt : MaskingType) : ExtensionSettings :=
  mkSettings (settingsEnabled s)
             (setProperty ty mt (maskingTypes s))
             (setFirstPattern ty mt (patterns s))
             (realTimeProcessing s)
             (sensitivity s).

(* ================================================================== *)
(** ** Detection, said declaratively *)

(** The siblings [getNearbyText] joins. *)
Definition nearbyElements (siblings : list jsstring) (currentIndex : nat)
  : list jsstring :=
  slice siblings (Nat.max 0 (currentIndex - 2))
        (Nat.min (length siblings) (currentIndex + 3)).

Section Declarative.

Variable toLowerCase : jsstring -> jsstring.
Variable RegExp : Type.
Variable RegExp_new : jsstring -> option RegExp.
Variable matchAll : RegExp -> jsstring -> list RegExpMatch.
Variable this : PIIDetector.

(** The match built from an occurrence. *)
Definition toMatch (pat : PIIPattern) (context : DetectionContext)
           (rm : RegExpMatch) : PIIMatch :=
  mkPIIMatch (rm_text rm) (rm_index rm)
             (rm_index rm + jslength (rm_text rm))
             (name pat) (ctxElement context)
             (getMaskingType this (name pat)).

(** The occurrences of a pattern that pass both gates, as matches. *)
Definition acceptedOccurrences (context : DetectionContext)
           (pat : PIIPattern) : list PIIMatch :=
  if enabled pat then
    match RegExp_new (pattern pat) with
    | Some re =>
      map (toMatch pat context)
          (filter (fun rm => shouldIncludeMatch toLowerCase this
                                                (rm_text rm) pat context)
                  (matchAll re (textContent context)))
    | None => []
    end
  else [].

(** The candidates of a node, over all patterns in their order. *)
Definition candidatesOfNode (textNode : Text) : list PIIMatch :=
  match parentElement textNode with
  | Some element =>
    if scanned textNode then
      flat_map (acceptedOccurrences
                  (buildDetectionContext toLowerCase element
                                         (nodeTextContent textNode)))
               (this_patterns this)
    else []
  | None => []
  end.

End Declarative.

Arguments acceptedOccurrences toLowerCase {RegExp} RegExp_new matchAll this
  context pat.
Arguments candidatesOfNode toLowerCase {RegExp} RegExp_new matchAll this
  textNode.

(** Digits of a card number that differ in one place. *)
Definition substituted (s s' : jsstring) : Prop :=
  exists pre c c' post,
    s = pre ++ c :: post /\ s' = pre ++ c' :: post /\ c <> c'.

(** The check digit that completes a digit string. *)
Definition luhnCheckDigit (s : jsstring) : N :=
  Z.to_N ((10 - luhnTotal (rev (digitValues s)) true mod 10) mod 10) + 48.

(** Identities of the elements of a list of matches, in order. *)
Definition elementIds (ms : list PIIMatch) : list nat :=
  map (fun m => elementId (element m)) ms.



(** [groupedByElement] on the identities alone. *)
Fixpoint groupedIds (ids : list nat) : bool :=
  match ids with
  | [] => true
  | i :: ids' =>
    match ids' with
    | [] => true
    | j :: _ =>
      (Nat.eqb i j || negb (existsb (Nat.eqb i) ids')) && groupedIds ids'
    end
  end.

(** Looking back from a match of element [i] over the matches before it
    (nearest first): matches of [i], and behind them none of [i]. *)
Fixpoint headRun (i : nat) (back : list nat) : Prop :=
  match back with
  | [] => True
  | j :: back' => if Nat.eqb i j then headRun i back' else ~ In i back
  end.

(** [headRun] holds at every element of [l], read after [back]. *)
Fixpoint headRuns (back l : list nat) : Prop :=
  match l with
  | [] => True
  | i :: l' => headRun i back /\ headRuns (i :: back) l'
  end.

(** Read backwards, the matches of one element have falling
    [startIndex]. *)
Fixpoint descendingWithinElement (back : list PIIMatch) : Prop :=
  match back with
  | [] => True
  | a :: back' =>
    Forall (fun b => elementId (element a) = elementId (element b) ->
                     startIndex b <= startIndex a) back'
    /\ descendingWithinElement back'
  end.

(** The identity of the parent of a text node that has one. *)
Definition parentId (textNode : Text) : nat :=
  match parentElement textNode with
  | Some e => elementId e
  | None => O
  end.

(** The match with the masking type of its type changed. *)
Definition remask (ty : jsstring) (mt : MaskingType) (m : PIIMatch)
  : PIIMatch :=
  if jseqb (type m) ty
  then mkPIIMatch (text m) (startIndex m) (endIndex m) (type m)
                  (element m) mt
  else m.


(** A change of matches that leaves all but the masking type. *)
Definition keepsAllButMasking (g : PIIMatch -> PIIMatch) : Prop :=
  forall m, text (g m) = text m /\ startIndex (g m) = startIndex m
            /\ endIndex (g m) = endIndex m /\ type (g m) = type m
            /\ element (g m) = element m.




(** What [elementMatches.get(e)] is to be after grouping [l] on top of
    [o]. *)
Definition grouped (o : option (list PIIMatch)) (l : list PIIMatch)
  : option (list PIIMatch) :=
  match o, l with
  | None, [] => None
  | None, _ :: _ => Some l
  | Some l0, _ => Some (l0 ++ l)
  end.


(** The match of the email example. *)
Definition contactMatch : PIIMatch :=
  found paragraph "test@example.com" 9 "email" BLUR.

(** Two matches of the paragraph out of order, then one of another
    element. *)
Definition groupedUnsorted : list PIIMatch :=
  [found paragraph "c@d.io" 20 "email" BLUR;
   found paragraph "a@b.co" 6 "email" BLUR;
   found bold "x@y.jp" 0 "email" BLUR].

Definition formNode : Text := textIn formInput "a@b.co".
Definition formMatch : PIIMatch := found formInput "a@b.co" 0 "email" BLUR.

(** The settings the detector holds after a sequence of calls that began
    with [initial]. *)
Fixpoint lastSettings (initial : ExtensionSettings) (calls : list call)
  : ExtensionSettings :=
  match calls with
  | [] => initial
  | CallDetectPII _ :: calls' => lastSettings initial calls'
  | CallUpdateSettings s :: calls' => lastSettings s calls'
  end.

Definition japaneseNameText : string := "山田太郎".

(** A method that only reads the object: it leaves both fields as they
    are, also when it throws, and its answer is [f] of the fields. *)
Definition reads {A : Type} (m : method A) (f : PIIDetector -> result A)
  : Prop :=
  forall this, m this = (this, f this).

(* ================================================================== *)
(** ** Facts about strings and arrays *)

Lemma jseqb_eq (a b : jsstring) : jseqb a b = true <-> a = b.
Proof.
  revert b. induction a as [|x a IH]; intros [|y b]; simpl;
    try (split; [discriminate | congruence]); try tauto.
  rewrite andb_true_iff, N.eqb_eq, IH.
  split; [intros [-> ->]; reflexivity | intros H; inversion H; auto].
Qed.

Lemma jseqb_refl (a : jsstring) : jseqb a a = true.
Proof. apply jseqb_eq. reflexivity. Qed.

Lemma startsWith_app (s pre : jsstring) :
  startsWith s pre = true <-> exists rest, s = pre ++ rest.
Proof.
  revert s. induction pre as [|p pre IH]; intros s; simpl.
  - split; [intros _; exists s; reflexivity | destruct s; reflexivity].
  - destruct s as [|c s]; simpl.
    + split; [discriminate | intros [rest H]; discriminate].
    + rewrite andb_true_iff, N.eqb_eq, IH. split.
      * intros [-> [rest ->]]. exists rest. reflexivity.
      * intros [rest H]. inversion H; subst. split; eauto.
Qed.

Lemma In_assign {A : Type} (l : list A) (i : nat) (v x : A) :
  In x (assign l i v) -> In x l \/ x = v.
Proof.
  revert i. induction l as [|y l IH]; intros i H; simpl in *.
  - contradiction.
  - destruct i as [|i]; simpl in H.
    + destruct H as [<- | H]; auto.
    + destruct H as [<- | H]; auto.
      destruct (IH _ H); auto.
Qed.

Lemma sort_insert_perm {A : Type} (cmp : A -> A -> Z) (x : A) (l : list A) :
  Permutation (sort_insert cmp x l) (x :: l).
Proof.
  induction l as [|y l IH]; simpl.
  - reflexivity.
  - destruct (0 <? cmp y x).
    + rewrite IH. apply perm_swap.
    + reflexivity.
Qed.

Lemma sort_fold_perm {A : Type} (cmp : A -> A -> Z) (l acc : list A) :
  Permutation (fold_left (fun a x => sort_insert cmp x a) l acc) (l ++ acc).
Proof.
  revert acc. induction l as [|x l IH]; intros acc; simpl.
  - reflexivity.
  - rewrite IH, sort_insert_perm. symmetry. apply Permutation_middle.
Qed.

Lemma Array_sort_perm {A : Type} (cmp : A -> A -> Z) (l : list A) :
  Permutation (Array_sort cmp l) l.
Proof.
  unfold Array_sort. rewrite <- Permutation_rev, sort_fold_perm.
  rewrite app_nil_r. reflexivity.
Qed.




(** *** Overlap resolution keeps only matches it was given *)

Lemma In_removeDuplicateStep (res : list PIIMatch) (m x : PIIMatch) :
  In x (removeDuplicateStep res m) -> In x res \/ x = m.
Proof.
  unfold removeDuplicateStep.
  destruct (find _ res) as [ov|].
  - destruct (shouldReplaceMatch ov m); auto.
    destruct (findIndex _ res) as [i|]; auto.
    apply In_assign.
  - rewrite in_app_iff. simpl. intuition.
Qed.

Lemma In_removeDuplicate_fold (ms acc : list PIIMatch) (x : PIIMatch) :
  In x (fold_left removeDuplicateStep ms acc) -> In x acc \/ In x ms.
Proof.
  revert acc. induction ms as [|m ms IH]; intros acc H; simpl in *.
  - auto.
  - destruct (IH _ H) as [H1 | H1]; auto.
    destruct (In_removeDuplicateStep _ _ _ H1); auto.
Qed.

Lemma In_removeDuplicateMatches (ms : list PIIMatch) (x : PIIMatch) :
  In x (removeDuplicateMatches ms) -> In x ms.
Proof.
  intros H. destruct (In_removeDuplicate_fold _ _ _ H) as [[]|]; auto.
Qed.

Lemma In_postProcessMatches (ms : list PIIMatch) (x : PIIMatch) :
  In x (postProcessMatches ms) -> In x ms.
Proof.
  unfold postProcessMatches. intros H.
  apply In_removeDuplicateMatches.
  eapply Permutation_in; [apply Array_sort_perm | exact H].
Qed.

(** *** The Luhn loop computes the specified total *)

Lemma firstn_snoc {A : Type} (l : list A) (i : nat) (x : A) :
  nth_error l i = Some x -> firstn (S i) l = firstn i l ++ [x].
Proof.
  revert i. induction l as [|y l IH]; intros [|i] H; simpl in *;
    try discriminate.
  - inversion H; reflexivity.
  - rewrite (IH _ H). reflexivity.
Qed.

Lemma luhnLoop_total (s : jsstring) :
  forallb isDigit s = true ->
  forall (n : nat) (sum : Z) (isEven : bool),
    (n <= length s)%nat ->
    luhnLoop s n (Some sum) isEven
    = Some (sum + luhnTotal (rev (firstn n (digitValues s))) isEven).
Proof.
  intros Hd. induction n as [|i IH]; intros sum isEven Hn.
  - simpl. f_equal. lia.
  - simpl luhnLoop.
    destruct (nth_error s i) as [c|] eqn:Hc.
    2:{ apply nth_error_None in Hc. lia. }
    assert (Hdc : isDigit c = true).
    { rewrite forallb_forall in Hd. apply Hd.
      eapply nth_error_In; eauto. }
    unfold parseInt1. rewrite Hdc. cbv beta iota zeta delta [option_map].
    rewrite IH by lia.
    assert (Hv : nth_error (digitValues s) i = Some (Z.of_N c - 48)).
    { unfold digitValues. rewrite nth_error_map, Hc. reflexivity. }
    rewrite (firstn_snoc _ _ _ Hv), rev_app_distr. simpl.
    f_equal. unfold luhnTerm.
    replace (2 * (Z.of_N c - 48)) with ((Z.of_N c - 48) * 2) by lia.
    destruct isEven; lia.
Qed.

Lemma luhnCheck_luhnValid (s : jsstring) :
  forallb isDigit s = true -> luhnCheck s = luhnValid (digitValues s).
Proof.
  intros Hd. unfold luhnCheck, luhnValid.
  rewrite (luhnLoop_total s Hd) by lia.
  rewrite firstn_all2 by (unfold digitValues; rewrite length_map; lia).
  reflexivity.
Qed.

(** A code unit that is no digit turns the sum into [NaN] for good. *)
Lemma luhnLoop_NaN (s : jsstring) (n : nat) (isEven : bool) :
  luhnLoop s n None isEven = None.
Proof.
  revert isEven. induction n as [|i IH]; intros isEven; simpl; auto.
Qed.

Lemma luhnLoop_digits (s : jsstring) (n : nat) (sum : option Z)
      (isEven : bool) (v : Z) :
  luhnLoop s n sum isEven = Some v ->
  forall i c, (i < n)%nat -> nth_error s i = Some c -> isDigit c = true.
Proof.
  revert sum isEven. induction n as [|k IH]; intros sum isEven H i c Hi Hc.
  - lia.
  - simpl in H.
    destruct (Nat.eq_dec i k) as [->|Hne].
    + rewrite Hc in H. unfold parseInt1 in H.
      destruct (isDigit c); auto.
      simpl in H. destruct sum; rewrite luhnLoop_NaN in H; discriminate.
    + eapply IH; eauto. lia.
Qed.

Lemma luhnCheck_digits (s : jsstring) :
  luhnCheck s = true -> forallb isDigit s = true.
Proof.
  unfold luhnCheck. intros H.
  destruct (luhnLoop s (length s) (Some 0) false) as [v|] eqn:Hl;
    [|discriminate].
  apply forallb_forall. intros c Hin.
  destruct (In_nth_error _ _ Hin) as [i Hi].
  eapply luhnLoop_digits; eauto.
  apply nth_error_Some. congruence.
Qed.

Lemma forEach_invariant {A S : Type} (I : S -> Prop)
      (body : S -> A -> result S) :
  (forall acc x acc', body acc x = Ok acc' -> I acc -> I acc') ->
  forall (arr : list A) (acc acc' : S),
    forEach body arr acc = Ok acc' -> I acc -> I acc'.
Proof.
  intros Hbody. induction arr as [|x arr IH]; intros acc acc' H HI; simpl in H.
  - inversion H; subst; assumption.
  - destruct (body acc x) as [acc1|e] eqn:Hb; simpl in H; try discriminate.
    eapply IH; eauto.
Qed.

Lemma existsb_app_or {A : Type} (p : A -> bool) (l1 l2 : list A) :
  existsb p (l1 ++ l2) = existsb p l1 || existsb p l2.
Proof. apply existsb_app. Qed.

Lemma isValidMatch_creditCard (t : jsstring) :
  isValidMatch t (utf16 "creditCard") = isValidCreditCard t.
Proof. reflexivity. Qed.

(* ================================================================== *)
(** ** The methods on the object and the functions of its fields *)

Lemma reads_ret {A : Type} (a : A) :
  reads (Method.ret a) (fun _ => Ok a).
Proof. intros this. reflexivity. Qed.

Lemma reads_throw {A : Type} (e : exn) :
  reads (@Method.throw A e) (fun _ => Throw e).
Proof. intros this. reflexivity. Qed.

Lemma reads_get_settings :
  reads Method.get_settings (fun this => Ok (settings this)).
Proof. intros this. reflexivity. Qed.

Lemma reads_get_patterns :
  reads Method.get_patterns (fun this => Ok (this_patterns this)).
Proof. intros this. reflexivity. Qed.

Lemma reads_bind {A B : Type} (m : method A) (k : A -> method B)
      (f : PIIDetector -> result A) (g : A -> PIIDetector -> result B) :
  reads m f -> (forall a, reads (k a) (g a)) ->
  reads (Method.bind m k) (fun this => bind (f this) (fun a => g a this)).
Proof.
  intros Hm Hk this. unfold Method.bind. rewrite Hm.
  destruct (f this) as [a|e]; simpl; [apply Hk | reflexivity].
Qed.

Lemma reads_ext {A : Type} (m : method A)
      (f g : PIIDetector -> result A) :
  reads m f -> (forall this, f this = g this) -> reads m g.
Proof. intros Hm Hfg this. rewrite Hm, Hfg. reflexivity. Qed.

Lemma reads_forEach {A S : Type} (body : S -> A -> method S)
      (pbody : PIIDetector -> S -> A -> result S) (arr : list A) :
  (forall acc x, reads (body acc x) (fun this => pbody this acc x)) ->
  forall acc,
    reads (Method.forEach body arr acc)
          (fun this => forEach (pbody this) arr acc).
Proof.
  intros Hbody. induction arr as [|x arr IH]; intros acc; simpl.
  - apply reads_ret.
  - apply (reads_bind _ _ (fun this => pbody this acc x)
                      (fun acc' this => forEach (pbody this) arr acc')).
    + apply Hbody.
    + exact IH.
Qed.

Lemma forEach_Ok {A S : Type} (f : S -> A -> S) (arr : list A) (acc : S) :
  forEach (fun acc x => Ok (f acc x)) arr acc = Ok (fold_left f arr acc).
Proof.
  revert acc. induction arr as [|x arr IH]; intros acc; simpl; auto.
Qed.

Lemma updateSettings_run (this : PIIDetector) (s : ExtensionSettings) :
  Method.updateSettings s this = (updateSettings this s, Ok tt).
Proof.
  unfold Method.updateSettings, Method.initializePatterns, Method.bind,
    Method.set_settings, Method.get_settings, Method.set_patterns,
    Method.ret, updateSettings, initializePatterns.
  simpl. destruct (patterns s) eqn:E; simpl; rewrite ?E; reflexivity.
Qed.

Section MethodFacts.

Variable toLowerCase : jsstring -> jsstring.
Variable RegExp : Type.
Variable RegExp_new : jsstring -> option RegExp.
Variable matchAll : RegExp -> jsstring -> list RegExpMatch.

Lemma shouldIncludeMatch_reads (matchText : jsstring) (pat : PIIPattern)
      (context : DetectionContext) :
  reads (Method.shouldIncludeMatch toLowerCase matchText pat context)
        (fun this =>
           Ok (shouldIncludeMatch toLowerCase this matchText pat context)).
Proof.
  intros this.
  unfold Method.shouldIncludeMatch, shouldIncludeMatch, Method.bind,
    Method.get_settings, Method.ret.
  destruct (negb (isValidMatch matchText (name pat))); [reflexivity|].
  destruct (sensitivity (settings this)); reflexivity.
Qed.

Lemma getMaskingType_reads (type : jsstring) :
  reads (Method.getMaskingType type)
        (fun this => Ok (getMaskingType this type)).
Proof.
  intros this.
  unfold Method.getMaskingType, getMaskingType, Method.bind,
    Method.get_settings, Method.ret.
  destruct (lookup type (maskingTypes (settings this))); reflexivity.
Qed.

Lemma pushMatch_reads (pat : PIIPattern) (context : DetectionContext)
      (matches : list PIIMatch) (m : RegExpMatch) :
  reads (Method.pushMatch toLowerCase pat context matches m)
        (fun this => Ok (pushMatch toLowerCase this pat context matches m)).
Proof.
  intros this. unfold Method.pushMatch, Method.bind.
  rewrite shouldIncludeMatch_reads. unfold pushMatch.
  destruct (shouldIncludeMatch toLowerCase this (rm_text m) pat context);
    [|reflexivity].
  rewrite getMaskingType_reads. reflexivity.
Qed.

Lemma detectPattern_reads (context : DetectionContext)
      (matches : list PIIMatch) (pat : PIIPattern) :
  reads (Method.detectPattern toLowerCase RegExp_new matchAll context
                              matches pat)
        (fun this =>
           detectPattern toLowerCase RegExp_new matchAll this context
                         matches pat).
Proof.
  unfold Method.detectPattern, detectPattern.
  destruct (negb (enabled pat)); [apply reads_ret|].
  destruct (RegExp_new (pattern pat)) as [globalPattern|];
    [|apply reads_throw].
  eapply reads_ext.
  - apply (reads_forEach _
             (fun this acc m =>
                Ok (pushMatch toLowerCase this pat context acc m))).
    intros acc m. apply pushMatch_reads.
  - intros this. apply forEach_Ok.
Qed.

Lemma detectInText_reads (context : DetectionContext) :
  reads (Method.detectInText toLowerCase RegExp_new matchAll context)
        (fun this =>
           detectInText toLowerCase RegExp_new matchAll this context).
Proof.
  intros this. unfold Method.detectInText, Method.bind, Method.get_patterns.
  rewrite (reads_forEach _
             (fun this acc pat =>
                detectPattern toLowerCase RegExp_new matchAll this context
                              acc pat)).
  - reflexivity.
  - intros acc pat. apply detectPattern_reads.
Qed.

Lemma detectNode_reads (matches : list PIIMatch) (textNode : Text) :
  reads (Method.detectNode toLowerCase RegExp_new matchAll matches textNode)
        (fun this =>
           detectNode toLowerCase RegExp_new matchAll this matches
                      textNode).
Proof.
  unfold Method.detectNode, detectNode.
  destruct (parentElement textNode) as [element|]; [|apply reads_ret].
  destruct (jslength (trim (nodeTextContent textNode)) =? 0);
    [apply reads_ret|].
  apply (reads_bind _ _
           (fun this =>
              detectInText toLowerCase RegExp_new matchAll this
                (buildDetectionContext toLowerCase element
                                       (nodeTextContent textNode)))
           (fun nodeMatches _ => Ok (matches ++ nodeMatches))).
  - apply detectInText_reads.
  - intros nodeMatches. apply reads_ret.
Qed.

(** [detectPII] run on the object leaves both fields as they are, also
    when it throws, and answers as the function of the fields does. *)
Lemma detectPII_reads (textNodes : list Text) :
  reads (Method.detectPII toLowerCase RegExp_new matchAll textNodes)
        (fun this =>
           detectPII toLowerCase RegExp_new matchAll this textNodes).
Proof.
  unfold Method.detectPII, detectPII.
  apply (reads_bind _ _
           (fun this =>
              forEach (detectNode toLowerCase RegExp_new matchAll this)
                      textNodes [])
           (fun matches _ => Ok (postProcessMatches matches))).
  - apply (reads_forEach _
             (fun this acc n =>
                detectNode toLowerCase RegExp_new matchAll this acc n)).
    intros acc n. apply detectNode_reads.
  - intros matches. apply reads_ret.
Qed.

Lemma invoke_detect (this : PIIDetector) (textNodes : list Text) :
  invoke toLowerCase RegExp_new matchAll this (CallDetectPII textNodes)
  = (this,
     Some (detectPII toLowerCase RegExp_new matchAll this textNodes)).
Proof. simpl. rewrite detectPII_reads. reflexivity. Qed.

Lemma invoke_update (this : PIIDetector) (s : ExtensionSettings) :
  invoke toLowerCase RegExp_new matchAll this (CallUpdateSettings s)
  = (updateSettings this s, None).
Proof. simpl. rewrite updateSettings_run. reflexivity. Qed.

Lemma invokeAll_detect_calls (this : PIIDetector) (calls : list call) :
  forallb isDetectCall calls = true ->
  fst (invokeAll toLowerCase RegExp_new matchAll this calls) = this.
Proof.
  induction calls as [|c cs IH]; intros H; [reflexivity|].
  simpl in H. apply andb_true_iff in H. destruct H as [Hc Hcs].
  destruct c as [ns|s]; [|discriminate].
  cbn [invokeAll]. rewrite invoke_detect. specialize (IH Hcs).
  destruct (invokeAll toLowerCase RegExp_new matchAll this cs).
  exact IH.
Qed.

End MethodFacts.

(* ================================================================== *)
(** ** Facts about the detector, for every runtime *)

Section DetectorFacts.

Variable toLowerCase : jsstring -> jsstring.
Variable RegExp : Type.
Variable RegExp_new : jsstring -> option RegExp.
Variable matchAll : RegExp -> jsstring -> list RegExpMatch.
Variable this : PIIDetector.

Local Abbreviation detectPattern' :=
  (detectPattern toLowerCase RegExp_new matchAll this).
Local Abbreviation detectInText' :=
  (detectInText toLowerCase RegExp_new matchAll this).
Local Abbreviation detectNode' :=
  (detectNode toLowerCase RegExp_new matchAll this).
Local Abbreviation detectPII' :=
  (detectPII toLowerCase RegExp_new matchAll this).

Local Abbreviation failsToCompile := (failsToCompile RegExp_new this).

Lemma shouldIncludeMatch_valid (t : jsstring) (pat : PIIPattern)
      (ctx : DetectionContext) :
  shouldIncludeMatch toLowerCase this t pat ctx = true ->
  isValidMatch t (name pat) = true.
Proof.
  unfold shouldIncludeMatch.
  destruct (isValidMatch t (name pat)); simpl; congruence.
Qed.

Lemma pushMatch_valid (pat : PIIPattern) (ctx : DetectionContext)
      (rms : list RegExpMatch) (ms : list PIIMatch) :
  Forall structurallyValid ms ->
  Forall structurallyValid
         (fold_left (pushMatch toLowerCase this pat ctx) rms ms).
Proof.
  revert ms. induction rms as [|rm rms IH]; intros ms H; simpl; auto.
  apply IH. unfold pushMatch.
  destruct (shouldIncludeMatch _ _ _ _ _) eqn:Hs; auto.
  apply Forall_app. split; auto. constructor; auto.
  apply shouldIncludeMatch_valid in Hs. exact Hs.
Qed.

Lemma detectPattern_valid (ctx : DetectionContext) (ms ms' : list PIIMatch)
      (pat : PIIPattern) :
  detectPattern' ctx ms pat = Ok ms' ->
  Forall structurallyValid ms -> Forall structurallyValid ms'.
Proof.
  unfold detectPattern. intros H Hv.
  destruct (negb (enabled pat)).
  - inversion H; subst; assumption.
  - destruct (RegExp_new (pattern pat)); inversion H; subst.
    apply pushMatch_valid; assumption.
Qed.

Lemma detectInText_valid (ctx : DetectionContext) (ms : list PIIMatch) :
  detectInText' ctx = Ok ms -> Forall structurallyValid ms.
Proof.
  unfold detectInText. intros H.
  eapply (forEach_invariant (Forall structurallyValid)); eauto.
  intros acc x acc'. apply detectPattern_valid.
Qed.

Lemma detectNode_valid (acc acc' : list PIIMatch) (n : Text) :
  detectNode' acc n = Ok acc' ->
  Forall structurallyValid acc -> Forall structurallyValid acc'.
Proof.
  unfold detectNode. intros H Hv.
  destruct (parentElement n) as [e|]; [|inversion H; subst; assumption].
  destruct (jslength (trim (nodeTextContent n)) =? 0);
    [inversion H; subst; assumption|].
  destruct (detectInText' _) as [nm|] eqn:Hn; simpl in H; inversion H; subst.
  apply Forall_app. split; auto.
  eapply detectInText_valid; eauto.
Qed.

Lemma detectPII_valid (textNodes : list Text) (ms : list PIIMatch) :
  detectPII' textNodes = Ok ms -> Forall structurallyValid ms.
Proof.
  unfold detectPII. intros H.
  destruct (forEach _ textNodes []) as [raw|] eqn:Hr; simpl in H;
    inversion H; subst.
  assert (Hraw : Forall structurallyValid raw).
  { eapply (forEach_invariant (Forall structurallyValid)); eauto.
    intros acc x acc'. apply detectNode_valid. }
  rewrite Forall_forall in *. intros m Hm.
  apply Hraw. apply In_postProcessMatches. exact Hm.
Qed.

(** *** When the detector throws *)

Lemma detectPattern_throws (ctx : DetectionContext) (ms : list PIIMatch)
      (pat : PIIPattern) :
  (exists e, detectPattern' ctx ms pat = Throw e) <->
  enabled pat = true /\ RegExp_new (pattern pat) = None.
Proof.
  unfold detectPattern. destruct (enabled pat); simpl.
  - destruct (RegExp_new (pattern pat)).
    + split; [intros [e H]; discriminate | intros [_ H]; discriminate].
    + split; eauto.
  - split; [intros [e H]; discriminate | intros [H _]; discriminate].
Qed.

Lemma forEach_detectPattern_throws (ctx : DetectionContext)
      (pats : list PIIPattern) (acc : list PIIMatch) :
  (exists e, forEach (detectPattern' ctx) pats acc = Throw e) <->
  (exists p, In p pats /\ enabled p = true
             /\ RegExp_new (pattern p) = None).
Proof.
  revert acc. induction pats as [|pat pats IH]; intros acc; simpl.
  - split; [intros [e H]; discriminate | intros [p [[] _]]].
  - destruct (detectPattern' ctx acc pat) as [acc1|e1] eqn:Hp; simpl.
    + rewrite IH. split.
      * intros [p [Hin H]]. exists p. auto.
      * intros [p [[<- | Hin] H]].
        -- assert (Ht : exists e, detectPattern' ctx acc pat = Throw e)
             by (apply detectPattern_throws; exact H).
           destruct Ht as [e Ht]. congruence.
        -- exists p. auto.
    + split; [|eauto]. intros _. exists pat. split; auto.
      apply (detectPattern_throws ctx acc pat). eauto.
Qed.

Lemma detectInText_throws (ctx : DetectionContext) :
  (exists e, detectInText' ctx = Throw e) <-> (exists p, failsToCompile p).
Proof. apply forEach_detectPattern_throws. Qed.

Lemma detectNode_throws (acc : list PIIMatch) (n : Text) :
  (exists e, detectNode' acc n = Throw e) <->
  scanned n = true /\ (exists p, failsToCompile p).
Proof.
  unfold detectNode, scanned.
  destruct (parentElement n) as [el|].
  2:{ split; [intros [e H]; discriminate | intros [H _]; discriminate]. }
  destruct (jslength (trim (nodeTextContent n)) =? 0); simpl.
  { split; [intros [e H]; discriminate | intros [H _]; discriminate]. }
  rewrite <- (detectInText_throws
                (buildDetectionContext toLowerCase el (nodeTextContent n))).
  destruct (detectInText' _) as [nm|e]; simpl.
  - split; [intros [e H]; discriminate | intros [_ [e H]]; discriminate].
  - split; eauto.
Qed.

Lemma forEach_detectNode_throws (textNodes : list Text)
      (acc : list PIIMatch) :
  (exists e, forEach detectNode' textNodes acc = Throw e) <->
  (exists n, In n textNodes /\ scanned n = true)
  /\ (exists p, failsToCompile p).
Proof.
  revert acc. induction textNodes as [|n ns IH]; intros acc; simpl.
  - split; [intros [e H]; discriminate | intros [[n [[] _]] _]].
  - destruct (detectNode' acc n) as [acc1|e1] eqn:Hn; simpl.
    + rewrite IH. split.
      * intros [[n' [Hin Hs]] Hp]. split; eauto.
      * intros [[n' [[<- | Hin] Hs]] Hp]; [|split; eauto].
        assert (Ht : exists e, detectNode' acc n = Throw e)
          by (apply detectNode_throws; auto).
        destruct Ht as [e Ht]. congruence.
    + split; [|eauto]. intros _.
      assert (Ht : exists e, detectNode' acc n = Throw e) by eauto.
      apply detectNode_throws in Ht. destruct Ht as [Hs Hp].
      split; eauto.
Qed.

Lemma detectPII_throws (textNodes : list Text) :
  (exists e, detectPII' textNodes = Throw e) <->
  (exists n, In n textNodes /\ scanned n = true)
  /\ (exists p, failsToCompile p).
Proof.
  rewrite <- (forEach_detectNode_throws textNodes []).
  unfold detectPII.
  destruct (forEach detectNode' textNodes []) as [raw|e]; simpl.
  - split; intros [e H]; discriminate.
  - split; eauto.
Qed.

(** *** When nothing is found *)

Lemma forEach_detectPattern_nothing (ctx : DetectionContext)
      (pats : list PIIPattern) (acc : list PIIMatch) :
  (forall p, In p pats -> enabled p = true ->
             exists re, RegExp_new (pattern p) = Some re
                        /\ matchAll re (textContent ctx) = []) ->
  forEach (detectPattern' ctx) pats acc = Ok acc.
Proof.
  induction pats as [|pat pats IH]; intros H; simpl; auto.
  assert (Hp : detectPattern' ctx acc pat = Ok acc).
  { unfold detectPattern. destruct (enabled pat) eqn:He; simpl; auto.
    destruct (H pat (or_introl eq_refl) He) as [re [-> ->]]. reflexivity. }
  rewrite Hp. simpl. apply IH. intros p Hin. apply H. right; exact Hin.
Qed.

Lemma forEach_detectNode_nothing (textNodes : list Text)
      (acc : list PIIMatch) :
  (forall p, In p (this_patterns this) -> enabled p = true ->
             exists re, RegExp_new (pattern p) = Some re
                        /\ forall n, In n textNodes -> scanned n = true ->
                                     matchAll re (nodeTextContent n) = []) ->
  forEach detectNode' textNodes acc = Ok acc.
Proof.
  induction textNodes as [|n ns IH]; intros H; simpl; auto.
  assert (Hn : detectNode' acc n = Ok acc).
  { unfold detectNode.
    destruct (parentElement n) as [el|] eqn:Hel; auto.
    destruct (jslength (trim (nodeTextContent n)) =? 0) eqn:Hz; auto.
    unfold detectInText. rewrite forEach_detectPattern_nothing.
    - simpl. rewrite app_nil_r. reflexivity.
    - intros p Hin He. destruct (H p Hin He) as [re [Hre Hm]].
      exists re. split; auto. simpl. apply Hm; [left; reflexivity|].
      unfold scanned. rewrite Hel, Hz. reflexivity. }
  rewrite Hn. simpl. apply IH.
  intros p Hin He. destruct (H p Hin He) as [re [Hre Hm]].
  exists re. split; auto. intros n' Hin'. apply Hm. right; exact Hin'.
Qed.

Lemma forEach_detectNode_unscanned (textNodes : list Text)
      (acc : list PIIMatch) :
  (forall n, In n textNodes -> scanned n = false) ->
  forEach detectNode' textNodes acc = Ok acc.
Proof.
  induction textNodes as [|n ns IH]; intros H; simpl; auto.
  assert (Hn : detectNode' acc n = Ok acc).
  { specialize (H n (or_introl eq_refl)). unfold scanned in H.
    unfold detectNode. destruct (parentElement n); auto.
    destruct (jslength (trim (nodeTextContent n)) =? 0); auto.
    discriminate. }
  rewrite Hn. simpl. apply IH. intros n' Hin. apply H. right; exact Hin.
Qed.

Lemma isLikelyPII_keyword (t c : jsstring) :
  PIIPatterns.isLikelyPII toLowerCase t c
  = hasContextKeyword (toLowerCase c).
Proof.
  unfold PIIPatterns.isLikelyPII, hasContextKeyword.
  rewrite existsb_app_or. reflexivity.
Qed.

Lemma highConfidence_In (ty : jsstring) :
  existsb (jseqb ty) highConfidenceElements = true
  <-> In ty highConfidenceElements.
Proof.
  rewrite existsb_exists. split.
  - intros [x [Hin Hx]]. apply jseqb_eq in Hx. subst. exact Hin.
  - intros Hin. exists ty. split; auto. apply jseqb_refl.
Qed.

(* ------------------------------------------------------------------ *)
(** *** Claims settled for every runtime *)

(** C3 (as amended): [detectPII] throws exactly when some node is scanned
    and some enabled pattern of the detector has a source that does not
    compile; in every other case it returns a list.  It returns the empty
    list when no node is scanned (no node, or only detached or blank
    ones), and when no enabled pattern has an occurrence in a scanned
    node. *)
Theorem detectPII_raises_exactly_on_compile_failure
        (textNodes : list Text) :
  ((exists e, detectPII' textNodes = Throw e) <->
   (exists n, In n textNodes /\ scanned n = true)
   /\ (exists p, failsToCompile p))
  /\ ((forall p, In p (this_patterns this) -> enabled p = true ->
                 RegExp_new (pattern p) <> None) ->
      exists ms, detectPII' textNodes = Ok ms)
  /\ ((forall n, In n textNodes -> scanned n = false) ->
      detectPII' textNodes = Ok [])
  /\ ((forall p, In p (this_patterns this) -> enabled p = true ->
                 exists re, RegExp_new (pattern p) = Some re
                            /\ forall n, In n textNodes ->
                                         scanned n = true ->
                                         matchAll re (nodeTextContent n)
                                         = []) ->
      detectPII' textNodes = Ok []).
Proof.
  split; [apply detectPII_throws|].
  split; [|split].
  - intros Hc. destruct (detectPII' textNodes) as [ms|e] eqn:Hd; eauto.
    assert (Ht : exists e, detectPII' textNodes = Throw e) by eauto.
    apply detectPII_throws in Ht.
    destruct Ht as [_ [p [Hin [He Hn]]]].
    exfalso. exact (Hc p Hin He Hn).
  - intros Hu. unfold detectPII.
    rewrite forEach_detectNode_unscanned by assumption. reflexivity.
  - intros Hn. unfold detectPII.
    rewrite forEach_detectNode_nothing by assumption. reflexivity.
Qed.

(** C5: a match of type creditCard whose digit-only content (hyphens and
    white space removed) is a 16-digit string failing the Luhn checksum is
    never in the list [detectPII] returns, whatever the nodes, the
    patterns and the sensitivity. *)
Theorem luhn_failing_card_never_reported
        (textNodes : list Text) (ms : list PIIMatch) (m : PIIMatch) :
  detectPII' textNodes = Ok ms ->
  type m = utf16 "creditCard" ->
  length (PIIPatterns.cleaned (text m)) = 16%nat ->
  forallb isDigit (PIIPatterns.cleaned (text m)) = true ->
  luhnValid (digitValues (PIIPatterns.cleaned (text m))) = false ->
  ~ In m ms.
Proof.
  intros Hd Hty Hlen Hdig Hluhn Hin.
  apply detectPII_valid in Hd.
  rewrite Forall_forall in Hd. specialize (Hd m Hin).
  unfold structurallyValid in Hd.
  rewrite Hty, isValidMatch_creditCard in Hd.
  unfold isValidCreditCard in Hd.
  destruct ((jslength (PIIPatterns.cleaned (text m)) <? 13)
            || (19 <? jslength (PIIPatterns.cleaned (text m))));
    [discriminate|].
  destruct (repeatedDigit (PIIPatterns.cleaned (text m))); [discriminate|].
  rewrite (luhnCheck_luhnValid _ Hdig) in Hd. congruence.
Qed.

(** What the detector reports as a credit card has, hyphens and white
    space removed, 13 to 19 digits and nothing else, and passes the
    checksum. *)
Lemma reported_card_passes_luhn
      (textNodes : list Text) (ms : list PIIMatch) (m : PIIMatch) :
  detectPII' textNodes = Ok ms ->
  In m ms ->
  type m = utf16 "creditCard" ->
  forallb isDigit (PIIPatterns.cleaned (text m)) = true
  /\ 13 <= jslength (PIIPatterns.cleaned (text m)) <= 19
  /\ luhnValid (digitValues (PIIPatterns.cleaned (text m))) = true.
Proof.
  intros Hd Hin Hty.
  apply detectPII_valid in Hd.
  rewrite Forall_forall in Hd. specialize (Hd m Hin).
  unfold structurallyValid in Hd.
  rewrite Hty, isValidMatch_creditCard in Hd.
  unfold isValidCreditCard in Hd.
  destruct (jslength (PIIPatterns.cleaned (text m)) <? 13) eqn:H13;
    [discriminate|].
  destruct (19 <? jslength (PIIPatterns.cleaned (text m))) eqn:H19;
    [discriminate|].
  simpl in Hd.
  destruct (repeatedDigit (PIIPatterns.cleaned (text m))); [discriminate|].
  pose proof (luhnCheck_digits _ Hd) as Hdig.
  rewrite (luhnCheck_luhnValid _ Hdig) in Hd.
  apply Z.ltb_ge in H13. apply Z.ltb_ge in H19. auto.
Qed.

(** C6 (as amended): at medium sensitivity a structurally valid candidate
    is accepted exactly when the form-context string is non-empty and holds
    a context keyword (after lowering), or the element type is one of
    input, textarea, span, div.  The nearby-sibling text is not consulted. *)
Theorem medium_accepts_on_form_keyword_or_element
        (matchText : jsstring) (pat : PIIPattern) (ctx : DetectionContext) :
  sensitivity (settings this) = medium ->
  isValidMatch matchText (name pat) = true ->
  (shouldIncludeMatch toLowerCase this matchText pat ctx = true <->
   (formContext ctx <> []
    /\ hasContextKeyword (toLowerCase (formContext ctx)) = true)
   \/ In (elementType ctx) highConfidenceElements).
Proof.
  intros Hs Hv. rewrite <- highConfidence_In.
  unfold shouldIncludeMatch. rewrite Hs, Hv.
  unfold isMediumConfidenceMatch. rewrite isLikelyPII_keyword.
  set (hc := existsb (jseqb (elementType ctx)) highConfidenceElements).
  destruct (formContext ctx) as [|c fc] eqn:Hf; simpl.
  - destruct hc.
    + split; auto.
    + split; [discriminate|]. intros [[H _]|H]; congruence.
  - destruct (hasContextKeyword (toLowerCase (c :: fc))); simpl.
    + split; auto. intros _. left. split; [discriminate | reflexivity].
    + destruct hc.
      * split; auto.
      * split; [discriminate|]. intros [[_ H]|H]; congruence.
Qed.

(** C10: a call of [detectPII] answers as the same call did before,
    whatever calls of [detectPII] the object served in between, as long as
    [updateSettings] was not called: the calls leave both fields of the
    object as they found them. *)
Theorem detectPII_repeatable
        (between : list call) (textNodes : list Text) :
  forallb isDetectCall between = true ->
  snd (invoke toLowerCase RegExp_new matchAll
              (fst (invokeAll toLowerCase RegExp_new matchAll this
                              (CallDetectPII textNodes :: between)))
              (CallDetectPII textNodes))
  = snd (invoke toLowerCase RegExp_new matchAll this
                (CallDetectPII textNodes))
  /\ fst (invokeAll toLowerCase RegExp_new matchAll this
                    (CallDetectPII textNodes :: between))
     = this.
Proof.
  intros H.
  assert (Hs : fst (invokeAll toLowerCase RegExp_new matchAll this
                              (CallDetectPII textNodes :: between))
               = this).
  { apply invokeAll_detect_calls. simpl. exact H. }
  split; [|exact Hs]. rewrite Hs. reflexivity.
Qed.

End DetectorFacts.

(* ================================================================== *)
(** ** Claims settled on the modelled runtime *)

Lemma shouldReplaceMatch_iff (existing newMatch : PIIMatch) :
  shouldReplaceMatch existing newMatch = true <->
  jslength (text existing) < jslength (text newMatch)
  \/ indexOf priorityOrder (type newMatch)
     < indexOf priorityOrder (type existing).
Proof.
  unfold shouldReplaceMatch.
  destruct (jslength (text existing) <? jslength (text newMatch)) eqn:Hl.
  - apply Z.ltb_lt in Hl. tauto.
  - apply Z.ltb_ge in Hl. rewrite Z.ltb_lt. lia.
Qed.

(** The shipped pattern sources all compile. *)
Lemma registry_patterns_compile :
  forallb (fun p => match regex_parse (pattern p) with
                    | Some _ => true
                    | None => false
                    end) PIIPatterns.getAllPatterns = true.
Proof. vm_compute. reflexivity. Qed.

(** C1 (the code departs from it): on "090-1234-5678" the candidates are
    the 13-character phone number and the overlapping 8-character postal
    code, and the detector reports the postal code: the shorter text is
    kept.  On "2001/01/01@b.co.jp" the candidates are an email and a birth
    date of the same length, and the detector reports the birth date: the
    type missing from the priority list wins the tie against a listed
    one. *)
Theorem shorter_and_unlisted_candidates_win :
  (Host.detectInText (registryDetector high)
                     (contextOf paragraph "090-1234-5678")
   = Ok [phoneCandidate; postalCandidate]
   /\ isOverlapping phoneCandidate postalCandidate = true
   /\ jslength (text postalCandidate) < jslength (text phoneCandidate)
   /\ Host.detectPII (registryDetector high) [phoneNode]
      = Ok [postalCandidate])
  /\ (Host.detectInText (registryDetector high)
                        (contextOf paragraph "2001/01/01@b.co.jp")
      = Ok [dateEmailCandidate; dateCandidate]
      /\ isOverlapping dateEmailCandidate dateCandidate = true
      /\ jslength (text dateCandidate) = jslength (text dateEmailCandidate)
      /\ indexOf priorityOrder (type dateEmailCandidate) = 2
      /\ indexOf priorityOrder (type dateCandidate) = -1
      /\ Host.detectPII (registryDetector high) [dateNode]
         = Ok [dateCandidate]).
Proof. vm_compute. repeat split; reflexivity. Qed.

(** C2 (the code departs from it): on "都a@b.co c@d.io市1" the address
    candidate replaces the first email it overlaps and stays next to the
    second email, which it overlaps too: the returned list holds two
    overlapping matches of one element. *)
Theorem overlapping_matches_survive :
  Host.detectInText (registryDetector high)
                    (contextOf paragraph "都a@b.co c@d.io市1")
  = Ok [firstEmailCandidate; secondEmailCandidate; addressCandidate]
  /\ Host.detectPII (registryDetector high) [addressNode]
     = Ok [addressCandidate; secondEmailCandidate]
  /\ same_element (element addressCandidate) (element secondEmailCandidate)
     = true
  /\ isOverlapping addressCandidate secondEmailCandidate = true
  /\ nonOverlapping [addressCandidate; secondEmailCandidate] = false.
Proof. vm_compute. repeat split; reflexivity. Qed.

(** C3 (as stated, refuted): with an enabled pattern whose source is an
    unclosed group, [detectPII] throws the compile error. *)
Lemma detectPII_raises_on_malformed_pattern :
  Host.detectPII (constructor brokenSettings) [contactNode]
  = Throw (SyntaxError (utf16 "(")).
Proof. vm_compute. reflexivity. Qed.

(** C4 (as stated, refuted): the match reported for the example does not
    end at offset 26. *)
Lemma contact_match_does_not_end_at_26 :
  ~ exists m, Host.detectPII (registryDetector high) [contactNode] = Ok [m]
              /\ contactMatchAsSpecified m.
Proof.
  intros [m [H [_ [_ [_ He]]]]].
  vm_compute in H. inversion H; subst. vm_compute in He. discriminate.
Qed.

(** C4 (as amended): for the node text "Contact: test@example.com", at
    high sensitivity with the registry's patterns, [detectPII] returns
    exactly one match: type email, text "test@example.com", [startIndex]
    9, exclusive [endIndex] 25. *)
Theorem contact_email_detected
        (toLowerCase : jsstring -> jsstring) (e : HTMLElement)
        (en rt : bool) (mts : list (jsstring * MaskingType)) :
  detectPII toLowerCase regex_parse regex_matchAll
            (constructor (mkSettings en mts [] rt high))
            [mkText (Some e) (utf16 "Contact: test@example.com")]
  = Ok [mkPIIMatch (utf16 "test@example.com") 9 25 (utf16 "email") e
                   (match lookup (utf16 "email") mts with
                    | Some t => t
                    | None => BLUR
                    end)].
Proof. vm_compute. reflexivity. Qed.

(** The same under the shipped [defaultSettings], whose own three patterns
    replace the registry's. *)
Lemma contact_email_detected_defaultSettings :
  Host.detectPII (constructor defaultSettings) [contactNode]
  = Ok [found paragraph "test@example.com" 9 "email" BLUR]
  /\ endIndex (found paragraph "test@example.com" 9 "email" BLUR) = 25.
Proof. vm_compute. split; reflexivity. Qed.

(** The comparator finds every neighbour pair of the interleaved matches
    in order, the pairs being of different elements. *)
Lemma interleaved_neighbours_compare_equal :
  ascendingRun compareMatches interleavedOutput.
Proof. vm_compute. repeat split; discriminate. Qed.

(** C7 (the code departs from it): for the three text nodes of
    [<p>mail: a@b.co<b>x@y.jp</b>c@d.io</p>] the returned list has the two
    matches of the paragraph apart, the one at 6 before the one at 0. *)
Theorem interleaved_nodes_stay_unsorted :
  Host.detectPII (registryDetector high) interleavedNodes
  = Ok interleavedOutput
  /\ map summary interleavedOutput
     = [(1%nat, 6, 12, utf16 "email"); (2%nat, 0, 6, utf16 "email");
        (1%nat, 0, 6, utf16 "email")]
  /\ groupedByElement interleavedOutput = false
  /\ ascendingWithinElement interleavedOutput = false.
Proof. vm_compute. repeat split; reflexivity. Qed.

(** C3: the amended statement at the settings with the unclosed group: a
    node is scanned and an enabled pattern fails to compile, so the call
    throws. *)
Lemma detectPII_raises_exactly_on_compile_failure_witness :
  exists e, Host.detectPII (constructor brokenSettings) [contactNode]
            = Throw e.
Proof.
  apply (proj1 (detectPII_raises_exactly_on_compile_failure
                  ascii_toLowerCase regex regex_parse regex_matchAll
                  (constructor brokenSettings) [contactNode])).
  split.
  - exists contactNode. split; [left; reflexivity | reflexivity].
  - exists unclosedGroup. split; [right; left; reflexivity|].
    split; reflexivity.
Defined.

(** C5 at a card number with a wrong check digit: the candidate is not
    reported (the twelve digits that read as a national identifier are). *)
Lemma luhn_failing_card_never_reported_witness :
  Host.detectPII (registryDetector high) [cardNode]
  = Ok [found paragraph "4111 1111 1111" 5 "myNumber" BLUR]
  /\ type badCardCandidate = utf16 "creditCard"
  /\ length (PIIPatterns.cleaned (text badCardCandidate)) = 16%nat
  /\ forallb isDigit (PIIPatterns.cleaned (text badCardCandidate)) = true
  /\ luhnValid (digitValues (PIIPatterns.cleaned (text badCardCandidate)))
     = false
  /\ ~ In badCardCandidate
          [found paragraph "4111 1111 1111" 5 "myNumber" BLUR].
Proof.
  repeat (split; [vm_compute; reflexivity|]).
  apply (luhn_failing_card_never_reported
           ascii_toLowerCase regex regex_parse regex_matchAll
           (registryDetector high) [cardNode]);
    vm_compute; reflexivity.
Defined.

(** C6 (as stated, refuted): a paragraph outside any form whose sibling
    reads "Email:" meets the condition as specified (the keyword is in the
    nearby text, the form context being absent), yet the valid candidate is
    rejected at medium sensitivity, and accepted at low. *)
Lemma medium_ignores_nearby_text :
  isValidMatch (utf16 "a@b.co") (name PIIPatterns.EMAIL) = true
  /\ formContext labelledContext = []
  /\ nearbyText labelledContext = utf16 "email: a@b.co"
  /\ mediumPolicyAsSpecified ascii_toLowerCase labelledContext = true
  /\ Host.shouldIncludeMatch (registryDetector medium) (utf16 "a@b.co")
                             PIIPatterns.EMAIL labelledContext = false
  /\ Host.shouldIncludeMatch (registryDetector low) (utf16 "a@b.co")
                             PIIPatterns.EMAIL labelledContext = true.
Proof. vm_compute. repeat split; reflexivity. Qed.

(** C6 at an element of a form whose label reads "Email". *)
Lemma medium_accepts_on_form_keyword_or_element_witness :
  sensitivity (settings (registryDetector medium)) = medium
  /\ isValidMatch (utf16 "a@b.co") (name PIIPatterns.EMAIL) = true
  /\ (shouldIncludeMatch ascii_toLowerCase (registryDetector medium)
                         (utf16 "a@b.co") PIIPatterns.EMAIL
                         formContextExample = true
      <-> (formContext formContextExample <> []
           /\ hasContextKeyword
                (ascii_toLowerCase (formContext formContextExample)) = true)
          \/ In (elementType formContextExample) highConfidenceElements).
Proof.
  split; [reflexivity|]. split; [vm_compute; reflexivity|].
  apply (medium_accepts_on_form_keyword_or_element
           ascii_toLowerCase (registryDetector medium));
    vm_compute; reflexivity.
Defined.

(** C10 at a detector that served another call in between. *)
Lemma detectPII_repeatable_witness :
  forallb isDetectCall [CallDetectPII interleavedNodes] = true
  /\ snd (invoke ascii_toLowerCase regex_parse regex_matchAll
                 (fst (invokeAll ascii_toLowerCase regex_parse
                                 regex_matchAll (registryDetector high)
                                 [CallDetectPII [contactNode];
                                  CallDetectPII interleavedNodes]))
                 (CallDetectPII [contactNode]))
     = snd (invoke ascii_toLowerCase regex_parse regex_matchAll
                   (registryDetector high) (CallDetectPII [contactNode])).
Proof.
  split; [reflexivity|].
  refine (proj1 (detectPII_repeatable ascii_toLowerCase regex regex_parse
                                      regex_matchAll (registryDetector high)
                                      [CallDetectPII interleavedNodes]
                                      [contactNode] _)).
  reflexivity.
Defined.

(** The condition of C10 is needed: after an [updateSettings] in between,
    here to low sensitivity, the same call answers otherwise. *)
Lemma detectPII_differs_after_updateSettings :
  snd (invoke ascii_toLowerCase regex_parse regex_matchAll
              (fst (invokeAll ascii_toLowerCase regex_parse regex_matchAll
                              (registryDetector high)
                              [CallDetectPII [contactNode];
                               CallUpdateSettings (registrySettings low)]))
              (CallDetectPII [contactNode]))
  <> snd (invoke ascii_toLowerCase regex_parse regex_matchAll
                 (registryDetector high) (CallDetectPII [contactNode])).
Proof. vm_compute. discriminate. Qed.

(* ------------------------------------------------------------------ *)
(** *** The coarse filter of the registry *)

Lemma filterFalsePositives_phone (matches : list jsstring) :
  PIIPatterns.filterFalsePositives matches (utf16 "phone")
  = filter (fun m => (10 <=? jslength (PIIPatterns.cleaned m))
                     && negb (startsWith (PIIPatterns.cleaned m)
                                         (utf16 "000")))
           matches.
Proof. reflexivity. Qed.

Lemma filterFalsePositives_japaneseName (matches : list jsstring) :
  PIIPatterns.filterFalsePositives matches (utf16 "japaneseName")
  = filter (fun m => (2 <=? jslength m) && (jslength m <=? 8)) matches.
Proof. reflexivity. Qed.

(** C8 (as stated, refuted): a candidate of twelve digits is kept, and one
    of ten digits that starts with three zeros, not four, is dropped. *)
Lemma phone_filter_differs_from_specified_rule :
  (In (utf16 "123456789012")
      (PIIPatterns.filterFalsePositives [utf16 "123456789012"]
                                        (utf16 "phone"))
   /\ phoneRuleAsSpecified (utf16 "123456789012") = false)
  /\ (~ In (utf16 "0001234567")
           (PIIPatterns.filterFalsePositives [utf16 "0001234567"]
                                             (utf16 "phone"))
      /\ phoneRuleAsSpecified (utf16 "0001234567") = true).
Proof.
  split; split.
  - vm_compute. left; reflexivity.
  - vm_compute. reflexivity.
  - vm_compute. intros H; exact H.
  - vm_compute. reflexivity.
Qed.

(** C8 (as amended): with type phone, [filterFalsePositives] keeps a
    candidate exactly when its form without hyphens and white space has
    length at least 10 and does not start with three zeros. *)
Theorem phone_filter_keeps (matches : list jsstring) (m : jsstring) :
  In m (PIIPatterns.filterFalsePositives matches (utf16 "phone")) <->
  In m matches
  /\ 10 <= jslength (PIIPatterns.cleaned m)
  /\ ~ (exists rest, PIIPatterns.cleaned m = utf16 "000" ++ rest).
Proof.
  rewrite filterFalsePositives_phone, filter_In, andb_true_iff.
  rewrite Z.leb_le, negb_true_iff, <- startsWith_app.
  destruct (startsWith (PIIPatterns.cleaned m) (utf16 "000"));
    intuition congruence.
Qed.

(** C9 (as stated, refuted): a two-letter Latin candidate is kept, and so
    is a single ideograph beyond the basic plane, one code point held in
    two code units. *)
Lemma name_filter_differs_from_specified_rule :
  (In (utf16 "ab")
      (PIIPatterns.filterFalsePositives [utf16 "ab"] (utf16 "japaneseName"))
   /\ nameRuleAsSpecified (utf16 "ab") = false)
  /\ (In (utf16 "𠀀")
         (PIIPatterns.filterFalsePositives [utf16 "𠀀"]
                                           (utf16 "japaneseName"))
      /\ codePoints (utf16 "𠀀") = [131072%N]
      /\ nameRuleAsSpecified (utf16 "𠀀") = false).
Proof.
  split; [split | split; [|split]]; vm_compute;
    try reflexivity; left; reflexivity.
Qed.

(** C9 (as amended): with type japaneseName, [filterFalsePositives] keeps
    a candidate exactly when its length, counted in UTF-16 code units, is
    between 2 and 8; the characters themselves are not examined. *)
Theorem name_filter_keeps (matches : list jsstring) (m : jsstring) :
  In m (PIIPatterns.filterFalsePositives matches (utf16 "japaneseName")) <->
  In m matches /\ 2 <= jslength m <= 8.
Proof.
  rewrite filterFalsePositives_japaneseName, filter_In, andb_true_iff.
  rewrite !Z.leb_le. tauto.
Qed.

(* ================================================================== *)
(** ** Further facts: the checksum *)

Lemma luhnTerm_range (b : bool) (d : Z) :
  0 <= d <= 9 -> 0 <= luhnTerm b d <= 9.
Proof.
  intros H. unfold luhnTerm. destruct b; [|lia].
  destruct (9 <? 2 * d) eqn:E;
    [apply Z.ltb_lt in E | apply Z.ltb_ge in E]; lia.
Qed.

Lemma luhnTerm_injective (b : bool) (d d' : Z) :
  0 <= d <= 9 -> 0 <= d' <= 9 -> luhnTerm b d = luhnTerm b d' -> d = d'.
Proof.
  intros H H'. unfold luhnTerm. destruct b; [|lia].
  destruct (9 <? 2 * d) eqn:E; destruct (9 <? 2 * d') eqn:E';
    try apply Z.ltb_lt in E; try apply Z.ltb_ge in E;
    try apply Z.ltb_lt in E'; try apply Z.ltb_ge in E'; lia.
Qed.

Lemma luhnTotal_middle (l1 l2 : list Z) (b : bool) :
  exists b' A, forall d,
      luhnTotal (l1 ++ d :: l2) b = A + luhnTerm b' d.
Proof.
  revert b. induction l1 as [|x l1 IH]; intros b; simpl.
  - exists b, (luhnTotal l2 (negb b)). intros d. lia.
  - destruct (IH (negb b)) as [b' [A HA]].
    exists b', (luhnTerm b x + A). intros d. rewrite HA. lia.
Qed.

Lemma digitValues_range (s : jsstring) :
  forallb isDigit s = true -> Forall (fun d => 0 <= d <= 9) (digitValues s).
Proof.
  intros H. unfold digitValues. apply Forall_map.
  apply Forall_forall. intros c Hc.
  rewrite forallb_forall in H. specialize (H c Hc).
  unfold isDigit in H. apply andb_true_iff in H. destruct H as [H1 H2].
  apply N.leb_le in H1. apply N.leb_le in H2. lia.
Qed.

Lemma isDigit_value (c : N) :
  isDigit c = true -> 0 <= Z.of_N c - 48 <= 9.
Proof.
  unfold isDigit. intros H. apply andb_true_iff in H. destruct H as [H1 H2].
  apply N.leb_le in H1. apply N.leb_le in H2. lia.
Qed.

(** X1: a digit string that passes the checksum fails it after any one
    of its digits is replaced by another digit. *)
Theorem luhnCheck_detects_substitution (s s' : jsstring) :
  forallb isDigit s = true ->
  forallb isDigit s' = true ->
  substituted s s' ->
  luhnCheck s = true ->
  luhnCheck s' = false.
Proof.
  intros Hs Hs' [pre [c [c' [post [E [E' Hne]]]]]] Hv.
  rewrite (luhnCheck_luhnValid _ Hs) in Hv.
  rewrite (luhnCheck_luhnValid _ Hs').
  destruct (luhnValid (digitValues s')) eqn:Hv'; [|reflexivity].
  exfalso. subst s s'.
  rewrite forallb_app in Hs, Hs'. simpl in Hs, Hs'.
  apply andb_true_iff in Hs. destruct Hs as [_ Hs].
  apply andb_true_iff in Hs. destruct Hs as [Hc _].
  apply andb_true_iff in Hs'. destruct Hs' as [_ Hs'].
  apply andb_true_iff in Hs'. destruct Hs' as [Hc' _].
  unfold luhnValid, digitValues in Hv, Hv'.
  rewrite map_app, rev_app_distr in Hv, Hv'. simpl in Hv, Hv'.
  rewrite <- app_assoc in Hv, Hv'. simpl in Hv, Hv'.
  destruct (luhnTotal_middle
              (rev (map (fun c => Z.of_N c - 48) post))
              (rev (map (fun c => Z.of_N c - 48) pre)) false)
    as [b [A HA]].
  rewrite HA in Hv, Hv'.
  apply Z.eqb_eq in Hv. apply Z.eqb_eq in Hv'.
  pose proof (luhnTerm_range b _ (isDigit_value _ Hc)) as R.
  pose proof (luhnTerm_range b _ (isDigit_value _ Hc')) as R'.
  assert (Ht : luhnTerm b (Z.of_N c - 48) = luhnTerm b (Z.of_N c' - 48)).
  { Z.div_mod_to_equations. lia. }
  apply luhnTerm_injective in Ht;
    [| apply isDigit_value; assumption | apply isDigit_value; assumption].
  apply Hne. lia.
Qed.

Lemma luhnCheck_snoc (s : jsstring) (c : N) :
  forallb isDigit s = true -> isDigit c = true ->
  luhnCheck (s ++ [c])
  = ((Z.of_N c - 48 + luhnTotal (rev (digitValues s)) true) mod 10 =? 0).
Proof.
  intros Hs Hc.
  rewrite luhnCheck_luhnValid
    by (rewrite forallb_app; simpl; rewrite Hs, Hc; reflexivity).
  unfold luhnValid, digitValues. rewrite map_app, rev_app_distr.
  simpl. reflexivity.
Qed.

(** X2: for every digit string there is exactly one digit that, appended,
    makes [luhnCheck] pass. *)
Theorem luhn_check_digit_unique (s : jsstring) :
  forallb isDigit s = true ->
  isDigit (luhnCheckDigit s) = true
  /\ luhnCheck (s ++ [luhnCheckDigit s]) = true
  /\ forall c, isDigit c = true -> luhnCheck (s ++ [c]) = true ->
               c = luhnCheckDigit s.
Proof.
  intros Hs.
  set (T := luhnTotal (rev (digitValues s)) true).
  assert (Hd : isDigit (luhnCheckDigit s) = true).
  { unfold luhnCheckDigit, isDigit. fold T.
    apply andb_true_iff. split; apply N.leb_le.
    - lia.
    - assert (0 <= (10 - T mod 10) mod 10 < 10)
        by (apply Z.mod_pos_bound; lia).
      lia. }
  assert (Hval : Z.of_N (luhnCheckDigit s) - 48 = (10 - T mod 10) mod 10).
  { unfold luhnCheckDigit. fold T.
    assert (0 <= (10 - T mod 10) mod 10 < 10)
      by (apply Z.mod_pos_bound; lia).
    rewrite N2Z.inj_add, Z2N.id by lia. lia. }
  split; [exact Hd|]. split.
  - rewrite (luhnCheck_snoc _ _ Hs Hd). fold T. rewrite Hval.
    apply Z.eqb_eq. Z.div_mod_to_equations. lia.
  - intros c Hc Hv. rewrite (luhnCheck_snoc _ _ Hs Hc) in Hv. fold T in Hv.
    apply Z.eqb_eq in Hv.
    pose proof (isDigit_value _ Hc) as R.
    assert (Z.of_N c - 48 = Z.of_N (luhnCheckDigit s) - 48).
    { rewrite Hval. Z.div_mod_to_equations. lia. }
    lia.
Qed.

(* ================================================================== *)
(** ** Further facts: the structural validators *)

Lemma split_not_nil (sep : N) (s : jsstring) : split sep s <> [].
Proof.
  destruct s as [|c s]; simpl; [discriminate|].
  destruct (N.eqb c sep); [discriminate|].
  destruct (split sep s); discriminate.
Qed.

Lemma split_cons_inv (sep : N) (s p : jsstring) (ps : list jsstring) :
  split sep s = p :: ps ->
  ~ In sep p
  /\ ((ps = [] /\ s = p)
      \/ exists rest, s = p ++ sep :: rest /\ split sep rest = ps).
Proof.
  revert p ps. induction s as [|c s IH]; intros p ps H; simpl in H.
  - inversion H; subst. split; auto.
  - destruct (N.eqb c sep) eqn:E.
    + apply N.eqb_eq in E. subst c. inversion H; subst.
      split; auto. right. exists s. auto.
    + apply N.eqb_neq in E.
      destruct (split sep s) as [|q qs] eqn:Hq;
        [exfalso; eapply split_not_nil; eauto|].
      inversion H; subst.
      destruct (IH q ps eq_refl) as [Hn Hc].
      split; [simpl; intros [Hx | Hx]; [congruence | auto]|].
      destruct Hc as [[-> ->] | [rest [-> Hr]]].
      * left. auto.
      * right. exists rest. auto.
Qed.

Lemma split_single (sep : N) (p : jsstring) :
  ~ In sep p -> split sep p = [p].
Proof.
  induction p as [|c p IH]; intros H; simpl; auto.
  destruct (N.eqb c sep) eqn:E.
  - apply N.eqb_eq in E. subst. exfalso. apply H. left; reflexivity.
  - rewrite IH; [reflexivity|]. intros Hin. apply H. right; exact Hin.
Qed.

Lemma split_app (sep : N) (p rest : jsstring) :
  ~ In sep p -> split sep (p ++ sep :: rest) = p :: split sep rest.
Proof.
  induction p as [|c p IH]; intros H; simpl.
  - rewrite N.eqb_refl. reflexivity.
  - destruct (N.eqb c sep) eqn:E.
    + apply N.eqb_eq in E. subst. exfalso. apply H. left; reflexivity.
    + rewrite IH; [reflexivity|]. intros Hin. apply H. right; exact Hin.
Qed.

Lemma startsWith_nil (s : jsstring) : startsWith s [] = true.
Proof. destruct s; reflexivity. Qed.

Lemma includes_single (s : jsstring) (c : N) :
  includes s [c] = true <-> In c s.
Proof.
  induction s as [|x s IH].
  - simpl. split; [discriminate | contradiction].
  - change (includes (x :: s) [c])
      with ((N.eqb x c && startsWith s []) || includes s [c]).
    rewrite startsWith_nil, andb_true_r, orb_true_iff, IH, N.eqb_eq.
    simpl. tauto.
Qed.

Lemma jslength_pos (s : jsstring) : (0 <? jslength s) = true <-> s <> [].
Proof.
  unfold jslength. destruct s; simpl.
  - split; [discriminate | congruence].
  - split; [discriminate | intros _; apply Z.ltb_lt; lia].
Qed.

Lemma isValidEmail_spec (email : jsstring) :
  isValidEmail email = true <->
  exists local domain,
    email = local ++ 64%N :: domain
    /\ ~ In 64%N local /\ ~ In 64%N domain
    /\ local <> [] /\ domain <> [] /\ In 46%N domain.
Proof.
  unfold isValidEmail. split.
  - destruct (split 64 email) as [|l [|d [|x xs]]] eqn:Hs; try discriminate.
    intros H. apply andb_true_iff in H. destruct H as [H Hdot].
    apply andb_true_iff in H. destruct H as [Hl Hd].
    apply jslength_pos in Hl. apply jslength_pos in Hd.
    change (utf16 ".") with [46%N] in Hdot. apply includes_single in Hdot.
    destruct (split_cons_inv _ _ _ _ Hs) as [Hnl [[Hc _] | [rest [-> Hr]]]];
      [discriminate|].
    destruct (split_cons_inv _ _ _ _ Hr) as [Hnd [[_ ->] | [r2 [_ Hr2]]]].
    + exists l, d. repeat split; auto.
    + exfalso. eapply split_not_nil; eauto.
  - intros [l [d [-> [Hnl [Hnd [Hl [Hd Hdot]]]]]]].
    rewrite split_app by assumption. rewrite split_single by assumption.
    apply jslength_pos in Hl. apply jslength_pos in Hd.
    change (utf16 ".") with [46%N]. apply includes_single in Hdot.
    rewrite Hl, Hd, Hdot. reflexivity.
Qed.

(** X3: [isValidEmail] accepts exactly the strings with a single "@", a
    non-empty local part before it and after it a non-empty domain part
    that holds a full stop. *)
Theorem isValidEmail_iff (email : jsstring) :
  isValidEmail email = true <->
  exists local domain,
    email = local ++ 64%N :: domain
    /\ ~ In 64%N local /\ ~ In 64%N domain
    /\ local <> [] /\ domain <> [] /\ In 46%N domain.
Proof. apply isValidEmail_spec. Qed.

Lemma isValidPhone_spec (phone : jsstring) :
  isValidPhone phone = true <->
  10 <= jslength (PIIPatterns.cleaned phone) <= 11
  /\ ~ (exists rest, PIIPatterns.cleaned phone = utf16 "0000" ++ rest).
Proof.
  unfold isValidPhone. rewrite <- startsWith_app.
  set (c := PIIPatterns.cleaned phone).
  destruct (jslength c <? 10) eqn:H10; simpl.
  { apply Z.ltb_lt in H10. split; [discriminate | lia]. }
  destruct (11 <? jslength c) eqn:H11; simpl.
  { apply Z.ltb_lt in H11. split; [discriminate | lia]. }
  apply Z.ltb_ge in H10. apply Z.ltb_ge in H11.
  destruct (startsWith c (utf16 "0000")) eqn:Hs; simpl.
  { split; [discriminate | intros [_ H]; exfalso; apply H; reflexivity]. }
  destruct (jseqb c (utf16 "0000000000")) eqn:Hz.
  { exfalso. apply jseqb_eq in Hz.
    assert (Hx : startsWith c (utf16 "0000") = true)
      by (rewrite Hz; reflexivity).
    congruence. }
  split; [intros _; split; [lia | congruence] | reflexivity].
Qed.

(** X4: [isValidPhone] accepts exactly the candidates that, hyphens and
    white space removed, have 10 or 11 code units and do not start with
    four zeros; its separate test for ten zeros rejects nothing more. *)
Theorem isValidPhone_iff (phone : jsstring) :
  isValidPhone phone = true <->
  10 <= jslength (PIIPatterns.cleaned phone) <= 11
  /\ ~ (exists rest, PIIPatterns.cleaned phone = utf16 "0000" ++ rest).
Proof. apply isValidPhone_spec. Qed.

Lemma cleaned_idempotent (s : jsstring) :
  PIIPatterns.cleaned (PIIPatterns.cleaned s) = PIIPatterns.cleaned s.
Proof.
  unfold PIIPatterns.cleaned. induction s as [|c s IH]; simpl; auto.
  destruct (negb ((c =? 45)%N || isWhiteSpace c)) eqn:E; simpl; auto.
  rewrite E, IH. reflexivity.
Qed.

Lemma cleaned_app (a b : jsstring) :
  PIIPatterns.cleaned (a ++ b)
  = PIIPatterns.cleaned a ++ PIIPatterns.cleaned b.
Proof. apply filter_app. Qed.

(** X5: putting a hyphen or a white-space character anywhere into a
    candidate changes the verdict of neither [isValidPhone] nor
    [isValidCreditCard]. *)
Theorem validators_ignore_separators (a b : jsstring) (c : N) :
  c = 45%N \/ isWhiteSpace c = true ->
  isValidPhone (a ++ c :: b) = isValidPhone (a ++ b)
  /\ isValidCreditCard (a ++ c :: b) = isValidCreditCard (a ++ b).
Proof.
  intros Hc.
  assert (H : PIIPatterns.cleaned (a ++ c :: b)
              = PIIPatterns.cleaned (a ++ b)).
  { rewrite !cleaned_app. f_equal. unfold PIIPatterns.cleaned. simpl.
    destruct Hc as [-> | Hw]; [reflexivity|].
    rewrite Hw, orb_true_r. reflexivity. }
  unfold isValidPhone, isValidCreditCard. rewrite H. auto.
Qed.

(* ================================================================== *)
(** ** Further facts: overlap *)

(** X6: two matches that each span at least one position overlap, in the
    sense of [isOverlapping], exactly when some position lies in both
    intervals; the test does not depend on the order of the two. *)
Theorem isOverlapping_shared_position (a b : PIIMatch) :
  startIndex a < endIndex a ->
  startIndex b < endIndex b ->
  isOverlapping a b = isOverlapping b a
  /\ (isOverlapping a b = true <->
      exists i, startIndex a <= i < endIndex a
                /\ startIndex b <= i < endIndex b).
Proof.
  intros Ha Hb. unfold isOverlapping. split.
  - f_equal. apply orb_comm.
  - rewrite negb_true_iff, orb_false_iff, !Z.leb_gt. split.
    + intros [H1 H2]. exists (Z.max (startIndex a) (startIndex b)). lia.
    + intros [i Hi]. lia.
Qed.

(* ================================================================== *)
(** ** Further facts: overlap resolution and the sort *)

Lemma same_element_eq (a b : HTMLElement) :
  same_element a b = true <-> elementId a = elementId b.
Proof. unfold same_element. apply Nat.eqb_eq. Qed.

Lemma find_findIndex {A : Type} (p : A -> bool) (l : list A) (x : A) :
  find p l = Some x ->
  exists i, findIndex p l = Some i /\ nth_error l i = Some x /\ p x = true.
Proof.
  induction l as [|y l IH]; simpl; [discriminate|].
  destruct (p y) eqn:E.
  - intros H. inversion H; subst. exists O. auto.
  - intros H. destruct (IH H) as [i [Hi [Hn Hp]]].
    exists (S i). rewrite Hi. auto.
Qed.

Lemma find_none_forall {A : Type} (p : A -> bool) (l : list A) :
  find p l = None <-> forallb (fun x => negb (p x)) l = true.
Proof.
  induction l as [|y l IH]; simpl; [tauto|].
  destruct (p y); simpl; [split; discriminate | exact IH].
Qed.

Lemma length_assign {A : Type} (l : list A) (i : nat) (v : A) :
  length (assign l i v) = length l.
Proof.
  revert i. induction l as [|y l IH]; intros [|i]; simpl; auto.
Qed.

Lemma elementIds_assign (l : list PIIMatch) (i : nat) (x m : PIIMatch) :
  nth_error l i = Some x ->
  elementId (element x) = elementId (element m) ->
  elementIds (assign l i m) = elementIds l.
Proof.
  revert i. induction l as [|y l IH]; intros [|i] Hn He; simpl in *;
    try discriminate.
  - inversion Hn; subst. rewrite He. reflexivity.
  - f_equal. eapply IH; eauto.
Qed.

(** A round either keeps the sequence of elements, the element of the new
    match being present already, or appends it. *)
Lemma removeDuplicateStep_elements (res : list PIIMatch) (m : PIIMatch) :
  (elementIds (removeDuplicateStep res m) = elementIds res
   /\ length (removeDuplicateStep res m) = length res
   /\ In (elementId (element m)) (elementIds res))
  \/ removeDuplicateStep res m = res ++ [m].
Proof.
  unfold removeDuplicateStep.
  destruct (find _ res) as [ov|] eqn:Hf; [|right; reflexivity].
  left. destruct (find_findIndex _ _ _ Hf) as [i [Hi [Hn Hp]]].
  apply andb_true_iff in Hp. destruct Hp as [Hs _].
  apply same_element_eq in Hs.
  assert (Hin : In (elementId (element m)) (elementIds res)).
  { rewrite <- Hs. unfold elementIds.
    apply in_map with (f := fun m => elementId (element m)).
    eapply nth_error_In; eauto. }
  destruct (shouldReplaceMatch ov m); [|auto].
  rewrite Hi. split; [|split; auto].
  - eapply elementIds_assign; eauto.
  - apply length_assign.
Qed.

Lemma removeDuplicate_fold_elements (ms acc : list PIIMatch) :
  (length (fold_left removeDuplicateStep ms acc)
   <= length acc + length ms)%nat
  /\ (length acc <= length (fold_left removeDuplicateStep ms acc))%nat
  /\ forall id, In id (elementIds (fold_left removeDuplicateStep ms acc))
                <-> In id (elementIds acc) \/ In id (elementIds ms).
Proof.
  revert acc. induction ms as [|m ms IH]; intros acc; simpl.
  - split; [lia|]. split; [lia|]. intros id. tauto.
  - destruct (IH (removeDuplicateStep acc m)) as [H1 [H2 H3]].
    destruct (removeDuplicateStep_elements acc m) as [[He [Hl Hin]] | Hp].
    + rewrite Hl in H1, H2. split; [lia|]. split; [lia|].
      intros id. rewrite H3, He. split.
      * intros [H | H]; auto.
      * intros [H | [<- | H]]; auto.
    + rewrite Hp in *. rewrite length_app in H1, H2. simpl in H1, H2.
      split; [lia|]. split; [lia|].
      intros id. rewrite H3. unfold elementIds at 1.
      rewrite map_app, in_app_iff. simpl. tauto.
Qed.

Lemma elementIds_removeDuplicateMatches (ms : list PIIMatch) (id : nat) :
  In id (elementIds (removeDuplicateMatches ms)) <-> In id (elementIds ms).
Proof.
  unfold removeDuplicateMatches.
  destruct (removeDuplicate_fold_elements ms []) as [_ [_ H3]].
  rewrite H3. simpl. tauto.
Qed.

(** X7: overlap resolution returns matches it was given, no more than it
    was given, and at least one for every element that had one: an element
    with a candidate never loses all of them. *)
Theorem removeDuplicateMatches_keeps_every_element (ms : list PIIMatch) :
  (forall m, In m (removeDuplicateMatches ms) -> In m ms)
  /\ (length (removeDuplicateMatches ms) <= length ms)%nat
  /\ (forall id, In id (elementIds (removeDuplicateMatches ms))
                 <-> In id (elementIds ms)).
Proof.
  split; [intros m; apply In_removeDuplicateMatches|].
  unfold removeDuplicateMatches.
  destruct (removeDuplicate_fold_elements ms []) as [H1 [_ H3]].
  split; [simpl in H1; lia|].
  intros id. rewrite H3. simpl. tauto.
Qed.

Lemma nonOverlapping_snoc (acc : list PIIMatch) (x : PIIMatch)
      (l : list PIIMatch) :
  nonOverlapping (acc ++ x :: l) = true ->
  forallb (fun y => negb (same_element (element y) (element x)
                          && isOverlapping y x)) acc = true.
Proof.
  induction acc as [|a acc IH]; simpl; auto.
  intros H. apply andb_true_iff in H. destruct H as [Ha Hr].
  rewrite forallb_app in Ha. apply andb_true_iff in Ha.
  destruct Ha as [_ Ha]. simpl in Ha.
  apply andb_true_iff in Ha. destruct Ha as [Hax _].
  rewrite Hax. simpl. apply IH. exact Hr.
Qed.

Lemma removeDuplicate_fold_disjoint (l acc : list PIIMatch) :
  nonOverlapping (acc ++ l) = true ->
  fold_left removeDuplicateStep l acc = acc ++ l.
Proof.
  revert acc. induction l as [|x l IH]; intros acc H; simpl.
  - rewrite app_nil_r. reflexivity.
  - assert (Hs : removeDuplicateStep acc x = acc ++ [x]).
    { unfold removeDuplicateStep.
      pose proof (nonOverlapping_snoc _ _ _ H) as Hn.
      apply find_none_forall in Hn. rewrite Hn. reflexivity. }
    rewrite Hs, IH; rewrite <- app_assoc; simpl; auto.
Qed.

(** X8: candidates of which no two of one element intersect all pass
    overlap resolution, in their order. *)
Theorem removeDuplicateMatches_keeps_disjoint (ms : list PIIMatch) :
  nonOverlapping ms = true -> removeDuplicateMatches ms = ms.
Proof.
  intros H. unfold removeDuplicateMatches.
  apply (removeDuplicate_fold_disjoint ms []). exact H.
Qed.

Lemma compareMatches_pos (y x : PIIMatch) :
  0 < compareMatches y x ->
  elementId (element y) = elementId (element x)
  /\ startIndex x < startIndex y.
Proof.
  unfold compareMatches.
  destruct (same_element (element y) (element x)) eqn:E; simpl; [|lia].
  apply same_element_eq in E. lia.
Qed.

Lemma elementIds_sort_insert (x : PIIMatch) (acc : list PIIMatch) :
  elementIds (sort_insert compareMatches x acc)
  = elementId (element x) :: elementIds acc.
Proof.
  induction acc as [|y ys IH]; simpl; auto.
  destruct (0 <? compareMatches y x) eqn:E; simpl; auto.
  apply Z.ltb_lt in E. apply compareMatches_pos in E.
  rewrite IH. destruct E as [-> _]. reflexivity.
Qed.

Lemma elementIds_sort_fold (l acc : list PIIMatch) :
  elementIds (fold_left (fun a x => sort_insert compareMatches x a) l acc)
  = rev (elementIds l) ++ elementIds acc.
Proof.
  revert acc. induction l as [|x l IH]; intros acc; simpl; auto.
  rewrite IH, elementIds_sort_insert, <- app_assoc. reflexivity.
Qed.

Lemma elementIds_rev (l : list PIIMatch) :
  elementIds (rev l) = rev (elementIds l).
Proof. unfold elementIds. apply map_rev. Qed.

Lemma elementIds_postProcessMatches (ms : list PIIMatch) :
  elementIds (postProcessMatches ms)
  = elementIds (removeDuplicateMatches ms).
Proof.
  unfold postProcessMatches, Array_sort.
  rewrite elementIds_rev, elementIds_sort_fold. simpl.
  rewrite app_nil_r. apply rev_involutive.
Qed.


(* ================================================================== *)
(** ** Further facts: when the sort does sort *)

Lemma existsb_elementIds (i : nat) (ms : list PIIMatch) :
  existsb (Nat.eqb i) (elementIds ms)
  = existsb (fun x => Nat.eqb i (elementId (element x))) ms.
Proof.
  induction ms as [|m ms IH]; simpl; auto. rewrite IH. reflexivity.
Qed.

Lemma groupedByElement_ids (ms : list PIIMatch) :
  groupedByElement ms = groupedIds (elementIds ms).
Proof.
  induction ms as [|m ms IH]; auto.
  destruct ms as [|m' ms']; auto.
  change (groupedByElement (m :: m' :: ms'))
    with ((same_element (element m) (element m')
           || negb (existsb (fun x => same_element (element m) (element x))
                            (m' :: ms')))
          && groupedByElement (m' :: ms')).
  change (groupedIds (elementIds (m :: m' :: ms')))
    with ((Nat.eqb (elementId (element m)) (elementId (element m'))
           || negb (existsb (Nat.eqb (elementId (element m)))
                            (elementIds (m' :: ms'))))
          && groupedIds (elementIds (m' :: ms'))).
  rewrite IH, existsb_elementIds. reflexivity.
Qed.

Lemma existsb_eqb_In (i : nat) (l : list nat) :
  existsb (Nat.eqb i) l = true <-> In i l.
Proof.
  rewrite existsb_exists. split.
  - intros [x [Hin Hx]]. apply Nat.eqb_eq in Hx. subst. exact Hin.
  - intros Hin. exists i. split; auto. apply Nat.eqb_refl.
Qed.

Lemma groupedIds_cons (i : nat) (l : list nat) :
  groupedIds (i :: l) = true <->
  (match l with [] => True | j :: _ => i = j \/ ~ In i l end)
  /\ groupedIds l = true.
Proof.
  destruct l as [|j l'].
  - simpl. tauto.
  - change (groupedIds (i :: j :: l'))
      with ((Nat.eqb i j || negb (existsb (Nat.eqb i) (j :: l')))
            && groupedIds (j :: l')).
    rewrite andb_true_iff, orb_true_iff, Nat.eqb_eq, negb_true_iff.
    rewrite <- not_true_iff_false, existsb_eqb_In. tauto.
Qed.

Lemma groupedIds_tail (p l : list nat) :
  groupedIds (p ++ l) = true -> groupedIds l = true.
Proof.
  induction p as [|k p IH]; simpl app; auto.
  intros H. apply groupedIds_cons in H. apply IH. tauto.
Qed.

(** An element met again after another one breaks the grouping. *)
Lemma groupedIds_no_return (p : list nat) (j i : nat) (l : list nat) :
  groupedIds (p ++ j :: i :: l) = true -> In i p -> i <> j -> False.
Proof.
  induction p as [|k p IH]; intros H Hin Hne; [contradiction|].
  simpl app in H. apply groupedIds_cons in H. destruct H as [Hk Hg].
  destruct (Nat.eq_dec k i) as [->|Hki].
  - destruct p as [|q p'].
    + simpl in Hk. destruct Hk as [Hk | Hk]; [contradiction|].
      apply Hk. right. left. reflexivity.
    + simpl app in Hk. destruct Hk as [<- | Hk].
      * apply IH; auto. left; reflexivity.
      * apply Hk. right. rewrite in_app_iff. right. right. left.
        reflexivity.
  - destruct Hin as [Hin | Hin]; [contradiction|]. apply IH; auto.
Qed.

Lemma groupedIds_headRun (back : list nat) (i : nat) (l : list nat) :
  groupedIds (rev back ++ i :: l) = true -> headRun i back.
Proof.
  revert l. induction back as [|j back IH]; intros l H; simpl; auto.
  simpl rev in H. rewrite <- app_assoc in H. simpl app in H.
  destruct (Nat.eqb i j) eqn:E.
  - apply Nat.eqb_eq in E. subst j. eapply IH; eauto.
  - apply Nat.eqb_neq in E. intros [Hj | Hin]; [congruence|].
    apply (groupedIds_no_return (rev back) j i l); auto.
    apply in_rev in Hin. exact Hin.
Qed.

Lemma groupedIds_headRuns (back l : list nat) :
  groupedIds (rev back ++ l) = true -> headRuns back l.
Proof.
  revert back. induction l as [|i l IH]; intros back H; simpl; auto.
  split; [eapply groupedIds_headRun; eauto|].
  apply IH. simpl rev. rewrite <- app_assoc. exact H.
Qed.

Lemma compareMatches_nonpos (y x : PIIMatch) :
  compareMatches y x <= 0 ->
  elementId (element x) = elementId (element y) ->
  startIndex y <= startIndex x.
Proof.
  unfold compareMatches, same_element. intros H E.
  rewrite E, Nat.eqb_refl in H. simpl in H. lia.
Qed.

Lemma sort_insert_descending (x : PIIMatch) (back : list PIIMatch) :
  descendingWithinElement back ->
  headRun (elementId (element x)) (elementIds back) ->
  descendingWithinElement (sort_insert compareMatches x back).
Proof.
  induction back as [|y ys IH]; intros Hd Hr; simpl.
  - split; auto.
  - destruct Hd as [Hy Hys].
    destruct (0 <? compareMatches y x) eqn:E.
    + apply Z.ltb_lt in E. destruct (compareMatches_pos _ _ E) as [Hid Hlt].
      simpl in Hr. rewrite <- Hid, Nat.eqb_refl in Hr.
      simpl. split; [|apply IH; auto; rewrite <- Hid; exact Hr].
      eapply Permutation_Forall;
        [symmetry; apply sort_insert_perm|].
      constructor; [intros _; lia | exact Hy].
    + apply Z.ltb_ge in E. simpl. split; [|split; assumption].
      constructor.
      * intros Hid. apply compareMatches_nonpos; assumption.
      * apply Forall_forall. intros b Hb Hid.
        simpl in Hr.
        destruct (Nat.eqb (elementId (element x)) (elementId (element y)))
                 eqn:Exy.
        -- apply Nat.eqb_eq in Exy.
           rewrite Forall_forall in Hy.
           assert (startIndex b <= startIndex y)
             by (apply Hy; [exact Hb | congruence]).
           assert (startIndex y <= startIndex x)
             by (apply compareMatches_nonpos; assumption).
           lia.
        -- exfalso. apply Hr. right. rewrite Hid.
           unfold elementIds.
           apply in_map with (f := fun m => elementId (element m)).
           exact Hb.
Qed.

Lemma sort_fold_descending (l back : list PIIMatch) :
  descendingWithinElement back ->
  headRuns (elementIds back) (elementIds l) ->
  descendingWithinElement
    (fold_left (fun a x => sort_insert compareMatches x a) l back).
Proof.
  revert back. induction l as [|x l IH]; intros back Hd Hr; simpl; auto.
  destruct Hr as [Hx Hl]. apply IH.
  - apply sort_insert_descending; assumption.
  - rewrite elementIds_sort_insert. exact Hl.
Qed.

Lemma ascendingWithinElement_snoc (l : list PIIMatch) (a : PIIMatch) :
  ascendingWithinElement (l ++ [a]) = true <->
  ascendingWithinElement l = true
  /\ Forall (fun b => elementId (element a) = elementId (element b) ->
                      startIndex b <= startIndex a) l.
Proof.
  induction l as [|b l IH]; simpl.
  - split; auto.
  - rewrite !andb_true_iff, IH, forallb_app, andb_true_iff. simpl.
    rewrite andb_true_r, orb_true_iff, negb_true_iff, Z.leb_le.
    rewrite <- not_true_iff_false, same_element_eq.
    split.
    + intros [[Hf Hba] [Hl HF]]. split; [split; assumption|].
      constructor; [|exact HF]. intros E.
      destruct Hba as [Hba | Hba]; [congruence | exact Hba].
    + intros [[Hf Hl] HF]. inversion HF; subst.
      split; [split; [exact Hf|] | split; assumption].
      destruct (Nat.eq_dec (elementId (element b)) (elementId (element a)))
        as [E|E]; [right; auto | left; exact E].
Qed.

Lemma descending_rev_ascending (back : list PIIMatch) :
  descendingWithinElement back ->
  ascendingWithinElement (rev back) = true.
Proof.
  induction back as [|a back IH]; simpl; auto.
  intros [Ha Hb]. apply ascendingWithinElement_snoc. split; auto.
  apply Forall_rev. exact Ha.
Qed.

(** The sort, given matches that stand grouped by element, returns them
    grouped and, within each element, in ascending [startIndex]. *)
Lemma Array_sort_grouped (ms : list PIIMatch) :
  groupedByElement ms = true ->
  groupedByElement (Array_sort compareMatches ms) = true
  /\ ascendingWithinElement (Array_sort compareMatches ms) = true.
Proof.
  intros H. split.
  - rewrite groupedByElement_ids. unfold Array_sort.
    rewrite elementIds_rev, elementIds_sort_fold. simpl.
    rewrite app_nil_r, rev_involutive, <- groupedByElement_ids. exact H.
  - unfold Array_sort. apply descending_rev_ascending.
    apply sort_fold_descending; simpl; auto.
    apply groupedIds_headRuns. simpl.
    rewrite <- groupedByElement_ids. exact H.
Qed.

(** Dropping an element keeps a grouped sequence grouped. *)
Lemma groupedIds_remove (a : list nat) (x : nat) (b : list nat) :
  groupedIds (a ++ x :: b) = true -> groupedIds (a ++ b) = true.
Proof.
  induction a as [|k a IH]; intros H.
  - simpl in *. apply groupedIds_cons in H. tauto.
  - simpl app in *. apply groupedIds_cons in H. destruct H as [Hk Hg].
    apply groupedIds_cons. split; [|apply IH; exact Hg].
    destruct a as [|q a'].
    + simpl app in *. destruct b as [|c b']; auto.
      destruct Hk as [-> | Hk].
      * apply groupedIds_cons in Hg. destruct Hg as [Hg _]. exact Hg.
      * right. intros Hin. apply Hk. right. exact Hin.
    + simpl app in *. destruct Hk as [-> | Hk]; auto.
      right. intros Hin. apply Hk.
      destruct Hin as [-> | Hin]; [left; reflexivity|].
      right. rewrite in_app_iff in *. simpl. tauto.
Qed.

Lemma removeDuplicate_fold_grouped (l acc : list PIIMatch) :
  groupedIds (elementIds acc ++ elementIds l) = true ->
  groupedIds (elementIds (fold_left removeDuplicateStep l acc)) = true.
Proof.
  revert acc. induction l as [|m l IH]; intros acc H; simpl.
  - simpl in H. rewrite app_nil_r in H. exact H.
  - apply IH.
    destruct (removeDuplicateStep_elements acc m) as [[He _] | Hp].
    + rewrite He. simpl in H. eapply groupedIds_remove; eauto.
    + rewrite Hp. unfold elementIds at 1. rewrite map_app.
      rewrite <- app_assoc. exact H.
Qed.

(** X10: when the candidates stand grouped by element, as they do when
    no two text nodes with the same parent have another node between
    them, [postProcessMatches] returns the matches grouped by element and,
    within each element, in ascending [startIndex]. *)
Theorem postProcessMatches_sorts_grouped_input (ms : list PIIMatch) :
  groupedByElement ms = true ->
  groupedByElement (postProcessMatches ms) = true
  /\ ascendingWithinElement (postProcessMatches ms) = true.
Proof.
  intros H. unfold postProcessMatches. apply Array_sort_grouped.
  rewrite groupedByElement_ids. unfold removeDuplicateMatches.
  apply removeDuplicate_fold_grouped. simpl.
  rewrite <- groupedByElement_ids. exact H.
Qed.


(* ================================================================== *)
(** ** Further facts about the detector, for every runtime *)

Section DetectionFacts.

Variable toLowerCase : jsstring -> jsstring.
Variable RegExp : Type.
Variable RegExp_new : jsstring -> option RegExp.
Variable matchAll : RegExp -> jsstring -> list RegExpMatch.
Variable this : PIIDetector.

Local Abbreviation detectPattern' :=
  (detectPattern toLowerCase RegExp_new matchAll this).
Local Abbreviation detectInText' :=
  (detectInText toLowerCase RegExp_new matchAll this).
Local Abbreviation detectNode' :=
  (detectNode toLowerCase RegExp_new matchAll this).
Local Abbreviation detectPII' :=
  (detectPII toLowerCase RegExp_new matchAll this).
Local Abbreviation accepted' :=
  (acceptedOccurrences toLowerCase RegExp_new matchAll this).
Local Abbreviation candidates' :=
  (candidatesOfNode toLowerCase RegExp_new matchAll this).

Lemma pushMatch_fold (pat : PIIPattern) (ctx : DetectionContext)
      (rms : list RegExpMatch) (acc : list PIIMatch) :
  fold_left (pushMatch toLowerCase this pat ctx) rms acc
  = acc ++ map (toMatch this pat ctx)
               (filter (fun rm => shouldIncludeMatch toLowerCase this
                                                     (rm_text rm) pat ctx)
                       rms).
Proof.
  revert acc. induction rms as [|rm rms IH]; intros acc; simpl.
  - rewrite app_nil_r. reflexivity.
  - rewrite IH. unfold pushMatch.
    destruct (shouldIncludeMatch toLowerCase this (rm_text rm) pat ctx).
    + simpl. rewrite <- app_assoc. reflexivity.
    + reflexivity.
Qed.

Lemma detectPattern_accepted (ctx : DetectionContext)
      (acc acc' : list PIIMatch) (pat : PIIPattern) :
  detectPattern' ctx acc pat = Ok acc' -> acc' = acc ++ accepted' ctx pat.
Proof.
  unfold detectPattern, acceptedOccurrences.
  destruct (enabled pat); simpl.
  - destruct (RegExp_new (pattern pat)); intros H; inversion H.
    apply pushMatch_fold.
  - intros H; inversion H. rewrite app_nil_r. reflexivity.
Qed.

Lemma forEach_detectPattern_accepted (ctx : DetectionContext)
      (pats : list PIIPattern) (acc acc' : list PIIMatch) :
  forEach (detectPattern' ctx) pats acc = Ok acc' ->
  acc' = acc ++ flat_map (accepted' ctx) pats.
Proof.
  revert acc. induction pats as [|pat pats IH]; intros acc H; simpl in *.
  - inversion H. rewrite app_nil_r. reflexivity.
  - destruct (detectPattern' ctx acc pat) as [acc1|e] eqn:Hp; simpl in H;
      [|discriminate].
    apply detectPattern_accepted in Hp. apply IH in H.
    rewrite H, Hp, <- app_assoc. reflexivity.
Qed.

Lemma detectNode_candidates (acc acc' : list PIIMatch) (n : Text) :
  detectNode' acc n = Ok acc' -> acc' = acc ++ candidates' n.
Proof.
  unfold detectNode, candidatesOfNode, scanned.
  destruct (parentElement n) as [el|];
    [|intros H; inversion H; rewrite app_nil_r; reflexivity].
  destruct (jslength (trim (nodeTextContent n)) =? 0); simpl;
    [intros H; inversion H; rewrite app_nil_r; reflexivity|].
  destruct (detectInText' _) as [nm|e] eqn:Hd; simpl; [|discriminate].
  intros H. inversion H. f_equal.
  unfold detectInText in Hd.
  apply forEach_detectPattern_accepted in Hd. exact Hd.
Qed.

Lemma forEach_detectNode_candidates (textNodes : list Text)
      (acc acc' : list PIIMatch) :
  forEach detectNode' textNodes acc = Ok acc' ->
  acc' = acc ++ flat_map candidates' textNodes.
Proof.
  revert acc. induction textNodes as [|n ns IH]; intros acc H; simpl in *.
  - inversion H. rewrite app_nil_r. reflexivity.
  - destruct (detectNode' acc n) as [acc1|e] eqn:Hn; simpl in H;
      [|discriminate].
    apply detectNode_candidates in Hn. apply IH in H.
    rewrite H, Hn, <- app_assoc. reflexivity.
Qed.

Lemma detectPII_candidates (textNodes : list Text) (out : list PIIMatch) :
  detectPII' textNodes = Ok out ->
  out = postProcessMatches (flat_map candidates' textNodes).
Proof.
  unfold detectPII. intros H.
  destruct (forEach detectNode' textNodes []) as [raw|e] eqn:Hr;
    simpl in H; inversion H.
  apply forEach_detectNode_candidates in Hr. simpl in Hr. subst raw.
  reflexivity.
Qed.

(** X11: what [detectPII] returns is [postProcessMatches] of the
    candidates of the nodes, node after node and, within a node, pattern
    after pattern: the accepted occurrences in the order found. *)
Theorem detectPII_is_postProcess_of_candidates
        (textNodes : list Text) (out : list PIIMatch) :
  detectPII' textNodes = Ok out ->
  out = postProcessMatches (flat_map candidates' textNodes).
Proof. apply detectPII_candidates. Qed.

Lemma In_accepted (ctx : DetectionContext) (pat : PIIPattern)
      (m : PIIMatch) :
  In m (accepted' ctx pat) ->
  enabled pat = true
  /\ exists re rm,
      RegExp_new (pattern pat) = Some re
      /\ In rm (matchAll re (textContent ctx))
      /\ shouldIncludeMatch toLowerCase this (rm_text rm) pat ctx = true
      /\ m = toMatch this pat ctx rm.
Proof.
  unfold acceptedOccurrences.
  destruct (enabled pat); [|contradiction].
  destruct (RegExp_new (pattern pat)) as [re|]; [|contradiction].
  rewrite in_map_iff. intros [rm [Hm Hin]].
  apply filter_In in Hin. destruct Hin as [Hin Hs].
  split; auto. exists re, rm. auto.
Qed.

Lemma reported_match_origin
        (textNodes : list Text) (out : list PIIMatch) (m : PIIMatch) :
  detectPII' textNodes = Ok out ->
  In m out ->
  exists node el pat re rm,
    In node textNodes /\ scanned node = true
    /\ parentElement node = Some el /\ element m = el
    /\ In pat (this_patterns this) /\ enabled pat = true
    /\ RegExp_new (pattern pat) = Some re
    /\ In rm (matchAll re (nodeTextContent node))
    /\ shouldIncludeMatch toLowerCase this (rm_text rm) pat
         (buildDetectionContext toLowerCase el (nodeTextContent node))
       = true
    /\ text m = rm_text rm /\ startIndex m = rm_index rm
    /\ endIndex m = startIndex m + jslength (text m)
    /\ type m = name pat
    /\ (inheritedKey (type m) = false ->
        maskingType m = getMaskingType this (type m)).
Proof.
  intros Hd Hin.
  apply detectPII_candidates in Hd. subst out.
  apply In_postProcessMatches in Hin.
  apply in_flat_map in Hin. destruct Hin as [node [Hnode Hm]].
  unfold candidatesOfNode in Hm.
  destruct (parentElement node) as [el|] eqn:Hel; [|contradiction].
  destruct (scanned node) eqn:Hs; [|contradiction].
  apply in_flat_map in Hm. destruct Hm as [pat [Hpat Hm]].
  apply In_accepted in Hm.
  destruct Hm as [He [re [rm [Hre [Hrm [Hinc ->]]]]]].
  exists node, el, pat, re, rm. simpl in *.
  repeat split; auto.
Qed.

(** X12: every match [detectPII] returns stems from an occurrence of an
    enabled pattern of the detector in the text of a scanned node whose
    parent is the match's element; the occurrence passed both gates; the
    match carries the occurrence's index and text, ends at index plus
    length and is typed by the pattern's name; when that name is no key
    inherited from [Object.prototype], the match is masked as the
    settings' own entry for the name says, with BLUR when there is none. *)
Theorem reported_match_has_an_origin
        (textNodes : list Text) (out : list PIIMatch) (m : PIIMatch) :
  detectPII' textNodes = Ok out ->
  In m out ->
  exists node el pat re rm,
    In node textNodes /\ scanned node = true
    /\ parentElement node = Some el /\ element m = el
    /\ In pat (this_patterns this) /\ enabled pat = true
    /\ RegExp_new (pattern pat) = Some re
    /\ In rm (matchAll re (nodeTextContent node))
    /\ shouldIncludeMatch toLowerCase this (rm_text rm) pat
         (buildDetectionContext toLowerCase el (nodeTextContent node))
       = true
    /\ text m = rm_text rm /\ startIndex m = rm_index rm
    /\ endIndex m = startIndex m + jslength (text m)
    /\ type m = name pat
    /\ (inheritedKey (type m) = false ->
        maskingType m = getMaskingType this (type m)).
Proof. apply reported_match_origin. Qed.

Lemma detectNode_unscanned (acc : list PIIMatch) (n : Text) :
  scanned n = false -> detectNode' acc n = Ok acc.
Proof.
  unfold scanned, detectNode. destruct (parentElement n); auto.
  destruct (jslength (trim (nodeTextContent n)) =? 0); auto.
  discriminate.
Qed.

Lemma forEach_detectNode_filter (textNodes : list Text)
      (acc : list PIIMatch) :
  forEach detectNode' textNodes acc
  = forEach detectNode' (filter scanned textNodes) acc.
Proof.
  revert acc. induction textNodes as [|n ns IH]; intros acc; simpl; auto.
  destruct (scanned n) eqn:Hs; simpl.
  - destruct (detectNode' acc n); simpl; auto.
  - rewrite detectNode_unscanned by assumption. simpl. apply IH.
Qed.

(** X13: nodes without a parent element and nodes with blank text have
    no influence: [detectPII] answers as on the list without them, be it
    a result or the exception. *)
Theorem detectPII_ignores_unscanned_nodes (textNodes : list Text) :
  detectPII' textNodes = detectPII' (filter scanned textNodes).
Proof.
  unfold detectPII. rewrite forEach_detectNode_filter. reflexivity.
Qed.

Lemma elementIds_In (ms : list PIIMatch) (m : PIIMatch) :
  In m ms -> In (elementId (element m)) (elementIds ms).
Proof.
  intros H. unfold elementIds.
  apply in_map with (f := fun x => elementId (element x)). exact H.
Qed.

(** X14: an element in which some occurrence was accepted is not lost to
    overlap resolution: the list returned holds at least one match of that
    element. *)
Theorem element_with_candidate_is_reported
        (textNodes : list Text) (out : list PIIMatch) (node : Text)
        (c : PIIMatch) :
  detectPII' textNodes = Ok out ->
  In node textNodes ->
  In c (candidates' node) ->
  exists m, In m out
            /\ elementId (element m) = elementId (element c).
Proof.
  intros Hd Hnode Hc.
  apply detectPII_candidates in Hd. subst out.
  assert (Hraw : In c (flat_map candidates' textNodes))
    by (apply in_flat_map; eauto).
  apply elementIds_In in Hraw.
  rewrite <- elementIds_removeDuplicateMatches in Hraw.
  rewrite <- elementIds_postProcessMatches in Hraw.
  unfold elementIds in Hraw. apply in_map_iff in Hraw.
  destruct Hraw as [m [Hid Hm]]. exists m. auto.
Qed.

(** *** Grouped nodes give a sorted answer *)

Lemma candidates_element (n : Text) (el : HTMLElement) (m : PIIMatch) :
  parentElement n = Some el -> In m (candidates' n) -> element m = el.
Proof.
  unfold candidatesOfNode. intros ->.
  destruct (scanned n); [|contradiction].
  rewrite in_flat_map. intros [pat [_ Hm]].
  apply In_accepted in Hm.
  destruct Hm as [_ [re [rm [_ [_ [_ ->]]]]]]. reflexivity.
Qed.

Lemma candidates_unscanned (n : Text) :
  scanned n = false -> candidates' n = [].
Proof.
  unfold candidatesOfNode. intros ->.
  destruct (parentElement n); reflexivity.
Qed.

Lemma elementIds_candidates (n : Text) :
  elementIds (candidates' n)
  = repeat (parentId n) (length (candidates' n)).
Proof.
  unfold parentId.
  destruct (parentElement n) as [el|] eqn:Hel.
  - assert (H : Forall (fun m => element m = el) (candidates' n)).
    { apply Forall_forall. intros m. apply candidates_element. exact Hel. }
    induction H as [|m ms Hm _ IH]; simpl; auto.
    rewrite Hm, IH. reflexivity.
  - unfold candidatesOfNode. rewrite Hel. reflexivity.
Qed.

Lemma elementIds_app (a b : list PIIMatch) :
  elementIds (a ++ b) = elementIds a ++ elementIds b.
Proof. unfold elementIds. apply map_app. Qed.

Lemma elementIds_raw (textNodes : list Text) :
  elementIds (flat_map candidates' textNodes)
  = flat_map (fun n => repeat (parentId n) (length (candidates' n)))
             (filter scanned textNodes).
Proof.
  induction textNodes as [|n ns IH]; simpl; auto.
  rewrite elementIds_app, IH.
  destruct (scanned n) eqn:Hs; simpl.
  - rewrite elementIds_candidates. reflexivity.
  - rewrite candidates_unscanned by assumption. reflexivity.
Qed.

End DetectionFacts.

Lemma groupedIds_repeat (i k : nat) : groupedIds (repeat i k) = true.
Proof.
  induction k as [|k IH]; auto.
  simpl repeat. apply groupedIds_cons. split; auto.
  destruct k; simpl; auto.
Qed.

Lemma groupedIds_repeat_fresh (i k : nat) (rest : list nat) :
  groupedIds rest = true -> ~ In i rest ->
  groupedIds (repeat i k ++ rest) = true.
Proof.
  intros Hg Hn. induction k as [|k IH]; auto.
  simpl. apply groupedIds_cons. split; auto.
  destruct k as [|k']; simpl.
  - destruct rest; auto.
  - left; reflexivity.
Qed.

Lemma In_expand {A : Type} (f : A -> nat) (k : A -> nat) (l : list A)
      (i : nat) :
  In i (flat_map (fun x => repeat (f x) (k x)) l) -> In i (map f l).
Proof.
  rewrite in_flat_map, in_map_iff. intros [x [Hx Hi]].
  apply repeat_spec in Hi. eauto.
Qed.

Lemma groupedIds_expand {A : Type} (f : A -> nat) (k : A -> nat)
      (l : list A) (i n : nat) :
  groupedIds (i :: map f l) = true ->
  groupedIds (repeat i n ++ flat_map (fun x => repeat (f x) (k x)) l)
  = true.
Proof.
  revert i n. induction l as [|y l IH]; intros i n H.
  - simpl. rewrite app_nil_r. apply groupedIds_repeat.
  - simpl map in H. apply groupedIds_cons in H. destruct H as [Hi Hg].
    simpl flat_map. destruct Hi as [-> | Hi].
    + rewrite app_assoc, <- repeat_app. apply IH. exact Hg.
    + apply groupedIds_repeat_fresh.
      * apply IH. exact Hg.
      * intros Hin. apply Hi.
        rewrite in_app_iff in Hin. destruct Hin as [Hin | Hin].
        -- apply repeat_spec in Hin. left. auto.
        -- right. eapply In_expand; eauto.
Qed.

Lemma groupedIds_expand_all {A : Type} (f : A -> nat) (k : A -> nat)
      (l : list A) :
  groupedIds (map f l) = true ->
  groupedIds (flat_map (fun x => repeat (f x) (k x)) l) = true.
Proof.
  destruct l as [|y l]; auto. intros H.
  apply (groupedIds_expand f k l (f y) (k y)). exact H.
Qed.

Section DetectionOrder.

Variable toLowerCase : jsstring -> jsstring.
Variable RegExp : Type.
Variable RegExp_new : jsstring -> option RegExp.
Variable matchAll : RegExp -> jsstring -> list RegExpMatch.
Variable this : PIIDetector.

(** X15: when the scanned text nodes stand grouped by parent element (as
    when their parents are all different), [detectPII] returns the matches
    grouped by element and, within each element, in ascending
    [startIndex]. *)
Theorem detectPII_sorted_for_grouped_nodes
        (textNodes : list Text) (out : list PIIMatch) :
  detectPII toLowerCase RegExp_new matchAll this textNodes = Ok out ->
  groupedIds (map parentId (filter scanned textNodes)) = true ->
  groupedByElement out = true /\ ascendingWithinElement out = true.
Proof.
  intros Hd Hg. apply detectPII_candidates in Hd. subst out.
  apply Array_sort_grouped.
  rewrite groupedByElement_ids. unfold removeDuplicateMatches.
  apply removeDuplicate_fold_grouped. simpl.
  rewrite elementIds_raw. apply groupedIds_expand_all. exact Hg.
Qed.

(** X16: a detector that differs only in being set to high sensitivity
    has, in every node, every candidate the given detector has. *)
Theorem high_sensitivity_keeps_every_candidate
        (other : PIIDetector) (textNode : Text) (m : PIIMatch) :
  this_patterns other = this_patterns this ->
  maskingTypes (settings other) = maskingTypes (settings this) ->
  sensitivity (settings other) = high ->
  In m (candidatesOfNode toLowerCase RegExp_new matchAll this textNode) ->
  In m (candidatesOfNode toLowerCase RegExp_new matchAll other textNode).
Proof.
  intros Hp Hm Hs. unfold candidatesOfNode.
  destruct (parentElement textNode) as [el|]; auto.
  destruct (scanned textNode); auto.
  rewrite Hp, !in_flat_map. intros [pat [Hpat Hin]].
  exists pat. split; auto.
  unfold acceptedOccurrences in *.
  destruct (enabled pat); auto.
  destruct (RegExp_new (pattern pat)) as [re|]; auto.
  rewrite in_map_iff in *. destruct Hin as [rm [Hrm Hin]].
  exists rm. split.
  - rewrite <- Hrm. unfold toMatch, getMaskingType. rewrite Hm.
    reflexivity.
  - rewrite filter_In in *. destruct Hin as [Hin Hinc]. split; auto.
    apply shouldIncludeMatch_valid in Hinc.
    unfold shouldIncludeMatch. rewrite Hs, Hinc. reflexivity.
Qed.

End DetectionOrder.


(* ================================================================== *)
(** ** Further facts: the masking type of a type *)

Lemma inheritedKey_proto (key : jsstring) :
  inheritedKey key = false -> jseqb key (utf16 "__proto__") = false.
Proof.
  unfold inheritedKey, inheritedKeys. cbn [map existsb].
  rewrite !orb_false_iff. tauto.
Qed.

Lemma lookup_setProperty_same {V : Type} (key : jsstring) (v : V)
      (obj : list (jsstring * V)) :
  inheritedKey key = false ->
  lookup key (setProperty key v obj) = Some v.
Proof.
  intros Hk. apply inheritedKey_proto in Hk.
  induction obj as [|[k w] obj IH]; simpl.
  - rewrite Hk. simpl. rewrite jseqb_refl. reflexivity.
  - destruct (jseqb k key) eqn:E; simpl; rewrite E; auto.
Qed.

Lemma lookup_setProperty_other {V : Type} (key k' : jsstring) (v : V)
      (obj : list (jsstring * V)) :
  key <> k' -> lookup k' (setProperty key v obj) = lookup k' obj.
Proof.
  intros Hne. induction obj as [|[k w] obj IH]; simpl.
  - destruct (jseqb key (utf16 "__proto__")); auto. simpl.
    destruct (jseqb key k') eqn:E; auto.
    apply jseqb_eq in E. contradiction.
  - destruct (jseqb k key) eqn:E; simpl.
    + apply jseqb_eq in E. subst k.
      destruct (jseqb key k') eqn:E'; auto.
      apply jseqb_eq in E'. contradiction.
    + destruct (jseqb k k'); auto.
Qed.

Lemma remask_keeps (ty : jsstring) (mt : MaskingType) :
  keepsAllButMasking (remask ty mt).
Proof.
  intros m. unfold remask. destruct (jseqb (type m) ty); simpl; auto.
Qed.

Section Remasking.

Variable g : PIIMatch -> PIIMatch.
Hypothesis g_keeps : keepsAllButMasking g.

Lemma g_overlaps (x m : PIIMatch) :
  same_element (element (g x)) (element (g m)) && isOverlapping (g x) (g m)
  = same_element (element x) (element m) && isOverlapping x m.
Proof.
  unfold isOverlapping.
  destruct (g_keeps x) as [_ [-> [-> [_ ->]]]].
  destruct (g_keeps m) as [_ [-> [-> [_ ->]]]]. reflexivity.
Qed.

Lemma g_shouldReplace (x m : PIIMatch) :
  shouldReplaceMatch (g x) (g m) = shouldReplaceMatch x m.
Proof.
  unfold shouldReplaceMatch.
  destruct (g_keeps x) as [-> [_ [_ [-> _]]]].
  destruct (g_keeps m) as [-> [_ [_ [-> _]]]]. reflexivity.
Qed.

Lemma g_compare (x m : PIIMatch) :
  compareMatches (g x) (g m) = compareMatches x m.
Proof.
  unfold compareMatches.
  destruct (g_keeps x) as [_ [-> [_ [_ ->]]]].
  destruct (g_keeps m) as [_ [-> [_ [_ ->]]]]. reflexivity.
Qed.

Lemma find_map_g (m : PIIMatch) (l : list PIIMatch) :
  find (fun existing =>
          same_element (element existing) (element (g m))
          && isOverlapping existing (g m)) (map g l)
  = option_map g
      (find (fun existing =>
               same_element (element existing) (element m)
               && isOverlapping existing m) l).
Proof.
  induction l as [|x l IH]; simpl; auto.
  rewrite g_overlaps. destruct (_ && _); simpl; auto.
Qed.

Lemma findIndex_map_g (m : PIIMatch) (l : list PIIMatch) :
  findIndex (fun existing =>
               same_element (element existing) (element (g m))
               && isOverlapping existing (g m)) (map g l)
  = findIndex (fun existing =>
                 same_element (element existing) (element m)
                 && isOverlapping existing m) l.
Proof.
  induction l as [|x l IH]; simpl; auto.
  rewrite g_overlaps, IH. reflexivity.
Qed.

Lemma assign_map {A B : Type} (f : A -> B) (l : list A) (i : nat) (v : A) :
  assign (map f l) i (f v) = map f (assign l i v).
Proof.
  revert i. induction l as [|x l IH]; intros [|i]; simpl; auto.
  rewrite IH. reflexivity.
Qed.

Lemma removeDuplicateStep_map (res : list PIIMatch) (m : PIIMatch) :
  removeDuplicateStep (map g res) (g m)
  = map g (removeDuplicateStep res m).
Proof.
  unfold removeDuplicateStep.
  rewrite find_map_g, findIndex_map_g.
  destruct (find _ res) as [ov|]; simpl.
  - rewrite g_shouldReplace. destruct (shouldReplaceMatch ov m); auto.
    destruct (findIndex _ res); auto. apply assign_map.
  - rewrite map_app. reflexivity.
Qed.

Lemma removeDuplicate_fold_map (l acc : list PIIMatch) :
  fold_left removeDuplicateStep (map g l) (map g acc)
  = map g (fold_left removeDuplicateStep l acc).
Proof.
  revert acc. induction l as [|m l IH]; intros acc; simpl; auto.
  rewrite removeDuplicateStep_map. apply IH.
Qed.

Lemma sort_insert_map (x : PIIMatch) (acc : list PIIMatch) :
  sort_insert compareMatches (g x) (map g acc)
  = map g (sort_insert compareMatches x acc).
Proof.
  induction acc as [|y ys IH]; simpl; auto.
  rewrite g_compare. destruct (0 <? compareMatches y x); simpl; auto.
  rewrite IH. reflexivity.
Qed.

Lemma sort_fold_map (l acc : list PIIMatch) :
  fold_left (fun a x => sort_insert compareMatches x a) (map g l)
            (map g acc)
  = map g (fold_left (fun a x => sort_insert compareMatches x a) l acc).
Proof.
  revert acc. induction l as [|m l IH]; intros acc; simpl; auto.
  rewrite sort_insert_map. apply IH.
Qed.

(** Overlap resolution and the sort read no masking type. *)
Lemma postProcessMatches_map (ms : list PIIMatch) :
  postProcessMatches (map g ms) = map g (postProcessMatches ms).
Proof.
  unfold postProcessMatches, removeDuplicateMatches, Array_sort.
  pose proof (removeDuplicate_fold_map ms []) as H1. simpl in H1.
  rewrite H1.
  pose proof (sort_fold_map (fold_left removeDuplicateStep ms []) [])
    as H2.
  simpl in H2. rewrite H2, map_rev. reflexivity.
Qed.

End Remasking.

Section MaskingChange.

Variable toLowerCase : jsstring -> jsstring.
Variable RegExp : Type.
Variable RegExp_new : jsstring -> option RegExp.
Variable matchAll : RegExp -> jsstring -> list RegExpMatch.
Variable s : ExtensionSettings.
Variable ty : jsstring.
Variable mt : MaskingType.

(** The type is a key of which the masking types hold their own entry or
    none, as the three types the popup passes are. *)
Hypothesis ty_plain : inheritedKey ty = false.

Local Abbreviation before := (constructor s).
Local Abbreviation after := (constructor (handleMaskingTypeChange s ty mt)).

Lemma getMaskingType_after (k : jsstring) :
  getMaskingType after k
  = if jseqb k ty then mt else getMaskingType before k.
Proof.
  unfold getMaskingType. simpl.
  destruct (jseqb k ty) eqn:E.
  - apply jseqb_eq in E. subst k.
    rewrite lookup_setProperty_same by exact ty_plain. reflexivity.
  - rewrite lookup_setProperty_other; auto.
    intros ->. rewrite jseqb_refl in E. discriminate.
Qed.

Lemma shouldIncludeMatch_after (t : jsstring) (p p' : PIIPattern)
      (ctx : DetectionContext) :
  name p' = name p ->
  shouldIncludeMatch toLowerCase after t p' ctx
  = shouldIncludeMatch toLowerCase before t p ctx.
Proof.
  intros Hn. unfold shouldIncludeMatch. simpl. rewrite Hn. reflexivity.
Qed.

Lemma toMatch_after (p p' : PIIPattern) (ctx : DetectionContext)
      (rm : RegExpMatch) :
  name p' = name p ->
  toMatch after p' ctx rm = remask ty mt (toMatch before p ctx rm).
Proof.
  intros Hn. unfold toMatch, remask. simpl type.
  rewrite Hn, getMaskingType_after.
  destruct (jseqb (name p) ty); reflexivity.
Qed.

Lemma accepted_after (p p' : PIIPattern) (ctx : DetectionContext) :
  name p' = name p -> pattern p' = pattern p -> enabled p' = enabled p ->
  acceptedOccurrences toLowerCase RegExp_new matchAll after ctx p'
  = map (remask ty mt)
        (acceptedOccurrences toLowerCase RegExp_new matchAll before ctx p).
Proof.
  intros Hn Hp He. unfold acceptedOccurrences. rewrite Hp, He.
  destruct (enabled p); auto.
  destruct (RegExp_new (pattern p)) as [re|]; auto.
  rewrite map_map.
  erewrite filter_ext
    by (intros rm; apply shouldIncludeMatch_after; exact Hn).
  apply map_ext. intros rm. apply toMatch_after. exact Hn.
Qed.

Lemma accepted_same_patterns (ctx : DetectionContext)
      (qs : list PIIPattern) :
  flat_map (acceptedOccurrences toLowerCase RegExp_new matchAll after ctx)
           qs
  = map (remask ty mt)
        (flat_map (acceptedOccurrences toLowerCase RegExp_new matchAll
                                       before ctx) qs).
Proof.
  induction qs as [|q qs IH]; simpl; auto.
  rewrite map_app, IH, (accepted_after q q); auto.
Qed.

Lemma accepted_setFirstPattern (ctx : DetectionContext)
      (ps : list PIIPattern) :
  flat_map (acceptedOccurrences toLowerCase RegExp_new matchAll after ctx)
           (setFirstPattern ty mt ps)
  = map (remask ty mt)
        (flat_map (acceptedOccurrences toLowerCase RegExp_new matchAll
                                       before ctx) ps).
Proof.
  induction ps as [|p ps IH]; simpl; auto.
  destruct (jseqb (name p) ty); simpl; rewrite map_app.
  - rewrite accepted_same_patterns. f_equal.
    apply accepted_after; reflexivity.
  - rewrite IH. f_equal. apply accepted_after; reflexivity.
Qed.

Lemma patterns_before :
  this_patterns before
  = match patterns s with
    | [] => PIIPatterns.getAllPatterns
    | _ :: _ => patterns s
    end.
Proof.
  simpl. unfold initializePatterns. destruct (patterns s); reflexivity.
Qed.

Lemma patterns_after :
  this_patterns after
  = match patterns s with
    | [] => PIIPatterns.getAllPatterns
    | _ :: _ => setFirstPattern ty mt (patterns s)
    end.
Proof.
  simpl. unfold initializePatterns. simpl.
  destruct (patterns s) as [|p ps]; auto.
  simpl. destruct (jseqb (name p) ty); reflexivity.
Qed.

Lemma candidates_after (n : Text) :
  candidatesOfNode toLowerCase RegExp_new matchAll after n
  = map (remask ty mt)
        (candidatesOfNode toLowerCase RegExp_new matchAll before n).
Proof.
  unfold candidatesOfNode.
  destruct (parentElement n) as [el|]; auto.
  destruct (scanned n); auto.
  rewrite patterns_after, patterns_before.
  destruct (patterns s) as [|p ps].
  - apply accepted_same_patterns.
  - apply accepted_setFirstPattern.
Qed.

Lemma raw_after (textNodes : list Text) :
  flat_map (candidatesOfNode toLowerCase RegExp_new matchAll after)
           textNodes
  = map (remask ty mt)
        (flat_map (candidatesOfNode toLowerCase RegExp_new matchAll before)
                  textNodes).
Proof.
  induction textNodes as [|n ns IH]; simpl; auto.
  rewrite map_app, candidates_after, IH. reflexivity.
Qed.

Lemma failsToCompile_after (p : PIIPattern) :
  failsToCompile RegExp_new after p ->
  exists q, failsToCompile RegExp_new before q.
Proof.
  unfold failsToCompile. rewrite patterns_after, patterns_before.
  destruct (patterns s) as [|p0 ps]; [eauto|].
  generalize (p0 :: ps). intros l [Hin [He Hc]].
  induction l as [|q l IH]; simpl in Hin; [contradiction|].
  destruct (jseqb (name q) ty).
  - destruct Hin as [<- | Hin].
    + exists q. simpl in *. auto.
    + exists p. simpl. auto.
  - destruct Hin as [<- | Hin].
    + exists q. simpl. auto.
    + destruct (IH Hin) as [q' [Hq' H]]. exists q'. simpl. auto.
Qed.

Lemma failsToCompile_before (p : PIIPattern) :
  failsToCompile RegExp_new before p ->
  exists q, failsToCompile RegExp_new after q.
Proof.
  unfold failsToCompile. rewrite patterns_after, patterns_before.
  destruct (patterns s) as [|p0 ps]; [eauto|].
  generalize (p0 :: ps). intros l [Hin [He Hc]].
  induction l as [|q l IH]; simpl in Hin; [contradiction|].
  simpl. destruct (jseqb (name q) ty).
  - destruct Hin as [<- | Hin].
    + exists (mkPIIPattern (name q) (pattern q) mt (enabled q)).
      simpl. auto.
    + exists p. simpl. auto.
  - destruct Hin as [<- | Hin].
    + exists q. simpl. auto.
    + destruct (IH Hin) as [q' [Hq' H]]. exists q'. simpl. auto.
Qed.

(** X17: after the popup's [handleMaskingTypeChange] for a type that is
    no key inherited from [Object.prototype], a detector built from the
    changed settings answers as the one built from the settings before,
    but for the masking type of the matches of that type, which is the new
    one: no match appears, disappears, moves or changes type, and the call
    throws exactly when it threw before. *)
Theorem masking_change_only_remasks (textNodes : list Text) :
  ((exists e, detectPII toLowerCase RegExp_new matchAll after textNodes
              = Throw e)
   <-> (exists e, detectPII toLowerCase RegExp_new matchAll before textNodes
                  = Throw e))
  /\ forall out,
      detectPII toLowerCase RegExp_new matchAll before textNodes = Ok out ->
      detectPII toLowerCase RegExp_new matchAll after textNodes
      = Ok (map (remask ty mt) out).
Proof.
  assert (Hthrow :
            (exists e, detectPII toLowerCase RegExp_new matchAll after
                                 textNodes = Throw e)
            <-> (exists e, detectPII toLowerCase RegExp_new matchAll before
                                     textNodes = Throw e)).
  { rewrite !detectPII_throws. split; intros [Hn [p Hp]]; split; auto.
    - eapply failsToCompile_after; eauto.
    - eapply failsToCompile_before; eauto. }
  split; [exact Hthrow|].
  intros out Hb.
  destruct (detectPII toLowerCase RegExp_new matchAll after textNodes)
    as [out'|e] eqn:Ha.
  - apply detectPII_candidates in Ha. apply detectPII_candidates in Hb.
    subst out out'. f_equal.
    rewrite <- (postProcessMatches_map _ (remask_keeps ty mt)).
    f_equal. apply raw_after.
  - exfalso. destruct (proj1 Hthrow) as [e' He']; eauto. congruence.
Qed.

End MaskingChange.


(* ================================================================== *)
(** ** Further facts: registry and coarse filter *)

(** X18: the names of the registry are pairwise different, so
    [getPatternByName] returns each registered pattern for its own name;
    what it returns is always a registered pattern of the name asked. *)
Theorem getPatternByName_finds_registered (p : PIIPattern) (n : jsstring) :
  (In p PIIPatterns.getAllPatterns ->
   PIIPatterns.getPatternByName (name p) = Some p)
  /\ (PIIPatterns.getPatternByName n = Some p ->
      In p PIIPatterns.getAllPatterns /\ name p = n).
Proof.
  split.
  - intros H. repeat (destruct H as [<- | H]; [vm_compute; reflexivity|]).
    contradiction.
  - unfold PIIPatterns.getPatternByName. intros H.
    apply find_some in H. destruct H as [Hin Hn].
    apply jseqb_eq in Hn. auto.
Qed.

Lemma filter_idempotent {A : Type} (f : A -> bool) (l : list A) :
  filter f (filter f l) = filter f l.
Proof.
  induction l as [|x l IH]; simpl; auto.
  destruct (f x) eqn:E; simpl; rewrite ?E, IH; reflexivity.
Qed.

(** X19: whatever the type, [filterFalsePositives] only drops candidates
    (it adds and reorders none), filtering its own result changes
    nothing, and for a type other than phone, creditCard and japaneseName
    it returns the candidates as they are. *)
Theorem filterFalsePositives_only_drops (matches : list jsstring)
        (ty : jsstring) :
  (forall m, In m (PIIPatterns.filterFalsePositives matches ty) ->
             In m matches)
  /\ PIIPatterns.filterFalsePositives
       (PIIPatterns.filterFalsePositives matches ty) ty
     = PIIPatterns.filterFalsePositives matches ty
  /\ (ty <> utf16 "phone" -> ty <> utf16 "creditCard" ->
      ty <> utf16 "japaneseName" ->
      PIIPatterns.filterFalsePositives matches ty = matches).
Proof.
  unfold PIIPatterns.filterFalsePositives.
  destruct (jseqb ty (utf16 "phone")) eqn:E1;
    [|destruct (jseqb ty (utf16 "creditCard")) eqn:E2;
      [|destruct (jseqb ty (utf16 "japaneseName")) eqn:E3]].
  1-3: (split; [intros m Hm; apply filter_In in Hm; tauto|];
        split; [apply filter_idempotent|]).
  - intros H. apply jseqb_eq in E1. contradiction.
  - intros _ H. apply jseqb_eq in E2. contradiction.
  - intros _ _ H. apply jseqb_eq in E3. contradiction.
  - auto.
Qed.

(* ================================================================== *)
(** ** Further facts: the shipped patterns on the modelled runtime *)

Lemma defaultSettings_patterns_compile :
  forallb (fun p => match regex_parse (pattern p) with
                    | Some _ => true
                    | None => false
                    end) (patterns defaultSettings) = true.
Proof. vm_compute. reflexivity. Qed.

(** X20: with settings that bring no patterns of their own (the registry
    is used) or the patterns of the shipped [defaultSettings], every
    pattern source compiles on the modelled runtime, so [detectPII]
    returns a list for every list of nodes. *)
Theorem shipped_patterns_never_throw (s : ExtensionSettings)
        (textNodes : list Text) :
  patterns s = [] \/ patterns s = patterns defaultSettings ->
  exists out, Host.detectPII (constructor s) textNodes = Ok out.
Proof.
  intros Hs. unfold Host.detectPII.
  destruct (detectPII ascii_toLowerCase regex_parse regex_matchAll
                      (constructor s) textNodes) as [out|e] eqn:Hd; eauto.
  exfalso.
  assert (Ht : exists e, detectPII ascii_toLowerCase regex_parse
                                   regex_matchAll (constructor s) textNodes
                         = Throw e) by eauto.
  apply detectPII_throws in Ht. destruct Ht as [_ [p [Hin [_ Hc]]]].
  assert (Hall : forallb (fun p => match regex_parse (pattern p) with
                                   | Some _ => true
                                   | None => false
                                   end) (this_patterns (constructor s))
                 = true).
  { simpl. unfold initializePatterns.
    destruct Hs as [-> | ->].
    - apply registry_patterns_compile.
    - apply defaultSettings_patterns_compile. }
  rewrite forallb_forall in Hall. specialize (Hall p Hin).
  rewrite Hc in Hall. discriminate.
Qed.

(* ================================================================== *)
(** ** Further facts: the content script *)




(** *** Character masking *)











(** *** Grouping by element *)

Lemma same_element_trans (a b c : HTMLElement) :
  same_element a b = true -> same_element a c = same_element b c.
Proof.
  unfold same_element. intros H. apply Nat.eqb_eq in H. rewrite H.
  reflexivity.
Qed.

Lemma mapGet_mapSet (e k : HTMLElement) (v : list PIIMatch)
      (m : list (HTMLElement * list PIIMatch)) :
  mapGet e (mapSet k v m)
  = if same_element k e then Some v else mapGet e m.
Proof.
  induction m as [|[k' w] m IH]; simpl.
  - reflexivity.
  - destruct (same_element k' k) eqn:Ek; simpl.
    + rewrite (same_element_trans _ _ e Ek).
      destruct (same_element k e); reflexivity.
    + rewrite IH. destruct (same_element k' e) eqn:Ee; auto.
      destruct (same_element k e) eqn:Eke; auto.
      unfold same_element in *.
      apply Nat.eqb_eq in Ee. apply Nat.eqb_eq in Eke.
      apply Nat.eqb_neq in Ek. congruence.
Qed.

Lemma mapGet_same (a b : HTMLElement)
      (m : list (HTMLElement * list PIIMatch)) :
  same_element a b = true -> mapGet a m = mapGet b m.
Proof.
  intros H. induction m as [|[k w] m IH]; simpl; auto.
  unfold same_element in *. apply Nat.eqb_eq in H. rewrite H, IH.
  reflexivity.
Qed.

Lemma groupStep_get (e : HTMLElement)
      (acc : list (HTMLElement * list PIIMatch)) (m : PIIMatch) :
  mapGet e (groupStep acc m)
  = if same_element (element m) e
    then grouped (mapGet e acc) [m]
    else mapGet e acc.
Proof.
  unfold groupStep. rewrite mapGet_mapSet.
  destruct (same_element (element m) e) eqn:E; auto.
  rewrite (mapGet_same _ _ acc E).
  destruct (mapGet e acc); reflexivity.
Qed.

Lemma grouped_app (o : option (list PIIMatch)) (a b : list PIIMatch) :
  grouped (grouped o a) b = grouped o (a ++ b).
Proof.
  destruct o as [l0|]; destruct a as [|x a]; destruct b as [|y b]; simpl;
    rewrite ?app_nil_r, <- ?app_assoc; reflexivity.
Qed.

Lemma groupByElement_fold (e : HTMLElement) (ms : list PIIMatch)
      (acc : list (HTMLElement * list PIIMatch)) :
  mapGet e (fold_left groupStep ms acc)
  = grouped (mapGet e acc)
            (filter (fun m => same_element (element m) e) ms).
Proof.
  revert acc. induction ms as [|m ms IH]; intros acc; simpl.
  - destruct (mapGet e acc); simpl; rewrite ?app_nil_r; reflexivity.
  - rewrite IH, groupStep_get.
    destruct (same_element (element m) e); auto.
    rewrite grouped_app. reflexivity.
Qed.

(** X23: the grouping of [applyMasking] puts under each element exactly
    the matches of that element, in the order they were reported; an
    element without a match has no entry. *)
Theorem groupByElement_collects (matches : list PIIMatch)
        (e : HTMLElement) :
  mapGet e (groupByElement matches)
  = match filter (fun m => same_element (element m) e) matches with
    | [] => None
    | l => Some l
    end.
Proof.
  unfold groupByElement. rewrite groupByElement_fold. simpl.
  destruct (filter _ matches); reflexivity.
Qed.

(** *** The walk over the page *)

Lemma traverse_scanned (node : DomNode) (e : HTMLElement) :
  Forall (fun n => scanned n = true) (traverse (Some e) node).
Proof.
  revert node e. fix IH 1. intros [data | e0 childNodes] e; simpl.
  - destruct (truthy data && (0 <? jslength (trim data))) eqn:E; auto.
    constructor; auto. unfold scanned. simpl.
    apply andb_true_iff in E. destruct E as [_ E].
    apply Z.ltb_lt in E. apply negb_true_iff. apply Z.eqb_neq. lia.
  - induction childNodes as [|c cs IHcs]; simpl; auto.
    apply Forall_app. split; auto.
Qed.

(** X24: every text node [getTextNodes] collects under an element has a
    parent element and non-blank text: [detectPII] scans each of them and
    skips none. *)
Theorem getTextNodes_all_scanned (parent : option HTMLElement)
        (e : HTMLElement) (childNodes : list DomNode) :
  Forall (fun n => scanned n = true)
         (getTextNodes parent (DomElement e childNodes))
  /\ filter scanned (getTextNodes parent (DomElement e childNodes))
     = getTextNodes parent (DomElement e childNodes).
Proof.
  assert (H : Forall (fun n => scanned n = true)
                     (getTextNodes parent (DomElement e childNodes))).
  { unfold getTextNodes. simpl.
    induction childNodes as [|c cs IH]; simpl; auto.
    apply Forall_app. split; auto. apply traverse_scanned. }
  split; auto.
  induction H as [|n ns Hn _ IH]; simpl; auto.
  rewrite Hn, IH. reflexivity.
Qed.

(* ================================================================== *)
(** ** Further facts: the context of an element *)

Lemma slice_length {A : Type} (l : list A) (from to : nat) :
  (length (slice l from to) <= to - from)%nat.
Proof. unfold slice. rewrite length_firstn. lia. Qed.

Lemma nth_error_slice {A : Type} (l : list A) (from to i : nat) (x : A) :
  (from <= i < to)%nat -> nth_error l i = Some x ->
  nth_error (slice l from to) (i - from) = Some x.
Proof.
  intros Hi Hx. unfold slice.
  rewrite nth_error_firstn.
  replace ((i - from <? to - from)%nat) with true
    by (symmetry; apply Nat.ltb_lt; lia).
  rewrite nth_error_skipn. rewrite <- Hx. f_equal. lia.
Qed.

(** X25: the nearby text of an element is the lowered join of at most
    five child texts of its parent, the element's own text among them. *)
Theorem getNearbyText_joins_at_most_five
        (toLowerCase : jsstring -> jsstring) (e : HTMLElement)
        (siblings : list jsstring) (own : jsstring) :
  parentChildren e = Some siblings ->
  nth_error siblings (indexInParent e) = Some own ->
  getNearbyText toLowerCase e
  = toLowerCase (join (utf16 " ")
                      (nearbyElements siblings (indexInParent e)))
  /\ (length (nearbyElements siblings (indexInParent e)) <= 5)%nat
  /\ In own (nearbyElements siblings (indexInParent e)).
Proof.
  intros Hp Hown. unfold getNearbyText. rewrite Hp.
  split; [reflexivity|].
  assert (Hi : (indexInParent e < length siblings)%nat)
    by (apply nth_error_Some; congruence).
  unfold nearbyElements. split.
  - pose proof (slice_length siblings
                  (Nat.max 0 (indexInParent e - 2))
                  (Nat.min (length siblings) (indexInParent e + 3))) as Hl.
    lia.
  - apply (nth_error_In _ (indexInParent e
                           - Nat.max 0 (indexInParent e - 2))).
    unfold nearbyElements. apply nth_error_slice; [|exact Hown].
    split; [lia|]. apply Nat.min_glb_lt; lia.
Qed.

Lemma hasContextKeyword_empty : hasContextKeyword [] = false.
Proof. vm_compute. reflexivity. Qed.

Section LowSensitivity.

Variable toLowerCase : jsstring -> jsstring.
Variable RegExp : Type.
Variable RegExp_new : jsstring -> option RegExp.
Variable matchAll : RegExp -> jsstring -> list RegExpMatch.
Variable this : PIIDetector.

Hypothesis lower_empty : toLowerCase [] = [].
Hypothesis at_low : sensitivity (settings this) = low.

Lemma low_without_context (t : jsstring) (pat : PIIPattern)
      (el : HTMLElement) (s : jsstring) :
  closestForm el = None -> parentChildren el = None ->
  shouldIncludeMatch toLowerCase this t pat
                     (buildDetectionContext toLowerCase el s) = false.
Proof.
  intros Hf Hp. unfold shouldIncludeMatch. rewrite at_low.
  destruct (isValidMatch t (name pat)); auto.
  unfold buildDetectionContext, getFormContext, getNearbyText.
  rewrite Hf, Hp.
  cbn [negb formContext nearbyText or_else truthy].
  rewrite isLikelyPII_keyword, lower_empty.
  apply hasContextKeyword_empty.
Qed.

(** X26: at low sensitivity, text nodes whose parent elements stand in
    no form and have no parent element themselves yield no match, since
    there is no context to find a keyword in. *)
Theorem low_sensitivity_needs_context
        (textNodes : list Text) (out : list PIIMatch) :
  (forall n el, In n textNodes -> parentElement n = Some el ->
                closestForm el = None /\ parentChildren el = None) ->
  detectPII toLowerCase RegExp_new matchAll this textNodes = Ok out ->
  out = [].
Proof.
  intros Hctx Hd. apply detectPII_candidates in Hd. subst out.
  assert (Hraw : flat_map (candidatesOfNode toLowerCase RegExp_new matchAll
                                            this) textNodes = []).
  { induction textNodes as [|n ns IH]; simpl; auto.
    rewrite IH by (intros n' el Hin; apply Hctx; right; exact Hin).
    rewrite app_nil_r. unfold candidatesOfNode.
    destruct (parentElement n) as [el|] eqn:Hel; auto.
    destruct (scanned n); auto.
    destruct (Hctx n el (or_introl eq_refl) Hel) as [Hf Hp].
    induction (this_patterns this) as [|p ps IHp]; simpl; auto.
    rewrite IHp, app_nil_r. unfold acceptedOccurrences.
    destruct (enabled p); auto.
    destruct (RegExp_new (pattern p)) as [re|]; auto.
    induction (matchAll re _) as [|rm rms IHr]; simpl; auto.
    rewrite low_without_context by assumption. exact IHr. }
  rewrite Hraw. reflexivity.
Qed.

End LowSensitivity.


(* ================================================================== *)
(** ** The further facts at concrete inputs *)

(** X1 at a test card number and the number with its last digit
    changed. *)
Lemma luhnCheck_detects_substitution_witness :
  forallb isDigit (utf16 "4111111111111111") = true
  /\ forallb isDigit (utf16 "4111111111111112") = true
  /\ substituted (utf16 "4111111111111111") (utf16 "4111111111111112")
  /\ luhnCheck (utf16 "4111111111111111") = true
  /\ luhnCheck (utf16 "4111111111111112") = false.
Proof.
  assert (Hs : substituted (utf16 "4111111111111111")
                           (utf16 "4111111111111112")).
  { exists (utf16 "411111111111111"), 49%N, 50%N, [].
    split; [reflexivity|]. split; [reflexivity | discriminate]. }
  split; [reflexivity|]. split; [reflexivity|]. split; [exact Hs|].
  split; [reflexivity|].
  apply (luhnCheck_detects_substitution (utf16 "4111111111111111"));
    [reflexivity | reflexivity | exact Hs | reflexivity].
Defined.

(** X2 at the first fifteen digits of the test card number. *)
Lemma luhn_check_digit_unique_witness :
  forallb isDigit (utf16 "411111111111111") = true
  /\ luhnCheckDigit (utf16 "411111111111111") = 49%N
  /\ luhnCheck (utf16 "411111111111111"
                ++ [luhnCheckDigit (utf16 "411111111111111")]) = true.
Proof.
  split; [reflexivity|]. split; [reflexivity|].
  apply (luhn_check_digit_unique (utf16 "411111111111111")). reflexivity.
Defined.

(** X5 at a phone number with and without a hyphen. *)
Lemma validators_ignore_separators_witness :
  (45%N = 45%N \/ isWhiteSpace 45 = true)
  /\ isValidPhone (utf16 "090" ++ 45%N :: utf16 "12345678")
     = isValidPhone (utf16 "090" ++ utf16 "12345678").
Proof.
  split; [left; reflexivity|].
  refine (proj1 (validators_ignore_separators
                   (utf16 "090") (utf16 "12345678") 45%N _)).
  left. reflexivity.
Defined.

(** X6 at the phone number and the postal code read from its start. *)
Lemma isOverlapping_shared_position_witness :
  startIndex phoneCandidate < endIndex phoneCandidate
  /\ startIndex postalCandidate < endIndex postalCandidate
  /\ isOverlapping phoneCandidate postalCandidate
     = isOverlapping postalCandidate phoneCandidate.
Proof.
  split; [vm_compute; reflexivity|]. split; [vm_compute; reflexivity|].
  refine (proj1 (isOverlapping_shared_position
                   phoneCandidate postalCandidate _ _));
    vm_compute; reflexivity.
Defined.

(** X8 at two addresses side by side. *)
Lemma removeDuplicateMatches_keeps_disjoint_witness :
  nonOverlapping [firstEmailCandidate; secondEmailCandidate] = true
  /\ removeDuplicateMatches [firstEmailCandidate; secondEmailCandidate]
     = [firstEmailCandidate; secondEmailCandidate].
Proof.
  split; [reflexivity|].
  apply (removeDuplicateMatches_keeps_disjoint
           [firstEmailCandidate; secondEmailCandidate]).
  reflexivity.
Defined.


(** X10 at matches that stand grouped but out of order. *)
Lemma postProcessMatches_sorts_grouped_input_witness :
  groupedByElement groupedUnsorted = true
  /\ ascendingWithinElement groupedUnsorted = false
  /\ groupedByElement (postProcessMatches groupedUnsorted) = true
  /\ ascendingWithinElement (postProcessMatches groupedUnsorted) = true.
Proof.
  split; [reflexivity|]. split; [reflexivity|].
  apply (postProcessMatches_sorts_grouped_input groupedUnsorted).
  reflexivity.
Defined.

(** X11 at the email example. *)
Lemma detectPII_is_postProcess_of_candidates_witness :
  Host.detectPII (registryDetector high) [contactNode] = Ok [contactMatch]
  /\ [contactMatch]
     = postProcessMatches
         (flat_map (candidatesOfNode ascii_toLowerCase regex_parse
                                     regex_matchAll (registryDetector high))
                   [contactNode]).
Proof.
  split; [vm_compute; reflexivity|].
  apply (detectPII_is_postProcess_of_candidates
           ascii_toLowerCase regex regex_parse regex_matchAll
           (registryDetector high) [contactNode] [contactMatch]).
  vm_compute. reflexivity.
Defined.

(** X12 at the email example. *)
Lemma reported_match_has_an_origin_witness :
  Host.detectPII (registryDetector high) [contactNode] = Ok [contactMatch]
  /\ In contactMatch [contactMatch]
  /\ inheritedKey (type contactMatch) = false
  /\ exists node pat,
      In node [contactNode] /\ In pat PIIPatterns.getAllPatterns
      /\ type contactMatch = name pat
      /\ maskingType contactMatch
         = getMaskingType (registryDetector high) (type contactMatch).
Proof.
  split; [vm_compute; reflexivity|]. split; [left; reflexivity|].
  split; [vm_compute; reflexivity|].
  destruct (reported_match_has_an_origin
              ascii_toLowerCase regex regex_parse regex_matchAll
              (registryDetector high) [contactNode] [contactMatch]
              contactMatch)
    as [node [el [pat [re [rm H]]]]];
    [vm_compute; reflexivity | left; reflexivity |].
  exists node, pat.
  destruct H as (Hn & _ & _ & _ & Hp & _ & _ & _ & _ & _ & _ & _ & Ht & Hm).
  split; [exact Hn|]. split; [exact Hp|]. split; [exact Ht|].
  apply Hm. vm_compute. reflexivity.
Defined.

(** X14 at the phone number that loses to the postal code: the paragraph
    still has a match. *)
Lemma element_with_candidate_is_reported_witness :
  Host.detectPII (registryDetector high) [phoneNode] = Ok [postalCandidate]
  /\ In phoneNode [phoneNode]
  /\ In phoneCandidate
        (candidatesOfNode ascii_toLowerCase regex_parse regex_matchAll
                          (registryDetector high) phoneNode)
  /\ exists m, In m [postalCandidate]
               /\ elementId (element m)
                  = elementId (element phoneCandidate).
Proof.
  split; [vm_compute; reflexivity|]. split; [left; reflexivity|].
  split; [vm_compute; left; reflexivity|].
  apply (element_with_candidate_is_reported
           ascii_toLowerCase regex regex_parse regex_matchAll
           (registryDetector high) [phoneNode] [postalCandidate]
           phoneNode phoneCandidate).
  - vm_compute. reflexivity.
  - left. reflexivity.
  - vm_compute. left. reflexivity.
Defined.

(** X15 at two nodes of different parents. *)
Lemma detectPII_sorted_for_grouped_nodes_witness :
  Host.detectPII (registryDetector high) [contactNode; textIn bold "x@y.jp"]
  = Ok [contactMatch; found bold "x@y.jp" 0 "email" BLUR]
  /\ groupedIds (map parentId
                     (filter scanned [contactNode; textIn bold "x@y.jp"]))
     = true
  /\ groupedByElement [contactMatch; found bold "x@y.jp" 0 "email" BLUR]
     = true
  /\ ascendingWithinElement
       [contactMatch; found bold "x@y.jp" 0 "email" BLUR] = true.
Proof.
  split; [vm_compute; reflexivity|]. split; [vm_compute; reflexivity|].
  apply (detectPII_sorted_for_grouped_nodes
           ascii_toLowerCase regex regex_parse regex_matchAll
           (registryDetector high) [contactNode; textIn bold "x@y.jp"]);
    vm_compute; reflexivity.
Defined.

(** X16 at an address in a form whose label reads "Email", accepted at
    low sensitivity. *)
Lemma high_sensitivity_keeps_every_candidate_witness :
  this_patterns (registryDetector high) = this_patterns (registryDetector low)
  /\ maskingTypes (settings (registryDetector high))
     = maskingTypes (settings (registryDetector low))
  /\ sensitivity (settings (registryDetector high)) = high
  /\ In formMatch
        (candidatesOfNode ascii_toLowerCase regex_parse regex_matchAll
                          (registryDetector low) formNode)
  /\ In formMatch
        (candidatesOfNode ascii_toLowerCase regex_parse regex_matchAll
                          (registryDetector high) formNode).
Proof.
  split; [reflexivity|]. split; [reflexivity|]. split; [reflexivity|].
  split; [vm_compute; left; reflexivity|].
  apply (high_sensitivity_keeps_every_candidate
           ascii_toLowerCase regex regex_parse regex_matchAll
           (registryDetector low) (registryDetector high) formNode
           formMatch);
    [reflexivity | reflexivity | reflexivity |].
  vm_compute. left. reflexivity.
Defined.

(** X17 at the popup's change of the email masking to blackout. *)
Lemma masking_change_only_remasks_witness :
  inheritedKey (utf16 "email") = false
  /\ forall out,
      Host.detectPII (constructor defaultSettings) [contactNode] = Ok out ->
      Host.detectPII
        (constructor (handleMaskingTypeChange defaultSettings
                                              (utf16 "email") BLACKOUT))
        [contactNode]
      = Ok (map (remask (utf16 "email") BLACKOUT) out).
Proof.
  split; [vm_compute; reflexivity|].
  refine (proj2 (masking_change_only_remasks
                   ascii_toLowerCase regex regex_parse regex_matchAll
                   defaultSettings (utf16 "email") BLACKOUT _
                   [contactNode])).
  vm_compute. reflexivity.
Defined.

(** X20 at the registry's patterns. *)
Lemma shipped_patterns_never_throw_witness :
  (patterns (registrySettings high) = []
   \/ patterns (registrySettings high) = patterns defaultSettings)
  /\ exists out,
      Host.detectPII (constructor (registrySettings high)) interleavedNodes
      = Ok out.
Proof.
  split; [left; reflexivity|].
  apply (shipped_patterns_never_throw (registrySettings high)
                                      interleavedNodes).
  left. reflexivity.
Defined.


(** X25 at the paragraph that follows a sibling reading "Email:". *)
Lemma getNearbyText_joins_at_most_five_witness :
  parentChildren labelledParagraph = Some [utf16 "Email:"; utf16 "a@b.co"]
  /\ nth_error [utf16 "Email:"; utf16 "a@b.co"]
               (indexInParent labelledParagraph) = Some (utf16 "a@b.co")
  /\ In (utf16 "a@b.co")
        (nearbyElements [utf16 "Email:"; utf16 "a@b.co"]
                        (indexInParent labelledParagraph)).
Proof.
  split; [reflexivity|]. split; [reflexivity|].
  refine (proj2 (proj2 (getNearbyText_joins_at_most_five
                          ascii_toLowerCase labelledParagraph
                          [utf16 "Email:"; utf16 "a@b.co"]
                          (utf16 "a@b.co") _ _)));
    reflexivity.
Defined.

(** X26 at the email example, the paragraph standing alone. *)
Lemma low_sensitivity_needs_context_witness :
  ascii_toLowerCase [] = []
  /\ sensitivity (settings (registryDetector low)) = low
  /\ Host.detectPII (registryDetector low) [contactNode] = Ok []
  /\ (forall out,
        Host.detectPII (registryDetector low) [contactNode] = Ok out ->
        out = []).
Proof.
  split; [reflexivity|]. split; [reflexivity|].
  split; [vm_compute; reflexivity|].
  intros out Hd.
  apply (low_sensitivity_needs_context
           ascii_toLowerCase regex regex_parse regex_matchAll
           (registryDetector low) eq_refl eq_refl [contactNode] out).
  - intros n el [<- | []] H. inversion H. split; reflexivity.
  - exact Hd.
Defined.


(* ================================================================== *)
(** ** Further facts: what is reported, type by type *)

Lemma isValidMatch_email (t : jsstring) :
  isValidMatch t (utf16 "email") = isValidEmail t.
Proof. reflexivity. Qed.

Lemma isValidMatch_phone (t : jsstring) :
  isValidMatch t (utf16 "phone") = isValidPhone t.
Proof. reflexivity. Qed.

Lemma isValidMatch_japaneseName (t : jsstring) :
  isValidMatch t (utf16 "japaneseName") = isValidJapaneseName t.
Proof. reflexivity. Qed.

Lemma nameClass_not_space (c : N) :
  nameClass c = true -> isWhiteSpace c = false.
Proof.
  unfold nameClass, isWhiteSpace. intros H.
  change (utf16 "ひらがなカタカナ")
    with [12402; 12425; 12364; 12394; 12459; 12479; 12459; 12490]%N in H.
  simpl existsb in H.
  repeat rewrite orb_true_iff in H. repeat rewrite andb_true_iff in H.
  repeat rewrite N.leb_le in H. repeat rewrite N.eqb_eq in H.
  repeat rewrite orb_false_iff. repeat rewrite andb_false_iff.
  repeat rewrite N.leb_gt. repeat rewrite N.eqb_neq.
  lia.
Qed.

Section ReportedTypes.

Variable toLowerCase : jsstring -> jsstring.
Variable RegExp : Type.
Variable RegExp_new : jsstring -> option RegExp.
Variable matchAll : RegExp -> jsstring -> list RegExpMatch.
Variable this : PIIDetector.

(** X27: of the matches [detectPII] returns, an email has one "@" with a
    non-empty local part before it and a domain with a full stop after it;
    a phone number has 10 or 11 code units besides hyphens and white space
    and does not start with four zeros; a japaneseName has 2 to 8 code
    units, all of the name class, hence no white space between family
    name and given name. *)
Theorem reported_matches_meet_their_rule
        (textNodes : list Text) (out : list PIIMatch) (m : PIIMatch) :
  detectPII toLowerCase RegExp_new matchAll this textNodes = Ok out ->
  In m out ->
  (type m = utf16 "email" ->
   exists local domain,
     text m = local ++ 64%N :: domain
     /\ ~ In 64%N local /\ ~ In 64%N domain
     /\ local <> [] /\ domain <> [] /\ In 46%N domain)
  /\ (type m = utf16 "phone" ->
      10 <= jslength (PIIPatterns.cleaned (text m)) <= 11
      /\ ~ (exists rest,
               PIIPatterns.cleaned (text m) = utf16 "0000" ++ rest))
  /\ (type m = utf16 "japaneseName" ->
      2 <= jslength (text m) <= 8
      /\ Forall (fun c => nameClass c = true /\ isWhiteSpace c = false)
                (text m)).
Proof.
  intros Hd Hin. apply detectPII_valid in Hd.
  rewrite Forall_forall in Hd. specialize (Hd m Hin).
  unfold structurallyValid in Hd. split; [|split]; intros Hty;
    rewrite Hty in Hd.
  - rewrite isValidMatch_email in Hd. apply isValidEmail_spec. exact Hd.
  - rewrite isValidMatch_phone in Hd. apply isValidPhone_spec. exact Hd.
  - rewrite isValidMatch_japaneseName in Hd.
    unfold isValidJapaneseName in Hd.
    destruct (jslength (text m) <? 2) eqn:H2; [discriminate|].
    destruct (8 <? jslength (text m)) eqn:H8; [discriminate|].
    simpl in Hd. apply andb_true_iff in Hd. destruct Hd as [_ Hc].
    apply Z.ltb_ge in H2. apply Z.ltb_ge in H8. split; [lia|].
    apply Forall_forall. intros c Hcin.
    rewrite forallb_forall in Hc. specialize (Hc c Hcin).
    split; [exact Hc | apply nameClass_not_space; exact Hc].
Qed.

(** X28: through any sequence of calls the detector is the one
    [constructor] builds from the settings passed last: it never holds an
    empty pattern list, and [detectPII] answers as a detector freshly
    built from those settings would. *)
Theorem detector_is_constructor_of_last_settings
        (initial : ExtensionSettings) (calls : list call) :
  fst (invokeAll toLowerCase RegExp_new matchAll (constructor initial) calls)
  = constructor (lastSettings initial calls)
  /\ this_patterns
       (fst (invokeAll toLowerCase RegExp_new matchAll (constructor initial)
                       calls)) <> [].
Proof.
  assert (H : fst (invokeAll toLowerCase RegExp_new matchAll
                             (constructor initial) calls)
              = constructor (lastSettings initial calls)).
  { revert initial. induction calls as [|c calls IH]; intros initial;
      [reflexivity|].
    destruct c as [ns|s]; cbn [invokeAll lastSettings].
    - rewrite invoke_detect. specialize (IH initial).
      destruct (invokeAll toLowerCase RegExp_new matchAll
                          (constructor initial) calls). exact IH.
    - rewrite invoke_update. specialize (IH s). unfold updateSettings.
      change (mkDetector s (initializePatterns s)) with (constructor s).
      destruct (invokeAll toLowerCase RegExp_new matchAll
                          (constructor s) calls). exact IH. }
  split; [exact H|]. rewrite H. simpl. unfold initializePatterns.
  destruct (patterns (lastSettings initial calls)); discriminate.
Qed.

End ReportedTypes.

(** X27 at a name written without a space. *)
Lemma reported_matches_meet_their_rule_witness :
  Host.detectPII (registryDetector high) [textIn paragraph japaneseNameText]
  = Ok [found paragraph japaneseNameText 0 "japaneseName" BLUR]
  /\ In (found paragraph japaneseNameText 0 "japaneseName" BLUR)
        [found paragraph japaneseNameText 0 "japaneseName" BLUR]
  /\ 2 <= jslength (utf16 japaneseNameText) <= 8.
Proof.
  split; [vm_compute; reflexivity|]. split; [left; reflexivity|].
  refine (proj1 (proj2 (proj2
            (reported_matches_meet_their_rule
               ascii_toLowerCase regex regex_parse regex_matchAll
               (registryDetector high)
               [textIn paragraph japaneseNameText]
               [found paragraph japaneseNameText 0 "japaneseName" BLUR]
               (found paragraph japaneseNameText 0 "japaneseName" BLUR)
               _ _)) _)).
  - vm_compute. reflexivity.
  - left. reflexivity.
  - reflexivity.
Defined.
